(** * gcs-cacher: the cache protocol of [cacher/cacher.go]

    A shallow embedding of [Cacher.Save], [Cacher.Restore], the per-entry
    extraction handler and [Cacher.HashFiles], over an explicit model of the
    three collaborators the package talks to: the object store, the local
    file system and the archive codec.  Every function of the package is a
    computation in a state monad over the [World]; a Go [error] result is an
    [option error] ([None] is [nil]). *)

From Stdlib Require Import ZArith NArith Ascii String List Lia.
From Stdlib.Strings Require Import Byte.
From stdpp Require Import gmap strings list fin_maps sorting.

Local Open Scope string_scope.
Local Open Scope list_scope.

(** ** Go errors *)

(** [fmt.Errorf] builds an [*errors.errorString]-like value when the format
    has no [%w] verb, and a [*fmt.wrapError] whose [Unwrap] is the operand of
    [%w] otherwise.  The arguments are kept as values: the text of a message
    is never compared by the package. *)
Inductive error : Type :=
| errorString (format : string) (args : list fmtarg)
| wrapError (format : string) (args : list fmtarg) (err : error)
| ErrObjectNotExist                       (* storage.ErrObjectNotExist *)
| googleapiError (code : Z)               (* *googleapi.Error, by HTTP status *)
| PathError (op : string) (errno : string) (* *fs.PathError, *os.LinkError *)
| ioError (msg : string)                  (* any other I/O error *)
with fmtarg : Type :=
| AStr (s : string)
| AStrs (l : list string)
| AChar (c : ascii)
| AErr (e : error).

(** [strings.Contains]. *)
Fixpoint strings_Contains (s sub : string) : bool :=
  String.prefix sub s ||
  match s with
  | EmptyString => false
  | String _ s' => strings_Contains s' sub
  end.

Definition last_error (args : list fmtarg) : option error :=
  match last args with
  | Some (AErr e) => Some e
  | _ => None
  end.

(** [fmt.Errorf]: every call of the package puts [%w] last, so the wrapped
    error is the last argument. *)
Definition fmt_Errorf (format : string) (args : list fmtarg) : error :=
  if strings_Contains format "%w" then
    match last_error args with
    | Some e => wrapError format args e
    | None => errorString format args
    end
  else errorString format args.

(** [errors.Unwrap]. *)
Definition errors_Unwrap (e : error) : option error :=
  match e with
  | wrapError _ _ e' => Some e'
  | _ => None
  end.

(** [errors.Is(err, storage.ErrObjectNotExist)]: the sentinel is compared by
    identity along the [Unwrap] chain. *)
Fixpoint is_ErrObjectNotExist (e : error) : bool :=
  match e with
  | ErrObjectNotExist => true
  | wrapError _ _ e' => is_ErrObjectNotExist e'
  | _ => false
  end.

(** The status the store answers when a generation precondition fails. *)
Definition StatusPreconditionFailed : Z := 412.

Fixpoint is_PreconditionFailed (e : error) : bool :=
  match e with
  | googleapiError c => Z.eqb c StatusPreconditionFailed
  | wrapError _ _ e' => is_PreconditionFailed e'
  | _ => false
  end.

(** ** Paths *)

(** A cleaned path is the list of its elements, outermost first; the empty
    list is the root of the modelled file system, to which every path is
    taken relative. *)
Abbreviation path := (list string).

Definition slash : ascii := "/"%char.

(** [strings.Split(s, "/")]. *)
Fixpoint elements (s : string) : list string :=
  match s with
  | EmptyString => [EmptyString]
  | String c s' =>
      if Ascii.eqb c slash then EmptyString :: elements s'
      else match elements s' with
           | [] => [String c EmptyString]
           | x :: xs => String c x :: xs
           end
  end.

(** [strings.Join(l, "/")]. *)
Fixpoint join_slash (l : list string) : string :=
  match l with
  | [] => EmptyString
  | [x] => x
  | x :: xs => x +:+ String slash (join_slash xs)
  end.

(** One step of the lexical clean-up of [filepath.Clean]: empty and [.]
    elements vanish, [..] removes the element before it (and vanishes at the
    root). [acc] is the cleaned prefix, innermost element first. *)
Definition clean_step (acc : list string) (c : string) : list string :=
  if String.eqb c EmptyString then acc
  else if String.eqb c "." then acc
  else if String.eqb c ".." then tail acc
  else c :: acc.

Definition filepath_Clean (l : list string) : path :=
  rev (fold_left clean_step l []).

(** [filepath.Join(a, b)] on element lists. *)
Definition filepath_Join (a b : list string) : path :=
  filepath_Clean (a ++ b).

(** [filepath.Dir]. *)
Definition filepath_Dir (p : path) : path := removelast p.

(** The path a file-name string denotes. *)
Definition to_path (s : string) : path := filepath_Clean (elements s).

(** ** Archive entries *)

(** The type flags of [archive/tar] that the handler names. *)
Definition TypeReg : ascii := "0"%char.
Definition TypeRegA : ascii := "000"%char.
Definition TypeLink : ascii := "1"%char.
Definition TypeSymlink : ascii := "2"%char.
Definition TypeChar : ascii := "3"%char.
Definition TypeBlock : ascii := "4"%char.
Definition TypeDir : ascii := "5"%char.
Definition TypeFifo : ascii := "6"%char.
Definition TypeXGlobalHeader : ascii := "g"%char.

(** An [archiver.File] read from (or destined to) a tar stream, with the
    fields of its [*tar.Header] the package reads: [hdr.Name] is
    [NameInArchive], [f.Mode()] is [Mode], and [Content] is what [f.Open()]
    delivers. *)
Record File : Type := {
  NameInArchive : string;
  Typeflag : ascii;
  Linkname : string;
  Mode : N;
  Content : list byte
}.

(** The compressed-archive codec ([archiver.CompressedArchive] with Zstd and
    Tar) is a library outside the package: [encode] is what [Archive] writes
    for a file list, [decode] the entries [Extract] reads from a stream
    before it ends ([None]) or breaks ([Some err]); [no_data] is the stream
    of a writer that was closed without a write, and [truncated written f]
    the stream of a writer into which [Archive] wrote the entries [written]
    and then failed on the entry [f]. *)
Class Codec : Type := {
  stream : Type;
  no_data : stream;
  encode : list File -> stream;
  truncated : list File -> File -> stream;
  decode : stream -> list File * option error
}.

(** The codec round-trips entries faithfully. *)
Class FaithfulCodec (codec : Codec) : Prop :=
  decode_encode : forall files, decode (encode files) = (files, None).

(** ** The local file system *)

(** Names map to directories, files (by inode, so that two names may share
    one file) and symbolic links.  The root [[]] is always a directory.
    Symbolic links are never followed: an operation that meets one where it
    needs a directory or a file fails.  Permission bits are recorded as
    given (no umask) and not enforced. *)
Inductive node : Type :=
| NDir (perm : N)
| NFile (ino : nat)
| NSymlink (target : string).

Record inode : Type := { perm : N; content : list byte }.

Record FS : Type := {
  names : gmap path node;
  inodes : gmap nat inode;
  next_ino : nat
}.

Definition is_dir (fs : FS) (p : path) : bool :=
  match p with
  | [] => true
  | _ => match names fs !! p with Some (NDir _) => true | _ => false end
  end.

(** What [os.Lstat] and a read of the file would show at a name. *)
Inductive vnode : Type :=
| VDir (perm : N)
| VFile (perm : N) (content : list byte)
| VSymlink (target : string).

Definition stat (fs : FS) (p : path) : option vnode :=
  match names fs !! p with
  | Some (NDir m) => Some (VDir m)
  | Some (NFile i) =>
      match inodes fs !! i with
      | Some f => Some (VFile (perm f) (content f))
      | None => None
      end
  | Some (NSymlink t) => Some (VSymlink t)
  | None => None
  end.

Definition ENOENT : string := "no such file or directory".
Definition ENOTDIR : string := "not a directory".
Definition EISDIR : string := "is a directory".
Definition EEXIST : string := "file exists".
Definition EPERM : string := "operation not permitted".
Definition ELOOP : string := "too many levels of symbolic links".

(** [os.MkdirAll]: walk down from [pre], making every missing directory;
    an existing directory is kept as it is. *)
Fixpoint mkdir_all (nm : gmap path node) (pre rest : path) (m : N)
  : gmap path node * option error :=
  match rest with
  | [] => (nm, None)
  | c :: rest' =>
      let q := pre ++ [c] in
      match nm !! q with
      | Some (NDir _) => mkdir_all nm q rest' m
      | None => mkdir_all (<[q := NDir m]> nm) q rest' m
      | Some _ => (nm, Some (PathError "mkdir" ENOTDIR))
      end
  end.

Definition fs_MkdirAll (fs : FS) (p : path) (m : N) : FS * option error :=
  let '(nm, err) := mkdir_all (names fs) [] p m in
  ({| names := nm; inodes := inodes fs; next_ino := next_ino fs |}, err).

(** The parent of a name to be created must be a directory. *)
Definition parent_error (fs : FS) (op : string) (p : path) : option error :=
  if is_dir fs (filepath_Dir p) then None
  else match names fs !! filepath_Dir p with
       | None => Some (PathError op ENOENT)
       | Some _ => Some (PathError op ENOTDIR)
       end.

(** [os.Create]: [O_RDWR|O_CREATE|O_TRUNC] with mode [0666]; the handle is
    the inode. *)
Definition fs_Create (fs : FS) (p : path) : FS * (error + nat) :=
  match p with
  | [] => (fs, inl (PathError "open" EISDIR))
  | _ =>
      match parent_error fs "open" p with
      | Some e => (fs, inl e)
      | None =>
          match names fs !! p with
          | Some (NDir _) => (fs, inl (PathError "open" EISDIR))
          | Some (NSymlink _) => (fs, inl (PathError "open" ELOOP))
          | Some (NFile i) =>
              let f := {| perm := default 438%N (perm <$> inodes fs !! i);
                          content := [] |} in
              ({| names := names fs; inodes := <[i := f]> (inodes fs);
                  next_ino := next_ino fs |}, inr i)
          | None =>
              let i := next_ino fs in
              ({| names := <[p := NFile i]> (names fs);
                  inodes := <[i := {| perm := 438%N; content := [] |}]> (inodes fs);
                  next_ino := S i |}, inr i)
          end
      end
  end.

(** [Chmod] and a write through an open [os.File] handle. *)
Definition fs_Chmod (fs : FS) (i : nat) (m : N) : FS :=
  {| names := names fs;
     inodes := alter (fun f => {| perm := m; content := content f |}) i (inodes fs);
     next_ino := next_ino fs |}.

Definition fs_Write (fs : FS) (i : nat) (data : list byte) : FS :=
  {| names := names fs;
     inodes := alter (fun f => {| perm := perm f; content := content f ++ data |}) i (inodes fs);
     next_ino := next_ino fs |}.

(** [os.Symlink(target, p)]. *)
Definition fs_Symlink (fs : FS) (target : string) (p : path) : FS * option error :=
  match p with
  | [] => (fs, Some (PathError "symlink" EEXIST))
  | _ =>
      match parent_error fs "symlink" p with
      | Some e => (fs, Some e)
      | None =>
          match names fs !! p with
          | Some _ => (fs, Some (PathError "symlink" EEXIST))
          | None =>
              ({| names := <[p := NSymlink target]> (names fs);
                  inodes := inodes fs; next_ino := next_ino fs |}, None)
          end
      end
  end.

(** [os.Link(old, new)]: [new] becomes another name of the file [old]. *)
Definition fs_Link (fs : FS) (old new : path) : FS * option error :=
  match names fs !! old with
  | None => (fs, Some (PathError "link" ENOENT))
  | Some (NDir _) => (fs, Some (PathError "link" EPERM))
  | Some n =>
      match new with
      | [] => (fs, Some (PathError "link" EEXIST))
      | _ =>
          match parent_error fs "link" new with
          | Some e => (fs, Some e)
          | None =>
              match names fs !! new with
              | Some _ => (fs, Some (PathError "link" EEXIST))
              | None =>
                  ({| names := <[new := n]> (names fs);
                      inodes := inodes fs; next_ino := next_ino fs |}, None)
              end
          end
      end
  end.

(** ** The object store and the world *)

Record ObjectAttrs : Type := {
  Bucket : string;
  Name : string;
  Updated : Z;
  ContentType : string;
  CacheControl : string
}.

(** [t.After(u)] on instants. *)
Definition Time_After (t u : Z) : bool := Z.ltb u t.

Definition contentType : string := "application/x-zstd-compressed-tar".
Definition cacheControl : string := "public,max-age=600".

(** Every call that leaves the process, in the order it is issued. *)
Inductive Event : Type :=
| EvAttrs (bucket key : string)
| EvNewWriter (bucket key : string)
| EvFilesFromDisk (dir : string)
| EvArchiveEntry (name : string)
| EvCloseWriter (bucket key : string)
| EvObjects (bucket prefix : string)
| EvNewReader (bucket name : string)
| EvCloseReader (bucket name : string)
| EvMkdirAll (p : path) (m : N)
| EvCreate (p : path)
| EvChmod (p : path) (m : N)
| EvOpenEntry (name : string)
| EvCopy (p : path) (data : list byte)
| EvCloseFile (p : path)
| EvSymlink (target : string) (p : path)
| EvLink (old new : path).

Module SaveRequest.
Record t : Type := { Bucket : string; Key : string; Dir : string }.
End SaveRequest.

Module RestoreRequest.
Record t : Type := { Bucket : string; Keys : list string; Dir : string }.
End RestoreRequest.

Section Model.
Context {codec : Codec}.

Record Object : Type := { attrs : ObjectAttrs; data : stream }.

(** The objects of the store, in the order a listing enumerates them. *)
Definition Store : Type := list Object.

(** What the process cannot control: which calls fail for reasons of their
    own ([faults]), the platform ([windows] is [runtime.GOOS == "windows"]),
    the store's clock, and what other processes do to the store between the
    probe of a [Save] and its commit. *)
Record Env : Type := {
  faults : Event -> option error;
  windows : bool;
  now : Z;
  concurrent : Store -> Store
}.

Record World : Type := {
  env : Env;
  fs : FS;
  store : Store;
  log : list Event
}.

(** *** The state monad *)

Definition M (A : Type) : Type := World -> A * World.

Definition ret {A : Type} (a : A) : M A := fun w => (a, w).

Definition bind {A B : Type} (m : M A) (k : A -> M B) : M B :=
  fun w => let '(a, w') := m w in k a w'.

Definition set_fs (f : FS -> FS) : M unit :=
  fun w => (tt, {| env := env w; fs := f (fs w); store := store w; log := log w |}).

Definition set_store (f : Store -> Store) : M unit :=
  fun w => (tt, {| env := env w; fs := fs w; store := f (store w); log := log w |}).

(** Issue a call: it is logged, and the environment may fail it. *)
Definition emit (ev : Event) : M (option error) :=
  fun w => (faults (env w) ev,
            {| env := env w; fs := fs w; store := store w; log := log w ++ [ev] |}).

Definition get {A : Type} (f : World -> A) : M A := fun w => (f w, w).

End Model.

Declare Scope go_scope.
Delimit Scope go_scope with go.
Notation "x <- m ;; k" := (bind m (fun x => k))
  (at level 100, m at next level, right associativity) : go_scope.
Local Open Scope go_scope.

Section Operations.
Context {codec : Codec}.

(** *** Store calls *)

(** The store is outside the package.  These are the answers of the
    [cloud.google.com/go/storage] client the package relies on: an object
    is found by bucket and name, a listing yields the objects of the bucket
    whose name starts with the prefix, and a conditional write is committed
    or rejected when the writer is closed. *)

Definition same_object (bucket key : string) (o : Object) : bool :=
  String.eqb (Bucket (attrs o)) bucket && String.eqb (Name (attrs o)) key.

Definition has_prefix (bucket key : string) (o : Object) : bool :=
  String.eqb (Bucket (attrs o)) bucket && String.prefix key (Name (attrs o)).

Definition find_object (st : Store) (bucket key : string) : option Object :=
  List.find (same_object bucket key) st.

(** [Bucket(bucket).Object(key).Attrs(ctx)]. *)
Definition Object_Attrs (bucket key : string) : M (option ObjectAttrs * option error) :=
  f <- emit (EvAttrs bucket key) ;;
  match f with
  | Some e => ret (None, Some e)
  | None =>
      st <- get store ;;
      match find_object st bucket key with
      | Some o => ret (Some (attrs o), None)
      | None => ret (None, Some ErrObjectNotExist)
      end
  end.

(** [Bucket(bucket).Objects(ctx, &storage.Query{Prefix: key})]: what the
    successive calls of [it.Next()] return before [iterator.Done]. *)
Definition Bucket_Objects (bucket key : string) : M (list (ObjectAttrs + error)) :=
  f <- emit (EvObjects bucket key) ;;
  match f with
  | Some e => ret [inr e]
  | None =>
      st <- get store ;;
      ret (map (fun o => inl (attrs o)) (List.filter (has_prefix bucket key) st))
  end.

(** A [*storage.Writer] with the fields [Save] sets. *)
Record Writer : Type := {
  wBucket : string;
  wKey : string;
  wDoesNotExist : bool;
  ChunkSize : Z;
  wContentType : string;
  wCacheControl : string;
  wData : stream
}.

Definition NewWriter (bucket key : string) (dne : bool) : M Writer :=
  _ <- emit (EvNewWriter bucket key) ;;
  ret {| wBucket := bucket; wKey := key; wDoesNotExist := dne;
         ChunkSize := 0; wContentType := EmptyString;
         wCacheControl := EmptyString; wData := no_data |}.

Definition new_object (gw : Writer) (t : Z) : Object :=
  {| attrs := {| Bucket := wBucket gw; Name := wKey gw; Updated := t;
                 ContentType := wContentType gw;
                 CacheControl := wCacheControl gw |};
     data := wData gw |}.

(** [gcsw.Close()] commits the upload.  With the [DoesNotExist] condition
    the store rejects the commit when the name has been taken meanwhile. *)
Definition Writer_Close (gw : Writer) : M (option error) :=
  c <- get (fun w => concurrent (env w)) ;;
  _ <- set_store c ;;
  f <- emit (EvCloseWriter (wBucket gw) (wKey gw)) ;;
  match f with
  | Some e => ret (Some e)
  | None =>
      st <- get store ;;
      t <- get (fun w => now (env w)) ;;
      match find_object st (wBucket gw) (wKey gw) with
      | Some _ =>
          if wDoesNotExist gw then ret (Some (googleapiError StatusPreconditionFailed))
          else
            _ <- set_store (fun st =>
                   List.filter (fun o => negb (same_object (wBucket gw) (wKey gw) o)) st
                   ++ [new_object gw t]) ;;
            ret None
      | None =>
          _ <- set_store (fun st => st ++ [new_object gw t]) ;;
          ret None
      end
  end.

(** [Object(name).NewReader(ctx)] and [gcsr.Close()]. *)
Definition NewReader (bucket name : string) : M (option stream * option error) :=
  f <- emit (EvNewReader bucket name) ;;
  match f with
  | Some e => ret (None, Some e)
  | None =>
      st <- get store ;;
      match find_object st bucket name with
      | Some o => ret (Some (data o), None)
      | None => ret (None, Some ErrObjectNotExist)
      end
  end.

Definition Reader_Close (bucket name : string) : M (option error) :=
  emit (EvCloseReader bucket name).

(** *** File-system calls *)

Definition os_MkdirAll (p : path) (m : N) : M (option error) :=
  f <- emit (EvMkdirAll p m) ;;
  match f with
  | Some e => ret (Some e)
  | None =>
      cur <- get fs ;;
      let '(fs', err) := fs_MkdirAll cur p m in
      _ <- set_fs (fun _ => fs') ;;
      ret err
  end.

Definition os_Create (p : path) : M (option nat * option error) :=
  f <- emit (EvCreate p) ;;
  match f with
  | Some e => ret (None, Some e)
  | None =>
      cur <- get fs ;;
      match fs_Create cur p with
      | (fs', inr i) => _ <- set_fs (fun _ => fs') ;; ret (Some i, None)
      | (_, inl e) => ret (None, Some e)
      end
  end.

Definition File_Chmod (p : path) (out : nat) (m : N) : M (option error) :=
  f <- emit (EvChmod p m) ;;
  match f with
  | Some e => ret (Some e)
  | None => _ <- set_fs (fun cur => fs_Chmod cur out m) ;; ret None
  end.

(** [f.Open()] on an archive entry. *)
Definition File_Open (f : File) : M (option (list byte) * option error) :=
  e <- emit (EvOpenEntry (NameInArchive f)) ;;
  match e with
  | Some e => ret (None, Some e)
  | None => ret (Some (Content f), None)
  end.

(** [io.Copy(out, in)]. *)
Definition io_Copy (p : path) (out : nat) (data : list byte) : M (option error) :=
  f <- emit (EvCopy p data) ;;
  match f with
  | Some e => ret (Some e)
  | None => _ <- set_fs (fun cur => fs_Write cur out data) ;; ret None
  end.

Definition File_Close (p : path) : M unit :=
  _ <- emit (EvCloseFile p) ;; ret tt.

Definition os_Symlink (target : string) (p : path) : M (option error) :=
  f <- emit (EvSymlink target p) ;;
  match f with
  | Some e => ret (Some e)
  | None =>
      cur <- get fs ;;
      let '(fs', err) := fs_Symlink cur target p in
      _ <- set_fs (fun _ => fs') ;;
      ret err
  end.

Definition os_Link (old new : path) : M (option error) :=
  f <- emit (EvLink old new) ;;
  match f with
  | Some e => ret (Some e)
  | None =>
      cur <- get fs ;;
      let '(fs', err) := fs_Link cur old new in
      _ <- set_fs (fun _ => fs') ;;
      ret err
  end.

End Operations.

Section Cacher.
Context {codec : Codec}.

(** The deferred close of [Save], [Restore] and [hashOne]: a close error is
    reported, after the pending error when there is one. *)
Definition deferred_close (both only : string) (retErr cerr : option error)
  : option error :=
  match cerr with
  | None => retErr
  | Some ce =>
      match retErr with
      | Some re => Some (fmt_Errorf both [AErr re; AErr ce])
      | None => Some (fmt_Errorf only [AErr ce])
      end
  end.

(** ** Restore *)

(** The inner [for] loop of [Restore] over one iterator: [it.Next()] until
    [iterator.Done]; a candidate replaces the running match when there is
    none yet or when it was updated after it. *)
Fixpoint scan (it : list (ObjectAttrs + error)) (best : option ObjectAttrs)
  : option ObjectAttrs * option error :=
  match it with
  | [] => (best, None)
  | inr err :: _ => (best, Some err)
  | inl a :: it' =>
      match best with
      | None => scan it' (Some a)
      | Some m => if Time_After (Updated a) (Updated m) then scan it' (Some a)
                  else scan it' best
      end
  end.

(** The outer loop, over the keys in order. *)
Fixpoint find_match (bucket : string) (keys : list string) (best : option ObjectAttrs)
  : M (option ObjectAttrs * option error) :=
  match keys with
  | [] => ret (best, None)
  | key :: keys' =>
      it <- Bucket_Objects bucket key ;;
      match scan it best with
      | (_, Some err) =>
          ret (None, Some (fmt_Errorf "failed to list %s: %w" [AStr key; AErr err]))
      | (best', None) => find_match bucket keys' best'
      end
  end.

Definition is_flag (t c : ascii) : bool := Ascii.eqb t c.

Definition show (p : path) : fmtarg := AStr (join_slash p).

(** [in, err := f.Open()] and [io.Copy(out, in)]. *)
Definition copy_entry (fpath : path) (out : nat) (f : File) : M (option error) :=
  r <- File_Open f ;;
  match r with
  | (_, Some e) => ret (Some (fmt_Errorf "%s: opening file: %v" [show fpath; AErr e]))
  | (None, None) => ret None
  | (Some bytes, None) =>
      err <- io_Copy fpath out bytes ;;
      match err with
      | Some e => ret (Some (fmt_Errorf "%s: writing file: %v" [show fpath; AErr e]))
      | None => ret None
      end
  end.

(** The regular-file case once [os.Create] has succeeded: [out.Chmod], whose
    failure is passed over on windows, then the copy; [out.Close()] is
    deferred. *)
Definition fill_regular (fpath : path) (out : nat) (f : File) : M (option error) :=
  err <- File_Chmod fpath out (Mode f) ;;
  win <- get (fun w => windows (env w)) ;;
  res <- match err, win with
         | Some e, false =>
             ret (Some (fmt_Errorf "%s: changing file mode: %v" [show fpath; AErr e]))
         | _, _ => copy_entry fpath out f
         end ;;
  _ <- File_Close fpath ;;
  ret res.

Definition make_parent (fpath : path) (k : M (option error)) : M (option error) :=
  err <- os_MkdirAll (filepath_Dir fpath) 493 ;;
  match err with
  | Some e =>
      ret (Some (fmt_Errorf "failed to make directory %s: %w"
                   [show (filepath_Dir fpath); AErr e]))
  | None => k
  end.

(** The [handler] closure of [Restore], called on each entry of the
    archive; [493] is [0755].  Every entry of a tar stream carries a
    [*tar.Header], so the type assertion the closure starts with holds. *)
Definition handler (dir : string) (f : File) : M (option error) :=
  let fpath := filepath_Join (elements dir) (elements (NameInArchive f)) in
  let t := Typeflag f in
  if is_flag t TypeDir then
    err <- os_MkdirAll fpath 493 ;;
    match err with
    | Some e =>
        ret (Some (fmt_Errorf "failed to make directory %s: %w" [show fpath; AErr e]))
    | None => ret None
    end
  else if is_flag t TypeReg || is_flag t TypeRegA || is_flag t TypeChar
          || is_flag t TypeBlock || is_flag t TypeFifo then
    make_parent fpath (
      r <- os_Create fpath ;;
      match r with
      | (_, Some e) =>
          ret (Some (fmt_Errorf "%s: creating new file: %v" [show fpath; AErr e]))
      | (None, None) => ret None
      | (Some out, None) => fill_regular fpath out f
      end)
  else if is_flag t TypeSymlink then
    make_parent fpath (
      err <- os_Symlink (Linkname f) fpath ;;
      match err with
      | Some e =>
          ret (Some (fmt_Errorf "%s: making symbolic link for: %v" [show fpath; AErr e]))
      | None => ret None
      end)
  else if is_flag t TypeLink then
    make_parent fpath (
      err <- os_Link (filepath_Join fpath (elements (Linkname f))) fpath ;;
      match err with
      | Some e =>
          ret (Some (fmt_Errorf "%s: making symbolic link for: %v" [show fpath; AErr e]))
      | None => ret None
      end)
  else if is_flag t TypeXGlobalHeader then ret None
  else
    ret (Some (fmt_Errorf "%s: unknown type flag: %c" [AStr (NameInArchive f); AChar t])).

Fixpoint for_each (files : list File) (h : File -> M (option error)) : M (option error) :=
  match files with
  | [] => ret None
  | f :: files' =>
      err <- h f ;;
      match err with
      | Some e => ret (Some e)
      | None => for_each files' h
      end
  end.

(** Modelled from the spec: [CompressedArchive.Extract] belongs to the
    archiver library, which is not part of the repository.  It calls the
    handler on every entry of the stream in archive order, stops at the
    first entry whose handler fails and returns that failure; a stream that
    breaks is reported after its readable entries. *)
Definition Extract (r : stream) (h : File -> M (option error)) : M (option error) :=
  let '(files, derr) := decode r in
  err <- for_each files h ;;
  match err with
  | Some e => ret (Some e)
  | None => ret derr
  end.

(** [Cacher.Restore]. *)
Definition Restore (i : option RestoreRequest.t) : M (option error) :=
  match i with
  | None => ret (Some (fmt_Errorf "missing cache options" []))
  | Some i =>
      let bucket := RestoreRequest.Bucket i in
      if String.eqb bucket EmptyString then ret (Some (fmt_Errorf "missing bucket" []))
      else
      let dir := RestoreRequest.Dir i in
      if String.eqb dir EmptyString then ret (Some (fmt_Errorf "missing directory" []))
      else
      let keys := RestoreRequest.Keys i in
      if Nat.ltb (length keys) 1 then
        ret (Some (fmt_Errorf "expected at least one cache key" []))
      else
      r <- find_match bucket keys None ;;
      match r with
      | (_, Some e) => ret (Some e)
      | (None, None) =>
          ret (Some (fmt_Errorf "failed to find cached objects among keys %q" [AStrs keys]))
      | (Some m, None) =>
          err <- os_MkdirAll (to_path dir) 493 ;;
          match err with
          | Some e => ret (Some (fmt_Errorf "failed to make target directory: %w" [AErr e]))
          | None =>
              r <- NewReader bucket (Name m) ;;
              match r with
              | (_, Some e) =>
                  ret (Some (fmt_Errorf "failed to create object reader: %w" [AErr e]))
              | (None, None) => ret None
              | (Some gcsr, None) =>
                  (* format.Extract(ctx, gcsr, fileList, handler): the
                     result is not assigned *)
                  _ <- Extract gcsr (handler dir) ;;
                  let retErr : option error := None in
                  cerr <- Reader_Close bucket (Name m) ;;
                  ret (deferred_close "%v: failed to close gcs reader: %w"
                         "failed to close gcs reader: %w" retErr cerr)
              end
          end
      end
  end.

(** ** Save *)

Fixpoint strip_root (root p : path) : option path :=
  match root, p with
  | [], _ => Some p
  | r :: root', c :: p' => if String.eqb r c then strip_root root' p' else None
  | _ :: _, [] => None
  end.

(** The archive entry of a node of the tree under the name [name]: the
    header [tar.FileInfoHeader] makes for it; [511] is [0777]. *)
Definition entry_of (cur : FS) (name : string) (n : node) : option File :=
  match n with
  | NDir m =>
      Some {| NameInArchive := name; Typeflag := TypeDir;
              Linkname := EmptyString; Mode := m; Content := [] |}
  | NFile i =>
      match inodes cur !! i with
      | Some f =>
          Some {| NameInArchive := name; Typeflag := TypeReg;
                  Linkname := EmptyString; Mode := perm f; Content := content f |}
      | None => None
      end
  | NSymlink target =>
      Some {| NameInArchive := name; Typeflag := TypeSymlink;
              Linkname := target; Mode := 511; Content := [] |}
  end.

(** [strings.HasSuffix(s, "/")]. *)
Fixpoint HasSuffix_slash (s : string) : bool :=
  match s with
  | EmptyString => false
  | String c EmptyString => Ascii.eqb c slash
  | String _ s' => HasSuffix_slash s'
  end.

(** [filepath.Base]: the last element of the name, trailing separators
    aside. *)
Definition filepath_Base (s : string) : string :=
  match s with
  | EmptyString => "."
  | _ =>
      match List.filter (fun c => negb (String.eqb c EmptyString)) (elements s) with
      | [] => "/"
      | l => List.last l EmptyString
      end
  end.

(** The folder of the archive that the walk of [dir] fills when the name in
    the archive is left empty, as [Save] leaves it: the base name of [dir],
    and the root of the archive when [dir] ends in a separator. *)
Definition root_in_archive (dir : string) : list string :=
  if HasSuffix_slash dir then [] else [filepath_Base dir].

(** [path.Join] of that folder and the name relative to [dir]. *)
Definition name_in_archive (dir : string) (rel : path) : string :=
  join_slash (filepath_Clean (root_in_archive dir ++ rel)).

(** The order in which [filepath.WalkDir] visits the names: a directory
    before what it holds, the names of one directory in lexical order. *)
Fixpoint path_leb (p q : path) : bool :=
  match p, q with
  | [], _ => true
  | _ :: _, [] => false
  | a :: p', b :: q' =>
      match String.compare a b with
      | Lt => true
      | Gt => false
      | Eq => path_leb p' q'
      end
  end.

Definition walk_order (a b : path * node) : Prop := path_leb (fst a) (fst b) = true.

#[local] Instance walk_order_dec : RelDecision walk_order :=
  fun a b => decide (path_leb (fst a) (fst b) = true).

(** The names of the file system in the order of the walk. *)
Definition walk_list (cur : FS) : list (path * node) :=
  merge_sort walk_order (map_to_list (names cur)).

(** The file that the walk of [dir] yields for the node [n] it finds at
    [rel] under [dir].  Nothing is yielded under an empty name: that is the
    root when [dir] ends in a separator, whose contents are enumerated
    without the directory itself. *)
Definition walk_entry (cur : FS) (dir : string) (rel : path) (n : node) : option File :=
  let nameInArchive := name_in_archive dir rel in
  if String.eqb nameInArchive EmptyString then None
  else entry_of cur nameInArchive n.

(** The files of the walk of [dir]: the root and every name under it. *)
Definition walk (cur : FS) (dir : string) : list File :=
  omap (fun pn : path * node =>
          match strip_root (to_path dir) (fst pn) with
          | Some rel => walk_entry cur dir rel (snd pn)
          | None => None
          end)
       (walk_list cur).

(** Modelled from the spec: [archiver.FilesFromDisk] belongs to the archiver
    library (the module pins v4.0.0-alpha.7), which is not part of the
    repository.  The spec says that the file list is derived by walking the
    source directory; the rest is the behaviour of the library for the map
    [{dir: ""}] that [Save] passes.  It walks [dir] with [filepath.WalkDir]
    and yields the root and every file, directory and symbolic link under it
    (links are not followed), each with its mode, content and link target,
    named by the base name of [dir] joined to its path relative to [dir].
    When [dir] ends in a separator the names are relative to [dir] alone
    and the root itself is left out.  This version does not pass on the
    error of the walk: a walk that fails at the root yields no files, and
    the error returned is always [nil]. *)
Definition FilesFromDisk (dir : string) : M (list File * option error) :=
  f <- emit (EvFilesFromDisk dir) ;;
  match f with
  | Some _ => ret ([], None)
  | None =>
      cur <- get fs ;;
      ret (walk cur dir, None)
  end.

Definition with_data (gcsw : Writer) (d : stream) : Writer :=
  {| wBucket := wBucket gcsw; wKey := wKey gcsw;
     wDoesNotExist := wDoesNotExist gcsw; ChunkSize := ChunkSize gcsw;
     wContentType := wContentType gcsw; wCacheControl := wCacheControl gcsw;
     wData := d |}.

(** The loop of [Tar.Archive]: the entries are written to the stream one
    after the other (the header, then the content read from the file); the
    first entry that fails ends the loop.  [written] are the entries written
    in full so far. *)
Fixpoint write_entries (files written : list File)
  : M (list File * option (File * error)) :=
  match files with
  | [] => ret (written, None)
  | f :: files' =>
      e <- emit (EvArchiveEntry (NameInArchive f)) ;;
      match e with
      | Some err => ret (written, Some (f, err))
      | None => write_entries files' (written ++ [f])
      end
  end.

(** Modelled from the spec: [format.Archive(ctx, gcsw, files)] belongs to
    the archiver library.  It streams the entries into the writer: when all
    are written the writer holds the encoded file list; when an entry fails
    the error is returned and the writer keeps what was written before. *)
Definition Archive (gcsw : Writer) (files : list File) : M (Writer * option error) :=
  r <- write_entries files [] ;;
  match r with
  | (written, Some (f, err)) => ret (with_data gcsw (truncated written f), Some err)
  | (_, None) => ret (with_data gcsw (encode files), None)
  end.

(** The rest of [Save] once the probe found nothing: the writer is created
    with the [DoesNotExist] condition, the file list is archived into it. *)
Definition upload_body (bucket key dir : string) : M (Writer * option error) :=
  let dne := true in
  gcsw <- NewWriter bucket key dne ;;
  let gcsw := {| wBucket := wBucket gcsw; wKey := wKey gcsw;
                 wDoesNotExist := wDoesNotExist gcsw; ChunkSize := 128000000;
                 wContentType := contentType; wCacheControl := cacheControl;
                 wData := wData gcsw |} in
  r <- FilesFromDisk dir ;;
  match r with
  | (_, Some e) => ret (gcsw, Some e)
  | (files, None) => Archive gcsw files
  end.

(** The body followed by the deferred [gcsw.Close()]. *)
Definition upload (bucket key dir : string) : M (option error) :=
  body <- upload_body bucket key dir ;;
  cerr <- Writer_Close (fst body) ;;
  ret (deferred_close "%v: failed to close gcs writer: %w"
         "failed to close gcs writer: %w" (snd body) cerr).

(** [Cacher.Save]. *)
Definition Save (i : option SaveRequest.t) : M (option error) :=
  match i with
  | None => ret (Some (fmt_Errorf "missing cache options" []))
  | Some i =>
      let bucket := SaveRequest.Bucket i in
      if String.eqb bucket EmptyString then ret (Some (fmt_Errorf "missing bucket" []))
      else
      let dir := SaveRequest.Dir i in
      if String.eqb dir EmptyString then ret (Some (fmt_Errorf "missing directory" []))
      else
      let key := SaveRequest.Key i in
      if String.eqb key EmptyString then ret (Some (fmt_Errorf "missing key" []))
      else
      r <- Object_Attrs bucket key ;;
      let rest :=
        match fst r with
        | Some _ => ret None
        | None => upload bucket key dir
        end in
      match snd r with
      | Some e =>
          if negb (is_ErrObjectNotExist e) then
            ret (Some (fmt_Errorf "failed to check if cached object exists: %w" [AErr e]))
          else rest
      | None => rest
      end
  end.

End Cacher.

(** ** HashFiles *)

(** What [os.Open] gives for a name, and what the handle then answers to
    [Stat], to the reads of [io.Copy] (the bytes delivered, and the error
    that ended them if any) and to [Close]. *)
Record OpenFile : Type := {
  Stat : error + bool;
  Read : list byte * option error;
  Close : option error
}.

Definition Disk : Type := string -> error + OpenFile.

(** The BLAKE2b hash of [golang.org/x/crypto/blake2b] with the digest size
    [HashFiles] asks for: [Sum128] is the digest of everything written. *)
Class Blake2b : Type := {
  Sum128 : list byte -> list byte;
  Sum128_size : forall written, length (Sum128 written) = 16
}.

(** A [hash.Hash] in use: the bytes written so far. *)
Definition DigestState : Type := list byte.

(** [blake2b.New(size, key)] refuses a size outside 1..64 and a key longer
    than 64 bytes. *)
Definition blake2b_New (size : nat) (key : list byte) : option DigestState * option error :=
  if (Nat.ltb size 1 || Nat.ltb 64 size)%bool then (None, Some (ioError "blake2b: invalid hash size"))
  else if Nat.ltb 64 (length key) then (None, Some (ioError "blake2b: invalid key size"))
  else (Some [], None).

Definition hex_digit (n : N) : ascii :=
  match n with
  | 0%N => "0" | 1%N => "1" | 2%N => "2" | 3%N => "3" | 4%N => "4"
  | 5%N => "5" | 6%N => "6" | 7%N => "7" | 8%N => "8" | 9%N => "9"
  | 10%N => "a" | 11%N => "b" | 12%N => "c" | 13%N => "d" | 14%N => "e"
  | _ => "f"
  end%char.

(** [fmt.Sprintf("%x", dig)]. *)
Fixpoint hex (dig : list byte) : string :=
  match dig with
  | [] => EmptyString
  | b :: dig' =>
      let n := Byte.to_N b in
      String (hex_digit (N.div n 16)) (String (hex_digit (N.modulo n 16)) (hex dig'))
  end.

(** The [hashOne] closure. *)
Definition hashOne (disk : Disk) (name : string) (h : DigestState)
  : DigestState * option error :=
  match disk name with
  | inl e => (h, Some (fmt_Errorf "failed to open file: %w" [AErr e]))
  | inr f =>
      let '(h', retErr) :=
        match Stat f with
        | inl e => (h, Some (fmt_Errorf "failed to stat file: %w" [AErr e]))
        | inr true => (h, None)
        | inr false =>
            match Read f with
            | (bytes, Some e) => (h ++ bytes, Some (fmt_Errorf "failed to hash: %w" [AErr e]))
            | (bytes, None) => (h ++ bytes, None)
            end
        end in
      (h', deferred_close "%v: failed to close file: %w" "failed to close file: %w"
             retErr (Close f))
  end.

Fixpoint hash_all (disk : Disk) (files : list string) (h : DigestState)
  : DigestState * option error :=
  match files with
  | [] => (h, None)
  | name :: files' =>
      match hashOne disk name h with
      | (_, Some err) => (h, Some (fmt_Errorf "failed to hash %s: %w" [AStr name; AErr err]))
      | (h', None) => hash_all disk files' h'
      end
  end.

(** [Cacher.HashFiles]. *)
Definition HashFiles `{Blake2b} (disk : Disk) (files : list string) : string * option error :=
  match blake2b_New 16 [] with
  | (_, Some err) => (EmptyString, Some (fmt_Errorf "failed to create hash: %w" [AErr err]))
  | (None, None) => (EmptyString, None)
  | (Some h, None) =>
      match hash_all disk files h with
      | (_, Some err) => (EmptyString, Some err)
      | (h', None) => (hex (Sum128 h'), None)
      end
  end.


(** * Properties *)

Section Resolver.
Context {codec : Codec}.

Definition add_log (w : World) (evs : list Event) : World :=
  {| env := env w; fs := fs w; store := store w; log := log w ++ evs |}.

(** Everything a [Restore] sees listed: for each key in order, the objects
    of the bucket whose name starts with the key, in the store's order. *)
Definition candidates (st : Store) (bucket : string) (keys : list string)
  : list ObjectAttrs :=
  flat_map (fun key => map attrs (List.filter (has_prefix bucket key) st)) keys.

(** The running match after a run of successful [it.Next()] calls. *)
Definition pick (best : option ObjectAttrs) (l : list ObjectAttrs) : option ObjectAttrs :=
  fold_left (fun b a =>
               match b with
               | None => Some a
               | Some m => if Time_After (Updated a) (Updated m) then Some a else b
               end) l best.

Lemma scan_pick (l : list ObjectAttrs) (best : option ObjectAttrs) :
  scan (map inl l) best = (pick best l, None).
Proof.
  revert best. induction l as [|a l IH]; intros best; simpl; [reflexivity|].
  destruct best as [m|]; [destruct (Time_After _ _)|]; apply IH.
Qed.

Lemma pick_app (best : option ObjectAttrs) (l1 l2 : list ObjectAttrs) :
  pick best (l1 ++ l2) = pick (pick best l1) l2.
Proof. apply fold_left_app. Qed.

Lemma add_log_add_log (w : World) (e1 e2 : list Event) :
  add_log (add_log w e1) e2 = add_log w (e1 ++ e2).
Proof. unfold add_log; simpl. by rewrite app_assoc. Qed.

Lemma add_log_nil (w : World) : add_log w [] = w.
Proof. destruct w; unfold add_log; simpl. by rewrite app_nil_r. Qed.

Lemma find_match_pick (bucket : string) (keys : list string) :
  forall (best : option ObjectAttrs) (w : World),
    (forall k, In k keys -> faults (env w) (EvObjects bucket k) = None) ->
    find_match bucket keys best w =
      ((pick best (candidates (store w) bucket keys), None),
       add_log w (map (EvObjects bucket) keys)).
Proof.
  induction keys as [|k keys IH]; intros best w Hq; simpl.
  - unfold ret. by rewrite add_log_nil.
  - unfold bind, Bucket_Objects, bind, emit at 1. simpl.
    rewrite (Hq k (or_introl eq_refl)). simpl.
    rewrite <- (map_map attrs inl), scan_pick.
    fold (add_log w [EvObjects bucket k]).
    rewrite IH by (intros k' Hk'; apply Hq; by right).
    simpl. rewrite add_log_add_log. unfold candidates. simpl.
    by rewrite pick_app.
Qed.

Lemma pick_Some (l : list ObjectAttrs) :
  forall m0 m, pick (Some m0) l = Some m ->
    (m = m0 /\ forall a, In a l -> (Updated a <= Updated m0)%Z) \/
    (exists l1 l2, l = l1 ++ m :: l2 /\ (Updated m0 < Updated m)%Z /\
       (forall a, In a l1 -> (Updated a < Updated m)%Z) /\
       (forall a, In a l2 -> (Updated a <= Updated m)%Z)).
Proof.
  induction l as [|a l IH]; intros m0 m H; simpl in H.
  - left. split; [congruence|]. intros a [].
  - unfold Time_After in H. revert H.
    destruct (Z.ltb_spec (Updated m0) (Updated a)) as [Hlt|Hge]; intros H.
    + right. destruct (IH _ _ H) as [[-> Hall]|(l1 & l2 & -> & Hlt' & H1 & H2)].
      * exists [], l. repeat split; auto. intros ? [].
      * exists (a :: l1), l2. repeat split; auto; [lia|].
        intros b [<-|Hb]; [lia|]. by apply H1.
    + destruct (IH _ _ H) as [[-> Hall]|(l1 & l2 & -> & Hlt' & H1 & H2)].
      * left. split; auto. intros b [<-|Hb]; auto.
      * right. exists (a :: l1), l2. repeat split; auto.
        intros b [<-|Hb]; [lia|]. by apply H1.
Qed.

Lemma pick_None (l : list ObjectAttrs) :
  forall m, pick None l = Some m ->
    exists l1 l2, l = l1 ++ m :: l2 /\
      (forall a, In a l1 -> (Updated a < Updated m)%Z) /\
      (forall a, In a l2 -> (Updated a <= Updated m)%Z).
Proof.
  destruct l as [|a l]; simpl; intros m H; [discriminate|].
  destruct (pick_Some _ _ _ H) as [[-> Hall]|(l1 & l2 & -> & Hlt & H1 & H2)].
  - exists [], l. repeat split; auto. intros ? [].
  - exists (a :: l1), l2. repeat split; auto.
    intros b [<-|Hb]; [lia|]. by apply H1.
Qed.

Lemma pick_is_None (l : list ObjectAttrs) : pick None l = None <-> l = [].
Proof.
  split; [|intros ->; reflexivity].
  destruct l as [|a l]; [reflexivity|]. simpl. intros H. exfalso.
  assert (Hs : forall l b, is_Some (pick (Some b) l)).
  { clear. induction l as [|a l IH]; intros b; simpl; [by eexists|].
    destruct (Time_After _ _); apply IH. }
  destruct (Hs l a) as [x Hx]. congruence.
Qed.

(** The first candidate of maximal [Updated] time: what the scan keeps. *)
Lemma pick_newest (st : Store) (bucket : string) (keys : list string) :
  let cands := candidates st bucket keys in
  (pick None cands = None <-> cands = []) /\
  (forall m, pick None cands = Some m ->
     exists l1 l2,
       cands = l1 ++ m :: l2 /\
       (forall a, In a l1 -> (Updated a < Updated m)%Z) /\
       (forall a, In a l2 -> (Updated a <= Updated m)%Z)) /\
  (forall m o k, pick None cands = Some m -> In o st -> In k keys ->
     has_prefix bucket k o = true -> (Updated (attrs o) <= Updated m)%Z).
Proof.
  intros cands. split; [apply pick_is_None|]. split; [apply pick_None|].
  intros m o k Hm Ho Hk Hp.
  destruct (pick_None _ _ Hm) as (l1 & l2 & Hc & H1 & H2).
  assert (Hin : In (attrs o) cands).
  { unfold cands, candidates. apply in_flat_map. exists k. split; [done|].
    apply in_map. apply filter_In. done. }
  rewrite Hc in Hin. apply in_app_iff in Hin as [Hin|[<-|Hin]].
  - specialize (H1 _ Hin). lia.
  - lia.
  - by apply H2.
Qed.

End Resolver.

Section SaveProperties.
Context {codec : Codec}.

Local Arguments deferred_close : simpl never.

Ltac run := unfold bind, ret, get, emit, set_fs, set_store; simpl.

Lemma eqb_empty_false (s : string) : s <> EmptyString -> String.eqb s EmptyString = false.
Proof. intros H. by apply String.eqb_neq. Qed.

Lemma deferred_close_Some (both only : string) (retErr : option error) (ce : error) :
  strings_Contains both "%w" = true -> strings_Contains only "%w" = true ->
  exists e, deferred_close both only retErr (Some ce) = Some e /\
            errors_Unwrap e = Some ce.
Proof.
  intros Hb Ho. unfold deferred_close, fmt_Errorf. rewrite Hb, Ho.
  destruct retErr as [re|]; simpl; eexists; split; reflexivity.
Qed.

Lemma find_snoc {A : Type} (f : A -> bool) (l : list A) (x : A) :
  List.find f (l ++ [x]) =
    match List.find f l with
    | Some y => Some y
    | None => if f x then Some x else None
    end.
Proof.
  induction l as [|a l IH]; simpl; [reflexivity|].
  destruct (f a); [reflexivity|apply IH].
Qed.

Lemma write_entries_frame (files : list File) :
  forall (written : list File) (w : World),
    let r := write_entries files written w in
    env (snd r) = env w /\ store (snd r) = store w /\ fs (snd r) = fs w.
Proof.
  induction files as [|f files IH]; intros written w; simpl; [done|].
  unfold bind, emit. simpl. destruct (faults (env w) _); simpl; [done|].
  destruct (IH (written ++ [f])
              {| env := env w; fs := fs w; store := store w;
                 log := log w ++ [EvArchiveEntry (NameInArchive f)] |})
    as (H1 & H2 & H3).
  done.
Qed.

(** [Archive] changes the data of the writer only. *)
Lemma Archive_frame (gw : Writer) (files : list File) (w : World) :
  let r := Archive gw files w in
  env (snd r) = env w /\ store (snd r) = store w /\ fs (snd r) = fs w /\
  wBucket (fst (fst r)) = wBucket gw /\ wKey (fst (fst r)) = wKey gw /\
  wDoesNotExist (fst (fst r)) = wDoesNotExist gw /\
  wContentType (fst (fst r)) = wContentType gw /\
  wCacheControl (fst (fst r)) = wCacheControl gw.
Proof.
  unfold Archive, bind. pose proof (write_entries_frame files [] w) as H.
  destruct (write_entries files [] w) as [[written [[f err]|]] w1]; simpl in *; tauto.
Qed.

(** [FilesFromDisk] reads the file system and never returns an error. *)
Lemma FilesFromDisk_frame (dir : string) (w : World) :
  let r := FilesFromDisk dir w in
  env (snd r) = env w /\ store (snd r) = store w /\ fs (snd r) = fs w /\
  snd (fst r) = None.
Proof.
  unfold FilesFromDisk, bind, emit, get, ret. simpl.
  by destruct (faults (env w) (EvFilesFromDisk dir)).
Qed.

(** The body of the upload touches neither the store nor the file system,
    and hands to the deferred close a writer for [key] that carries the
    [DoesNotExist] condition. *)
Lemma upload_body_frame (bucket key dir : string) (w : World) :
  let r := upload_body bucket key dir w in
  env (snd r) = env w /\ store (snd r) = store w /\ fs (snd r) = fs w /\
  wBucket (fst (fst r)) = bucket /\ wKey (fst (fst r)) = key /\
  wDoesNotExist (fst (fst r)) = true.
Proof.
  unfold upload_body, bind at 1. unfold NewWriter, bind, emit, ret. cbn [fst snd].
  match goal with |- context [FilesFromDisk dir ?w0] =>
    pose proof (FilesFromDisk_frame dir w0) as Hf;
    destruct (FilesFromDisk dir w0) as [[files ferr] w1] end.
  simpl in Hf. destruct Hf as (He1 & Hs1 & Hfs1 & ->).
  match goal with |- context [Archive ?g files w1] =>
    pose proof (Archive_frame g files w1) as Ha;
    destruct (Archive g files w1) as [[gw' aerr] w2] end.
  simpl in Ha |- *.
  destruct Ha as (He2 & Hs2 & Hfs2 & Hb & Hk & Hd & _).
  rewrite He2, Hs2, Hfs2, He1, Hs1, Hfs1, Hb, Hk, Hd. tauto.
Qed.

(** Where the loop of [Archive] stops, read off the environment: the
    entries written in full, and the first entry that fails with its
    error. *)
Fixpoint first_failure (E : Env) (files written : list File)
  : list File * option (File * error) :=
  match files with
  | [] => (written, None)
  | f :: files' =>
      match faults E (EvArchiveEntry (NameInArchive f)) with
      | Some err => (written, Some (f, err))
      | None => first_failure E files' (written ++ [f])
      end
  end.

Lemma write_entries_result (files : list File) :
  forall (written : list File) (w : World),
    fst (write_entries files written w) = first_failure (env w) files written.
Proof.
  induction files as [|f files IH]; intros written w; simpl; [done|].
  unfold bind, emit. simpl. destruct (faults (env w) _); simpl; [done|].
  by rewrite IH.
Qed.

Lemma first_failure_none (E : Env) (files : list File) :
  forall written,
    (forall f, In f files -> faults E (EvArchiveEntry (NameInArchive f)) = None) ->
    first_failure E files written = (written ++ files, None).
Proof.
  induction files as [|f files IH]; intros written H; simpl.
  - by rewrite app_nil_r.
  - rewrite (H f) by (by left). rewrite IH by (intros; apply H; by right).
    by rewrite <- app_assoc.
Qed.

Lemma first_failure_stops (E : Env) (l1 l2 : list File) (f : File) (e : error) :
  forall written,
    (forall g, In g l1 -> faults E (EvArchiveEntry (NameInArchive g)) = None) ->
    faults E (EvArchiveEntry (NameInArchive f)) = Some e ->
    first_failure E (l1 ++ f :: l2) written = (written ++ l1, Some (f, e)).
Proof.
  induction l1 as [|g l1 IH]; intros written H He; simpl.
  - by rewrite He, app_nil_r.
  - rewrite (H g) by (by left). rewrite IH by (try done; intros; apply H; by right).
    by rewrite <- app_assoc.
Qed.

(** The files [FilesFromDisk] hands to [Archive]. *)
Definition gathered (w : World) (dir : string) : list File :=
  match faults (env w) (EvFilesFromDisk dir) with
  | Some _ => []
  | None => walk (fs w) dir
  end.

(** What the body of the upload hands to the deferred close. *)
Lemma upload_body_cases (bucket key dir : string) (w : World) :
  let r := upload_body bucket key dir w in
  let gw := fst (fst r) in
  wContentType gw = contentType /\ wCacheControl gw = cacheControl /\
  match first_failure (env w) (gathered w dir) [] with
  | (written, Some (f, e)) => snd (fst r) = Some e /\ wData gw = truncated written f
  | (_, None) => snd (fst r) = None /\ wData gw = encode (gathered w dir)
  end.
Proof.
  unfold upload_body, bind at 1. unfold NewWriter, bind, emit, ret. cbn [fst snd].
  unfold gathered, FilesFromDisk, bind, emit, get, ret. cbn [env fs fst snd].
  destruct (faults (env w) (EvFilesFromDisk dir)); cbn [fst snd]; unfold Archive, bind.
  all: match goal with |- context [write_entries ?fl [] ?w1] =>
         pose proof (write_entries_result fl [] w1) as Hr;
         destruct (write_entries fl [] w1) as [[written [[f0 e0]|]] w2] end.
  all: simpl in Hr; unfold ret; simpl;
    first [discriminate Hr | rewrite <- Hr; done | done].
Qed.

(** The object a writer of [Save] commits. *)
Definition committed (bucket key : string) (t : Z) (d : stream) : Object :=
  {| attrs := {| Bucket := bucket; Name := key; Updated := t;
                 ContentType := contentType; CacheControl := cacheControl |};
     data := d |}.

Lemma upload_run (bucket key dir : string) (w : World) :
  exists gw berr w1,
    upload_body bucket key dir w = ((gw, berr), w1) /\
    upload bucket key dir w =
      (deferred_close "%v: failed to close gcs writer: %w"
         "failed to close gcs writer: %w" berr (fst (Writer_Close gw w1)),
       snd (Writer_Close gw w1)).
Proof.
  unfold upload, bind. destruct (upload_body bucket key dir w) as [[gw berr] w1].
  exists gw, berr, w1. split; [reflexivity|]. simpl.
  by destruct (Writer_Close gw w1).
Qed.

(** What the deferred close does to the result of [Save]. *)
Lemma Writer_Close_cases (gw : Writer) (w : World) :
  let st := concurrent (env w) (store w) in
  let r := Writer_Close gw w in
  env (snd r) = env w /\ fs (snd r) = fs w /\
  match faults (env w) (EvCloseWriter (wBucket gw) (wKey gw)) with
  | Some e => fst r = Some e /\ store (snd r) = st
  | None =>
      match find_object st (wBucket gw) (wKey gw) with
      | Some _ =>
          if wDoesNotExist gw
          then fst r = Some (googleapiError StatusPreconditionFailed) /\ store (snd r) = st
          else fst r = None
      | None => fst r = None /\ store (snd r) = st ++ [new_object gw (now (env w))]
      end
  end.
Proof.
  unfold Writer_Close. run.
  destruct (faults (env w) _); simpl; [tauto|].
  destruct (find_object _ _ _); simpl; [|tauto].
  destruct (wDoesNotExist gw); simpl; tauto.
Qed.

Lemma find_new_object (gw : Writer) (t : Z) (st : Store) :
  find_object st (wBucket gw) (wKey gw) = None ->
  find_object (st ++ [new_object gw t]) (wBucket gw) (wKey gw) = Some (new_object gw t).
Proof.
  intros H. unfold find_object in *. rewrite find_snoc, H.
  unfold same_object, new_object; simpl. by rewrite !String.eqb_refl.
Qed.

Definition valid_save (i : SaveRequest.t) : Prop :=
  SaveRequest.Bucket i <> EmptyString /\ SaveRequest.Dir i <> EmptyString /\
  SaveRequest.Key i <> EmptyString.

Lemma Save_valid (i : SaveRequest.t) (w : World) :
  valid_save i ->
  Save (Some i) w =
    (r <- Object_Attrs (SaveRequest.Bucket i) (SaveRequest.Key i) ;;
     let rest :=
       match fst r with
       | Some _ => ret None
       | None => upload (SaveRequest.Bucket i) (SaveRequest.Key i) (SaveRequest.Dir i)
       end in
     match snd r with
     | Some e =>
         if negb (is_ErrObjectNotExist e) then
           ret (Some (fmt_Errorf "failed to check if cached object exists: %w" [AErr e]))
         else rest
     | None => rest
     end) w.
Proof.
  intros (Hb & Hd & Hk). unfold Save.
  by rewrite (eqb_empty_false _ Hb), (eqb_empty_false _ Hd), (eqb_empty_false _ Hk).
Qed.

Lemma Save_found (i : SaveRequest.t) (w : World) (o : Object) :
  valid_save i ->
  faults (env w) (EvAttrs (SaveRequest.Bucket i) (SaveRequest.Key i)) = None ->
  find_object (store w) (SaveRequest.Bucket i) (SaveRequest.Key i) = Some o ->
  Save (Some i) w =
    (None, add_log w [EvAttrs (SaveRequest.Bucket i) (SaveRequest.Key i)]).
Proof.
  intros Hv Hf Ho. rewrite Save_valid by done.
  unfold Object_Attrs. run. rewrite Hf. simpl. rewrite Ho. reflexivity.
Qed.

Lemma Save_not_found (i : SaveRequest.t) (w : World) :
  valid_save i ->
  faults (env w) (EvAttrs (SaveRequest.Bucket i) (SaveRequest.Key i)) = None ->
  find_object (store w) (SaveRequest.Bucket i) (SaveRequest.Key i) = None ->
  Save (Some i) w =
    upload (SaveRequest.Bucket i) (SaveRequest.Key i) (SaveRequest.Dir i)
      (add_log w [EvAttrs (SaveRequest.Bucket i) (SaveRequest.Key i)]).
Proof.
  intros Hv Hf Ho. rewrite Save_valid by done.
  unfold Object_Attrs. run. rewrite Hf. simpl. rewrite Ho. reflexivity.
Qed.

(** [Save] past a probe that found nothing, in terms of its two halves. *)
Lemma Save_upload_cases (i : SaveRequest.t) (w : World) :
  valid_save i ->
  faults (env w) (EvAttrs (SaveRequest.Bucket i) (SaveRequest.Key i)) = None ->
  find_object (store w) (SaveRequest.Bucket i) (SaveRequest.Key i) = None ->
  let bucket := SaveRequest.Bucket i in
  let key := SaveRequest.Key i in
  let st := concurrent (env w) (store w) in
  let files := gathered w (SaveRequest.Dir i) in
  exists berr d cerr w',
    Save (Some i) w =
      (deferred_close "%v: failed to close gcs writer: %w"
         "failed to close gcs writer: %w" berr cerr, w') /\
    env w' = env w /\ fs w' = fs w /\
    match first_failure (env w) files [] with
    | (written, Some (f, e)) => berr = Some e /\ d = truncated written f
    | (_, None) => berr = None /\ d = encode files
    end /\
    match faults (env w) (EvCloseWriter bucket key) with
    | Some e => cerr = Some e /\ store w' = st
    | None =>
        match find_object st bucket key with
        | Some _ => cerr = Some (googleapiError StatusPreconditionFailed) /\ store w' = st
        | None => cerr = None /\ store w' = st ++ [committed bucket key (now (env w)) d]
        end
    end.
Proof.
  intros Hv Hf Ho. cbv zeta. rewrite (Save_not_found i w Hv Hf Ho).
  set (w0 := add_log w _).
  destruct (upload_run (SaveRequest.Bucket i) (SaveRequest.Key i) (SaveRequest.Dir i) w0)
    as (gw & berr & w1 & Hbody & ->).
  pose proof (upload_body_frame (SaveRequest.Bucket i) (SaveRequest.Key i)
                (SaveRequest.Dir i) w0) as Hb.
  pose proof (upload_body_cases (SaveRequest.Bucket i) (SaveRequest.Key i)
                (SaveRequest.Dir i) w0) as Hcases.
  rewrite Hbody in Hb, Hcases. simpl in Hb, Hcases.
  destruct Hb as (He & Hs & Hfs & Hgb & Hgk & Hdne).
  destruct Hcases as (Hct & Hcc & Hcases).
  pose proof (Writer_Close_cases gw w1) as Hc.
  destruct (Writer_Close gw w1) as [cerr w2]. simpl in Hc |- *.
  destruct Hc as (He2 & Hfs2 & Hc). rewrite Hgb, Hgk, He, Hs in Hc. simpl in Hc.
  exists berr, (wData gw), cerr, w2.
  split; [reflexivity|]. split; [congruence|]. split; [congruence|].
  split; [exact Hcases|].
  destruct (faults (env w) (EvCloseWriter (SaveRequest.Bucket i) (SaveRequest.Key i)));
    [exact Hc|].
  destruct (find_object (concurrent (env w) (store w))
              (SaveRequest.Bucket i) (SaveRequest.Key i)).
  - by rewrite Hdne in Hc.
  - destruct Hc as [Hc1 Hc2]. split; [done|]. rewrite Hc2. f_equal. f_equal.
    unfold new_object, committed. by rewrite Hgb, Hgk, Hct, Hcc.
Qed.

(** A [Save] that returns [nil], or whose close was answered by the store,
    leaves an object under the key: its own, or the one that made the
    store reject the commit. *)
Lemma Save_leaves_object (i : SaveRequest.t) (w : World) :
  valid_save i ->
  faults (env w) (EvAttrs (SaveRequest.Bucket i) (SaveRequest.Key i)) = None ->
  fst (Save (Some i) w) = None \/
  faults (env w) (EvCloseWriter (SaveRequest.Bucket i) (SaveRequest.Key i)) = None ->
  env (snd (Save (Some i) w)) = env w /\
  is_Some (find_object (store (snd (Save (Some i) w)))
             (SaveRequest.Bucket i) (SaveRequest.Key i)).
Proof.
  intros Hv Hf.
  destruct (find_object (store w) (SaveRequest.Bucket i) (SaveRequest.Key i))
    as [o|] eqn:Ho.
  - rewrite (Save_found _ _ _ Hv Hf Ho). simpl. intros _. split; [done|]. by eexists.
  - rewrite (Save_not_found _ _ Hv Hf Ho). set (w0 := add_log w _).
    destruct (upload_run (SaveRequest.Bucket i) (SaveRequest.Key i)
                (SaveRequest.Dir i) w0) as (gw & berr & w1 & Hbody & ->).
    pose proof (upload_body_frame (SaveRequest.Bucket i) (SaveRequest.Key i)
                  (SaveRequest.Dir i) w0) as Hb.
    rewrite Hbody in Hb. simpl in Hb.
    destruct Hb as (He & Hs & _ & Hgb & Hgk & Hdne).
    pose proof (Writer_Close_cases gw w1) as Hc.
    destruct (Writer_Close gw w1) as [cerr w2]. simpl in Hc |- *.
    destruct Hc as (He2 & _ & Hc). rewrite Hgb, Hgk, He in Hc.
    destruct (faults (env w) (EvCloseWriter _ _)) as [e|] eqn:Hcf.
    { destruct Hc as [-> _]. intros [H|H]; [|discriminate].
      destruct (deferred_close_Some "%v: failed to close gcs writer: %w"
                  "failed to close gcs writer: %w" berr e eq_refl eq_refl)
        as (e' & He' & _). congruence. }
    intros _. split; [by rewrite He2, He|].
    destruct (find_object (concurrent (env w) (store w1))
                (SaveRequest.Bucket i) (SaveRequest.Key i)) as [o'|] eqn:Hfo.
    { rewrite Hdne in Hc. destruct Hc as [_ ->]. by rewrite Hfo. }
    destruct Hc as [_ ->]. rewrite <- Hgb, <- Hgk. rewrite find_new_object; [by eexists|].
    by rewrite Hgb, Hgk.
Qed.

(** C7. With valid arguments and a probe that answers, a [Save] that finds
    an object under the key returns success having issued the probe and
    nothing else: no writer is created, nothing is uploaded, and the store
    and the file system are as before.  Hence a second [Save] with the same
    arguments, after one that succeeded or whose commit the store answered,
    returns success and leaves the world of the first call unchanged but for
    the log of its probe: it adds no object. *)
Theorem Save_idempotent (i : SaveRequest.t) (w : World) :
  valid_save i ->
  faults (env w) (EvAttrs (SaveRequest.Bucket i) (SaveRequest.Key i)) = None ->
  let probe := EvAttrs (SaveRequest.Bucket i) (SaveRequest.Key i) in
  (forall o,
     find_object (store w) (SaveRequest.Bucket i) (SaveRequest.Key i) = Some o ->
     Save (Some i) w = (None, add_log w [probe])) /\
  (fst (Save (Some i) w) = None \/
   faults (env w) (EvCloseWriter (SaveRequest.Bucket i) (SaveRequest.Key i)) = None ->
   Save (Some i) (snd (Save (Some i) w)) =
     (None, add_log (snd (Save (Some i) w)) [probe])).
Proof.
  intros Hv Hf probe. split.
  - intros o Ho. by apply (Save_found i w o).
  - intros H1. destruct (Save_leaves_object i w Hv Hf H1) as [He [o Ho]].
    apply (Save_found i _ o); [done| |done]. by rewrite He.
Qed.

(** C2, as the code has it: whenever the deferred close of the writer fails,
    be it because the store rejected the commit for the [DoesNotExist]
    precondition or for any other reason, [Save] returns an error that wraps
    the close error; the precondition failure is not told apart. *)
Theorem Save_reports_every_close_error (i : SaveRequest.t) (w : World) (ce : error) :
  valid_save i ->
  faults (env w) (EvAttrs (SaveRequest.Bucket i) (SaveRequest.Key i)) = None ->
  find_object (store w) (SaveRequest.Bucket i) (SaveRequest.Key i) = None ->
  (faults (env w) (EvCloseWriter (SaveRequest.Bucket i) (SaveRequest.Key i)) = Some ce \/
   (faults (env w) (EvCloseWriter (SaveRequest.Bucket i) (SaveRequest.Key i)) = None /\
    is_Some (find_object (concurrent (env w) (store w))
               (SaveRequest.Bucket i) (SaveRequest.Key i)) /\
    ce = googleapiError StatusPreconditionFailed)) ->
  exists e, fst (Save (Some i) w) = Some e /\ errors_Unwrap e = Some ce.
Proof.
  intros Hv Hf Ho Hclose. rewrite (Save_not_found _ _ Hv Hf Ho).
  set (w0 := add_log w _).
  destruct (upload_run (SaveRequest.Bucket i) (SaveRequest.Key i)
              (SaveRequest.Dir i) w0) as (gw & berr & w1 & Hbody & ->).
  pose proof (upload_body_frame (SaveRequest.Bucket i) (SaveRequest.Key i)
                (SaveRequest.Dir i) w0) as Hb.
  rewrite Hbody in Hb. simpl in Hb.
  destruct Hb as (He & Hs & _ & Hgb & Hgk & Hdne).
  pose proof (Writer_Close_cases gw w1) as Hc.
  destruct (Writer_Close gw w1) as [cerr w2]. simpl in Hc |- *.
  destruct Hc as (_ & _ & Hc).
  rewrite Hgb, Hgk, He, Hs in Hc. simpl in Hc.
  assert (cerr = Some ce) as ->.
  { destruct Hclose as [Hcf|(Hcf & [o' Ho'] & ->)]; rewrite Hcf in Hc.
    - tauto.
    - rewrite Ho', Hdne in Hc. tauto. }
  by apply deferred_close_Some.
Qed.

End SaveProperties.

Section Runs.
Context {codec : Codec}.

Local Arguments fs_MkdirAll : simpl never.
Local Arguments fs_Create : simpl never.
Local Arguments fs_Chmod : simpl never.
Local Arguments fs_Write : simpl never.
Local Arguments fs_Symlink : simpl never.
Local Arguments fs_Link : simpl never.

(** The world after some calls that changed the file system only. *)
Definition upd (w : World) (fs' : FS) (evs : list Event) : World :=
  {| env := env w; fs := fs'; store := store w; log := log w ++ evs |}.

Lemma upd_upd (w : World) (f1 f2 : FS) (e1 e2 : list Event) :
  upd (upd w f1 e1) f2 e2 = upd w f2 (e1 ++ e2).
Proof. unfold upd; simpl. by rewrite app_assoc. Qed.

Lemma upd_id (w : World) : upd w (fs w) [] = w.
Proof. destruct w; unfold upd; simpl. by rewrite app_nil_r. Qed.

Lemma add_log_upd (w : World) (evs : list Event) : add_log w evs = upd w (fs w) evs.
Proof. reflexivity. Qed.

Ltac run := unfold bind, ret, get, emit, set_fs, set_store; simpl.

Lemma os_MkdirAll_run (p : path) (m : N) (w : World) (fs1 : FS) (err : option error) :
  faults (env w) (EvMkdirAll p m) = None ->
  fs_MkdirAll (fs w) p m = (fs1, err) ->
  os_MkdirAll p m w = (err, upd w fs1 [EvMkdirAll p m]).
Proof. intros Hf Hm. unfold os_MkdirAll. run. rewrite Hf. simpl. by rewrite Hm. Qed.

Lemma os_Create_run (p : path) (w : World) (fs1 : FS) (out : nat) :
  faults (env w) (EvCreate p) = None ->
  fs_Create (fs w) p = (fs1, inr out) ->
  os_Create p w = ((Some out, None), upd w fs1 [EvCreate p]).
Proof. intros Hf Hm. unfold os_Create. run. rewrite Hf. simpl. by rewrite Hm. Qed.

Lemma os_Create_fail (p : path) (w : World) (fs1 : FS) (e : error) :
  faults (env w) (EvCreate p) = None ->
  fs_Create (fs w) p = (fs1, inl e) ->
  os_Create p w = ((None, Some e), upd w (fs w) [EvCreate p]).
Proof. intros Hf Hm. unfold os_Create. run. rewrite Hf. simpl. by rewrite Hm. Qed.

Lemma File_Chmod_run (p : path) (out : nat) (m : N) (w : World) :
  File_Chmod p out m w =
    (faults (env w) (EvChmod p m),
     upd w (match faults (env w) (EvChmod p m) with
            | None => fs_Chmod (fs w) out m
            | Some _ => fs w
            end) [EvChmod p m]).
Proof. unfold File_Chmod. run. by destruct (faults (env w) _). Qed.

Lemma copy_entry_run (p : path) (out : nat) (f : File) (w : World) :
  faults (env w) (EvOpenEntry (NameInArchive f)) = None ->
  faults (env w) (EvCopy p (Content f)) = None ->
  copy_entry p out f w =
    (None, upd w (fs_Write (fs w) out (Content f))
             [EvOpenEntry (NameInArchive f); EvCopy p (Content f)]).
Proof.
  intros H1 H2. unfold copy_entry, File_Open, io_Copy. run.
  rewrite H1. simpl. rewrite H2. simpl. unfold upd. simpl.
  by rewrite <- app_assoc.
Qed.

Lemma os_Symlink_run (t : string) (p : path) (w : World) (fs1 : FS) (err : option error) :
  faults (env w) (EvSymlink t p) = None ->
  fs_Symlink (fs w) t p = (fs1, err) ->
  os_Symlink t p w = (err, upd w fs1 [EvSymlink t p]).
Proof. intros Hf Hm. unfold os_Symlink. run. rewrite Hf. simpl. by rewrite Hm. Qed.

Lemma os_Link_run (old new : path) (w : World) (fs1 : FS) (err : option error) :
  faults (env w) (EvLink old new) = None ->
  fs_Link (fs w) old new = (fs1, err) ->
  os_Link old new w = (err, upd w fs1 [EvLink old new]).
Proof. intros Hf Hm. unfold os_Link. run. rewrite Hf. simpl. by rewrite Hm. Qed.

Lemma make_parent_run (fpath : path) (k : M (option error)) (w : World) (fs1 : FS) :
  faults (env w) (EvMkdirAll (filepath_Dir fpath) 493) = None ->
  fs_MkdirAll (fs w) (filepath_Dir fpath) 493 = (fs1, None) ->
  make_parent fpath k w = k (upd w fs1 [EvMkdirAll (filepath_Dir fpath) 493]).
Proof.
  intros Hf Hm. unfold make_parent, bind.
  by rewrite (os_MkdirAll_run _ _ _ _ _ Hf Hm).
Qed.

(** The entry types the handler stores as regular content. *)
Definition regular_flag (t : ascii) : bool :=
  is_flag t TypeReg || is_flag t TypeRegA || is_flag t TypeChar
  || is_flag t TypeBlock || is_flag t TypeFifo.

Lemma regular_not_dir (t : ascii) : regular_flag t = true -> is_flag t TypeDir = false.
Proof.
  destruct t as [[] [] [] [] [] [] [] []]; vm_compute; congruence.
Qed.

Lemma handler_regular (dir : string) (f : File) :
  regular_flag (Typeflag f) = true ->
  handler dir f =
    let fpath := filepath_Join (elements dir) (elements (NameInArchive f)) in
    make_parent fpath (
      r <- os_Create fpath ;;
      match r with
      | (_, Some e) =>
          ret (Some (fmt_Errorf "%s: creating new file: %v" [show fpath; AErr e]))
      | (None, None) => ret None
      | (Some out, None) => fill_regular fpath out f
      end).
Proof.
  intros H. unfold handler. rewrite (regular_not_dir _ H).
  unfold regular_flag in H. by rewrite H.
Qed.

Lemma handler_regular_run (dir : string) (f : File) (w : World)
    (fs1 fs2 : FS) (out : nat) :
  let fpath := filepath_Join (elements dir) (elements (NameInArchive f)) in
  regular_flag (Typeflag f) = true ->
  faults (env w) (EvMkdirAll (filepath_Dir fpath) 493) = None ->
  faults (env w) (EvCreate fpath) = None ->
  faults (env w) (EvOpenEntry (NameInArchive f)) = None ->
  faults (env w) (EvCopy fpath (Content f)) = None ->
  (faults (env w) (EvChmod fpath (Mode f)) = None \/ windows (env w) = true) ->
  fs_MkdirAll (fs w) (filepath_Dir fpath) 493 = (fs1, None) ->
  fs_Create fs1 fpath = (fs2, inr out) ->
  handler dir f w =
    (None,
     upd w (fs_Write (match faults (env w) (EvChmod fpath (Mode f)) with
                      | None => fs_Chmod fs2 out (Mode f)
                      | Some _ => fs2
                      end) out (Content f))
       [EvMkdirAll (filepath_Dir fpath) 493; EvCreate fpath;
        EvChmod fpath (Mode f); EvOpenEntry (NameInArchive f);
        EvCopy fpath (Content f); EvCloseFile fpath]).
Proof.
  intros fpath Hreg Hf1 Hf2 Hf3 Hf4 Hf5 Hm Hc.
  rewrite handler_regular by done. fold fpath. cbv zeta.
  rewrite (make_parent_run _ _ _ _ Hf1 Hm). unfold bind at 1.
  rewrite (os_Create_run fpath _ fs2 out) by done.
  rewrite upd_upd. unfold fill_regular, bind at 1.
  rewrite File_Chmod_run, upd_upd. cbn [env upd fs].
  unfold bind at 1, get at 1. cbn [env upd].
  set (w3 := upd w _ _).
  assert (Hcopy : copy_entry fpath out f w3 =
            (None, upd w3 (fs_Write (fs w3) out (Content f))
                     [EvOpenEntry (NameInArchive f); EvCopy fpath (Content f)]))
    by (by apply copy_entry_run).
  assert (Hres : (match faults (env w) (EvChmod fpath (Mode f)), windows (env w) with
                  | Some e, false =>
                      ret (Some (fmt_Errorf "%s: changing file mode: %v"
                                   [show fpath; AErr e]))
                  | _, _ => copy_entry fpath out f
                  end) w3 =
                 (None, upd w3 (fs_Write (fs w3) out (Content f))
                          [EvOpenEntry (NameInArchive f); EvCopy fpath (Content f)])).
  { revert Hcopy. generalize w3. intros w' Hcopy.
    destruct (faults (env w) (EvChmod fpath (Mode f))) eqn:E; [|exact Hcopy].
    destruct Hf5 as [?| ->]; [congruence|exact Hcopy]. }
  unfold bind. rewrite Hres. unfold File_Close. run.
  unfold w3, upd. simpl. rewrite <- !app_assoc. reflexivity.
Qed.

(** The regular case when [out.Chmod] fails on a platform other than
    windows: the handler stops there, the file stays as [os.Create] left it,
    and the deferred close runs. *)
Lemma handler_regular_chmod_fails (dir : string) (f : File) (w : World)
    (fs1 fs2 : FS) (out : nat) (e : error) :
  let fpath := filepath_Join (elements dir) (elements (NameInArchive f)) in
  regular_flag (Typeflag f) = true ->
  faults (env w) (EvMkdirAll (filepath_Dir fpath) 493) = None ->
  faults (env w) (EvCreate fpath) = None ->
  faults (env w) (EvChmod fpath (Mode f)) = Some e ->
  windows (env w) = false ->
  fs_MkdirAll (fs w) (filepath_Dir fpath) 493 = (fs1, None) ->
  fs_Create fs1 fpath = (fs2, inr out) ->
  handler dir f w =
    (Some (errorString "%s: changing file mode: %v" [show fpath; AErr e]),
     upd w fs2 [EvMkdirAll (filepath_Dir fpath) 493; EvCreate fpath;
                EvChmod fpath (Mode f); EvCloseFile fpath]).
Proof.
  intros fpath Hreg Hf1 Hf2 Hch Hwin Hm Hc.
  rewrite handler_regular by done. fold fpath. cbv zeta.
  rewrite (make_parent_run _ _ _ _ Hf1 Hm). unfold bind at 1.
  rewrite (os_Create_run fpath _ fs2 out) by done.
  rewrite upd_upd. unfold fill_regular, bind at 1.
  rewrite File_Chmod_run, upd_upd. cbn [env upd fs].
  unfold bind at 1, get at 1. cbn [env upd].
  rewrite Hch, Hwin. unfold bind, ret, File_Close, emit. simpl.
  unfold upd. simpl. rewrite <- !app_assoc. reflexivity.
Qed.

(** C5, as the code has it.  On an entry the handler stores as regular
    content (types [0], NUL, [3], [4], [6]), once the parent directory is
    made and the file created, the handler goes on with [Chmod] with the
    recorded mode, and only then with the opening of the entry and the copy
    of its content; the deferred close comes last.  So the mode is set
    before the content is copied, on every platform.  A failure of [Chmod]
    is passed over on windows, where the file keeps the mode it was created
    with and the content is copied; on any other platform it ends the
    handler with the error [changing file mode], nothing being copied. *)
Theorem handler_regular_steps (dir : string) (f : File) (w : World)
    (fs1 fs2 : FS) (out : nat) :
  let fpath := filepath_Join (elements dir) (elements (NameInArchive f)) in
  regular_flag (Typeflag f) = true ->
  faults (env w) (EvMkdirAll (filepath_Dir fpath) 493) = None ->
  faults (env w) (EvCreate fpath) = None ->
  fs_MkdirAll (fs w) (filepath_Dir fpath) 493 = (fs1, None) ->
  fs_Create fs1 fpath = (fs2, inr out) ->
  (faults (env w) (EvOpenEntry (NameInArchive f)) = None ->
   faults (env w) (EvCopy fpath (Content f)) = None ->
   (faults (env w) (EvChmod fpath (Mode f)) = None \/ windows (env w) = true) ->
   handler dir f w =
     (None,
      upd w (fs_Write (match faults (env w) (EvChmod fpath (Mode f)) with
                       | None => fs_Chmod fs2 out (Mode f)
                       | Some _ => fs2
                       end) out (Content f))
        [EvMkdirAll (filepath_Dir fpath) 493; EvCreate fpath;
         EvChmod fpath (Mode f); EvOpenEntry (NameInArchive f);
         EvCopy fpath (Content f); EvCloseFile fpath])) /\
  (forall e,
     faults (env w) (EvChmod fpath (Mode f)) = Some e -> windows (env w) = false ->
     handler dir f w =
       (Some (errorString "%s: changing file mode: %v" [show fpath; AErr e]),
        upd w fs2 [EvMkdirAll (filepath_Dir fpath) 493; EvCreate fpath;
                   EvChmod fpath (Mode f); EvCloseFile fpath])).
Proof.
  intros fpath Hreg Hf1 Hf2 Hm Hc. split.
  - intros Hf3 Hf4 Hf5. by apply (handler_regular_run dir f w fs1 fs2 out).
  - intros e Hch Hwin. by apply (handler_regular_chmod_fails dir f w fs1 fs2 out e).
Qed.



End Runs.

Section RestoreProperties.
Context {codec : Codec}.

Definition valid_restore (i : RestoreRequest.t) : Prop :=
  RestoreRequest.Bucket i <> EmptyString /\ RestoreRequest.Dir i <> EmptyString /\
  RestoreRequest.Keys i <> [].

(** [Restore] after its argument checks and the key resolution. *)
Definition restore_match (bucket dir : string) (m : ObjectAttrs) : M (option error) :=
  err <- os_MkdirAll (to_path dir) 493 ;;
  match err with
  | Some e => ret (Some (fmt_Errorf "failed to make target directory: %w" [AErr e]))
  | None =>
      r <- NewReader bucket (Name m) ;;
      match r with
      | (_, Some e) =>
          ret (Some (fmt_Errorf "failed to create object reader: %w" [AErr e]))
      | (None, None) => ret None
      | (Some gcsr, None) =>
          _ <- Extract gcsr (handler dir) ;;
          cerr <- Reader_Close bucket (Name m) ;;
          ret (deferred_close "%v: failed to close gcs reader: %w"
                 "failed to close gcs reader: %w" None cerr)
      end
  end.

Lemma Restore_valid (i : RestoreRequest.t) (w : World) :
  valid_restore i ->
  (forall k, In k (RestoreRequest.Keys i) ->
     faults (env w) (EvObjects (RestoreRequest.Bucket i) k) = None) ->
  let bucket := RestoreRequest.Bucket i in
  let keys := RestoreRequest.Keys i in
  let w1 := add_log w (map (EvObjects bucket) keys) in
  Restore (Some i) w =
    match pick None (candidates (store w) bucket keys) with
    | None =>
        (Some (fmt_Errorf "failed to find cached objects among keys %q" [AStrs keys]), w1)
    | Some m => restore_match bucket (RestoreRequest.Dir i) m w1
    end.
Proof.
  intros (Hb & Hd & Hk) Hq bucket keys w1. unfold Restore.
  rewrite (eqb_empty_false _ Hb), (eqb_empty_false _ Hd).
  assert (Nat.ltb (length (RestoreRequest.Keys i)) 1 = false) as ->.
  { destruct (RestoreRequest.Keys i); [done|reflexivity]. }
  unfold bind at 1. rewrite find_match_pick by done.
  fold bucket keys w1. by destruct (pick None _).
Qed.

Lemma candidates_nil (st : Store) (bucket : string) (keys : list string) :
  (forall o k, In o st -> In k keys -> has_prefix bucket k o = false) ->
  candidates st bucket keys = [].
Proof.
  intros H. unfold candidates. induction keys as [|k keys IH]; [reflexivity|].
  simpl. rewrite IH by (intros; apply H; auto; by right).
  rewrite app_nil_r.
  assert (List.filter (has_prefix bucket k) st = []) as ->; [|reflexivity].
  assert (Hst : forall o, In o st -> has_prefix bucket k o = false)
    by (intros; apply H; auto; by left).
  clear -Hst. induction st as [|o st IH]; [reflexivity|]. simpl.
  rewrite (Hst o) by (by left). apply IH. intros; apply Hst; by right.
Qed.

(** C6. For a request with a non-empty key list whose listings succeed, the
    resolver of [Restore] reads nothing but the listings, one per key in
    order, and returns, among all the objects listed for all the keys, the
    first one in enumeration order whose [Updated] time is maximal: every
    candidate enumerated before it is strictly older, every candidate after
    it is not newer, so that no object matching any key is newer; it
    returns no match only when nothing is listed for any key.  [Restore]
    goes on with that object, or fails when there is none. *)
Theorem Restore_resolves_newest (i : RestoreRequest.t) (w : World) :
  valid_restore i ->
  (forall k, In k (RestoreRequest.Keys i) ->
     faults (env w) (EvObjects (RestoreRequest.Bucket i) k) = None) ->
  let bucket := RestoreRequest.Bucket i in
  let keys := RestoreRequest.Keys i in
  let cands := candidates (store w) bucket keys in
  let w1 := add_log w (map (EvObjects bucket) keys) in
  exists best,
    find_match bucket keys None w = ((best, None), w1) /\
    (best = None <-> cands = []) /\
    (forall m, best = Some m ->
       exists l1 l2,
         cands = l1 ++ m :: l2 /\
         (forall a, In a l1 -> (Updated a < Updated m)%Z) /\
         (forall a, In a l2 -> (Updated a <= Updated m)%Z)) /\
    (forall m o k, best = Some m -> In o (store w) -> In k keys ->
       has_prefix bucket k o = true -> (Updated (attrs o) <= Updated m)%Z) /\
    Restore (Some i) w =
      match best with
      | None =>
          (Some (errorString "failed to find cached objects among keys %q" [AStrs keys]),
           w1)
      | Some m => restore_match bucket (RestoreRequest.Dir i) m w1
      end.
Proof.
  intros Hv Hq bucket keys cands w1. exists (pick None cands).
  split; [by apply find_match_pick|].
  destruct (pick_newest (store w) bucket keys) as (H1 & H2 & H3).
  split; [exact H1|]. split; [exact H2|]. split; [exact H3|].
  by rewrite Restore_valid.
Qed.

(** Whatever the extraction does, the result of [Restore] after the key
    resolution is [nil] or the failure to make the target directory, to open
    the reader or to close it: an error of the extraction is never among
    them. *)
Lemma restore_match_results (bucket dir : string) (m : ObjectAttrs) (w : World) :
  let r := fst (restore_match bucket dir m w) in
  r = None \/
  (exists e, r = Some (wrapError "failed to make target directory: %w" [AErr e] e)) \/
  (exists e, r = Some (wrapError "failed to create object reader: %w" [AErr e] e)) \/
  (exists e, r = Some (wrapError "failed to close gcs reader: %w" [AErr e] e)).
Proof.
  cbv zeta. unfold restore_match, bind.
  destruct (os_MkdirAll (to_path dir) 493 w) as [[e|] w1].
  { right. left. exists e. reflexivity. }
  destruct (NewReader bucket (Name m) w1) as [[[g|] [e|]] w2];
    try (right; right; left; exists e; reflexivity); [|by left].
  destruct (Extract g (handler dir) w2) as [x w3].
  destruct (Reader_Close bucket (Name m) w3) as [[ce|] w4]; [|by left].
  right. right. right. exists ce. reflexivity.
Qed.

(** C8. With valid arguments and listings that succeed, when no object of
    the bucket has any of the keys as a prefix of its name, [Restore]
    returns the error [failed to find cached objects among keys %q] carrying
    the whole key list, and has done nothing but list the bucket once per
    key: the file system and the store are untouched, no directory was made
    and no reader was opened. *)
Theorem Restore_not_found (i : RestoreRequest.t) (w : World) :
  valid_restore i ->
  (forall k, In k (RestoreRequest.Keys i) ->
     faults (env w) (EvObjects (RestoreRequest.Bucket i) k) = None) ->
  (forall o k, In o (store w) -> In k (RestoreRequest.Keys i) ->
     has_prefix (RestoreRequest.Bucket i) k o = false) ->
  Restore (Some i) w =
    (Some (errorString "failed to find cached objects among keys %q"
             [AStrs (RestoreRequest.Keys i)]),
     add_log w (map (EvObjects (RestoreRequest.Bucket i)) (RestoreRequest.Keys i))).
Proof.
  intros Hv Hq Hnone. rewrite Restore_valid by done.
  by rewrite candidates_nil.
Qed.

End RestoreProperties.

(** * The content hasher *)

Section Hasher.
Context {blake : Blake2b}.

(** The bytes the hasher is to digest: the content of every named file that
    is not a directory, in the order of the list. *)
Definition hashed_bytes (disk : Disk) (files : list string) : list byte :=
  flat_map (fun name =>
              match disk name with
              | inr f => match Stat f with
                         | inr false => fst (Read f)
                         | _ => []
                         end
              | inl _ => []
              end) files.

(** A name that can be opened, statted, read to its end and closed. *)
Definition readable (disk : Disk) (name : string) : Prop :=
  exists f, disk name = inr f /\
    (exists d, Stat f = inr d /\ (d = false -> snd (Read f) = None)) /\
    Close f = None.

Lemma hashOne_readable (disk : Disk) (name : string) (h : DigestState) :
  readable disk name ->
  hashOne disk name h = (h ++ hashed_bytes disk [name], None).
Proof.
  intros (f & Hf & (d & Hd & Hr) & Hc). unfold hashOne, hashed_bytes. simpl.
  rewrite Hf, Hd, Hc, app_nil_r. destruct d.
  - by rewrite app_nil_r.
  - specialize (Hr eq_refl). destruct (Read f) as [bytes rerr]. simpl in *.
    by subst rerr.
Qed.

Lemma hash_all_readable (disk : Disk) (files : list string) :
  forall h, Forall (readable disk) files ->
    hash_all disk files h = (h ++ hashed_bytes disk files, None).
Proof.
  induction files as [|name files IH]; intros h Hall; simpl.
  - by rewrite app_nil_r.
  - inversion Hall as [|? ? Hr Hrest]; subst.
    rewrite (hashOne_readable _ _ _ Hr), IH by done.
    unfold hashed_bytes. simpl. by rewrite app_nil_r, <- app_assoc.
Qed.

Lemma hex_length (dig : list byte) : String.length (hex dig) = 2 * length dig.
Proof. induction dig as [|b dig IH]; simpl; [reflexivity|]. rewrite IH. lia. Qed.

(** Reading a hex string back. *)
Definition hex_value (c : ascii) : N :=
  let n := N_of_ascii c in
  if (n <? 58)%N then (n - 48)%N else (n - 87)%N.

Fixpoint unhex (s : string) : list (option byte) :=
  match s with
  | String c1 (String c2 s') =>
      Byte.of_N (16 * hex_value c1 + hex_value c2) :: unhex s'
  | _ => []
  end.

Lemma unhex_byte (b : byte) :
  Byte.of_N (16 * hex_value (hex_digit (Byte.to_N b / 16))
             + hex_value (hex_digit (Byte.to_N b mod 16))) = Some b.
Proof. destruct b; vm_compute; reflexivity. Qed.

Lemma unhex_hex (dig : list byte) : unhex (hex dig) = map Some dig.
Proof.
  induction dig as [|b dig IH]; [reflexivity|].
  cbn [hex unhex map]. by rewrite unhex_byte, IH.
Qed.

Lemma hex_inj (d1 d2 : list byte) : hex d1 = hex d2 -> d1 = d2.
Proof.
  intros H. apply (f_equal unhex) in H. rewrite !unhex_hex in H.
  revert d2 H. induction d1 as [|a d1 IH]; intros [|b d2] H; try discriminate.
  - reflexivity.
  - simpl in H. injection H as -> H. f_equal. by apply IH.
Qed.

(** C9, as the code has it.  When every named entry can be opened,
    statted, read to its end (unless it is a directory) and closed,
    [HashFiles] succeeds and returns the hex encoding, 32 characters long,
    of the digest of the contents of the entries that are not directories,
    concatenated in the order of the list; directories contribute nothing.
    The result is a function of these bytes only, so it is the same for
    unchanged files, and two lists get the same result exactly when the
    digests of their concatenations agree. *)
Theorem HashFiles_digest (disk : Disk) (files : list string) :
  Forall (readable disk) files ->
  HashFiles disk files = (hex (Sum128 (hashed_bytes disk files)), None) /\
  String.length (fst (HashFiles disk files)) = 32 /\
  (forall files', Forall (readable disk) files' ->
     (fst (HashFiles disk files) = fst (HashFiles disk files') <->
      Sum128 (hashed_bytes disk files) = Sum128 (hashed_bytes disk files'))).
Proof.
  intros Hall.
  assert (Hrun : forall l, Forall (readable disk) l ->
            HashFiles disk l = (hex (Sum128 (hashed_bytes disk l)), None)).
  { intros l Hl. unfold HashFiles. simpl. by rewrite hash_all_readable. }
  split; [by apply Hrun|]. split.
  - rewrite Hrun by done. simpl. by rewrite hex_length, Sum128_size.
  - intros files' Hall'. rewrite !Hrun by done. simpl. split.
    + apply hex_inj.
    + by intros ->.
Qed.


End Hasher.

(** * Concrete runs *)

(** The codec whose streams are the entry lists themselves. *)
#[local] Instance entries_codec : Codec :=
  {| stream := list File; no_data := [];
     encode := fun files => files; truncated := fun written _ => written;
     decode := fun s => (s, None) |}.

#[local] Instance entries_codec_faithful : FaithfulCodec entries_codec.
Proof. intros files. reflexivity. Qed.

(** BLAKE2b as RFC 7693 defines it, unkeyed: the function the package
    [golang.org/x/crypto/blake2b] computes.  Words are 64-bit integers with
    their wrap-around written out; [sum size data] is the digest of [size]
    bytes of [data]. *)
Module blake2b.
Local Open Scope Z_scope.

Definition w64 (z : Z) : Z := z mod 2 ^ 64.
Definition add64 (a b : Z) : Z := w64 (a + b).
Definition rotr64 (x n : Z) : Z := Z.lor (Z.shiftr x n) (w64 (Z.shiftl x (64 - n))).

Definition IV : list Z :=
  [0x6a09e667f3bcc908; 0xbb67ae8584caa73b; 0x3c6ef372fe94f82b; 0xa54ff53a5f1d36f1;
   0x510e527fade682d1; 0x9b05688c2b3e6c1f; 0x1f83d9abfb41bd6b; 0x5be0cd19137e2179].

Definition SIGMA : list (list nat) :=
  [[0; 1; 2; 3; 4; 5; 6; 7; 8; 9; 10; 11; 12; 13; 14; 15];
   [14; 10; 4; 8; 9; 15; 13; 6; 1; 12; 0; 2; 11; 7; 5; 3];
   [11; 8; 12; 0; 5; 2; 15; 13; 10; 14; 3; 6; 7; 1; 9; 4];
   [7; 9; 3; 1; 13; 12; 11; 14; 2; 6; 5; 10; 4; 0; 15; 8];
   [9; 0; 5; 7; 2; 4; 10; 15; 14; 1; 11; 12; 6; 8; 3; 13];
   [2; 12; 6; 10; 0; 11; 8; 3; 4; 13; 7; 5; 15; 14; 1; 9];
   [12; 5; 1; 15; 14; 13; 4; 10; 0; 7; 6; 3; 9; 2; 8; 11];
   [13; 11; 7; 14; 12; 1; 3; 9; 5; 0; 15; 4; 8; 6; 2; 10];
   [6; 15; 14; 9; 11; 3; 0; 8; 12; 2; 13; 7; 1; 4; 10; 5];
   [10; 2; 8; 4; 7; 6; 1; 5; 15; 11; 9; 14; 3; 12; 13; 0]]%nat.

Definition word (v : list Z) (i : nat) : Z := nth i v 0.

Definition G (v : list Z) (a b c d : nat) (x y : Z) : list Z :=
  let v := <[a := add64 (add64 (word v a) (word v b)) x]> v in
  let v := <[d := rotr64 (Z.lxor (word v d) (word v a)) 32]> v in
  let v := <[c := add64 (word v c) (word v d)]> v in
  let v := <[b := rotr64 (Z.lxor (word v b) (word v c)) 24]> v in
  let v := <[a := add64 (add64 (word v a) (word v b)) y]> v in
  let v := <[d := rotr64 (Z.lxor (word v d) (word v a)) 16]> v in
  let v := <[c := add64 (word v c) (word v d)]> v in
  <[b := rotr64 (Z.lxor (word v b) (word v c)) 63]> v.

Definition mix (m v : list Z) (s : list nat) : list Z :=
  let x i := word m (nth i s 0%nat) in
  let v := G v 0 4 8 12 (x 0%nat) (x 1%nat) in
  let v := G v 1 5 9 13 (x 2%nat) (x 3%nat) in
  let v := G v 2 6 10 14 (x 4%nat) (x 5%nat) in
  let v := G v 3 7 11 15 (x 6%nat) (x 7%nat) in
  let v := G v 0 5 10 15 (x 8%nat) (x 9%nat) in
  let v := G v 1 6 11 12 (x 10%nat) (x 11%nat) in
  let v := G v 2 7 8 13 (x 12%nat) (x 13%nat) in
  G v 3 4 9 14 (x 14%nat) (x 15%nat).

Definition le_word (bs : list byte) : Z :=
  fold_right (fun b acc => Z.of_N (Byte.to_N b) + 256 * acc) 0 bs.

Definition words (block : list byte) : list Z :=
  map (fun i => le_word (firstn 8 (skipn (8 * i) block))) (seq 0 16).

Definition F (h : list Z) (block : list byte) (t : Z) (final : bool) : list Z :=
  let m := words block in
  let v := h ++ IV in
  let v := <[12%nat := Z.lxor (word v 12) (w64 t)]> v in
  let v := <[13%nat := Z.lxor (word v 13) (w64 (Z.shiftr t 64))]> v in
  let v := if final then <[14%nat := Z.lxor (word v 14) (2 ^ 64 - 1)]> v else v in
  let v := fold_left (mix m) (SIGMA ++ firstn 2 SIGMA) v in
  map (fun i => Z.lxor (Z.lxor (word h i) (word v i)) (word v (i + 8))) (seq 0 8).

Fixpoint absorb (fuel : nat) (h : list Z) (t : Z) (data : list byte) : list Z :=
  match fuel with
  | S fuel' =>
      if (128 <? length data)%nat then
        absorb fuel' (F h (firstn 128 data) (t + 128) false) (t + 128) (skipn 128 data)
      else F h (data ++ repeat x00%byte (128 - length data)) (t + Z.of_nat (length data)) true
  | O => F h (data ++ repeat x00%byte (128 - length data)) (t + Z.of_nat (length data)) true
  end.

Definition byte_of (z : Z) : byte :=
  match Byte.of_N (Z.to_N (z mod 256)) with Some b => b | None => x00%byte end.

Definition sum (size : nat) (data : list byte) : list byte :=
  let h := <[0%nat := Z.lxor (word IV 0) (Z.lxor 0x01010000 (Z.of_nat size))]> IV in
  let h := absorb (length data) h 0 data in
  map (fun i => byte_of (Z.shiftr (word h (i / 8)) (8 * Z.of_nat (i mod 8)))) (seq 0 size).

End blake2b.

#[local] Program Instance blake2b_128 : Blake2b :=
  {| Sum128 := blake2b.sum 16 |}.
Next Obligation.
  intros written. unfold blake2b.sum. by rewrite length_map, length_seq.
Qed.

(** The digests of the empty input and of [abc], as the reference
    implementation gives them. *)
Example blake2b_vectors :
  hex (blake2b.sum 64 []) =
    "786a02f742015903c6c6fd852552d272912f4740e15847618a86e217f71f5419d25e1031afee585313896444934eb04b903a685b1448b755d56f701afe9be2ce" /\
  hex (blake2b.sum 64 [x61; x62; x63]%byte) =
    "ba80a53f981c4d0d6a2797b69f12f6e94c212f14685ac4b74b12bb6fdbffa2d17d87c5392aab792dc252d5de4533cc9518d38aa8dbf1925ab92386edd4009923" /\
  hex (blake2b.sum 16 []) = "cae66941d9efbd404e4d88758ea67670".
Proof. split; [vm_compute; reflexivity|]. split; vm_compute; reflexivity. Qed.

Definition no_faults : Event -> option error := fun _ => None.

Definition quiet (win : bool) : Env :=
  {| faults := no_faults; windows := win; now := 1700000000;
     concurrent := fun st => st |}.

Definition empty_fs : FS := {| names := ∅; inodes := ∅; next_ino := 0 |}.

Definition object (bucket name : string) (t : Z) (files : list File) : Object :=
  {| attrs := {| Bucket := bucket; Name := name; Updated := t;
                 ContentType := contentType; CacheControl := cacheControl |};
     data := files |}.

Definition entry (name : string) (flag : ascii) (link : string) (m : N)
    (bytes : list byte) : File :=
  {| NameInArchive := name; Typeflag := flag; Linkname := link; Mode := m;
     Content := bytes |}.

Definition restore_k : RestoreRequest.t :=
  {| RestoreRequest.Bucket := "b"; RestoreRequest.Keys := ["k"];
     RestoreRequest.Dir := "out" |}.

Definition save_k : SaveRequest.t :=
  {| SaveRequest.Bucket := "b"; SaveRequest.Key := "k"; SaveRequest.Dir := "src" |}.

(** An archive whose first entry has a type the handler does not know
    (type [7], a contiguous file), followed by a regular file. *)
Definition unsupported_archive : list File :=
  [entry "dev" "7" EmptyString 420 []; entry "a" TypeReg EmptyString 420 [x01%byte]].

Definition w_unsupported : World :=
  {| env := quiet false; fs := empty_fs;
     store := [object "b" "k" 10 unsupported_archive]; log := [] |}.

(** A world in which the file system refuses every [os.Create]. *)
Definition w_denied : World :=
  {| env := {| faults := fun ev => match ev with
                                   | EvCreate _ => Some (PathError "open" "permission denied")
                                   | _ => None
                                   end;
               windows := false; now := 1700000000; concurrent := fun st => st |};
     fs := empty_fs;
     store := [object "b" "k" 10 [entry "a" TypeReg EmptyString 420 [x01%byte]]];
     log := [] |}.

(** C1. [Restore] returns [nil] although the extraction failed.  On an
    archive whose first entry has an unsupported type the handler returns
    its [unknown type flag] error, the extraction stops there (the regular
    file that follows is never written), and [Restore], which has reached
    the extraction (the reader was opened), returns success; likewise when
    [os.Create] fails for the only entry. *)
Theorem Restore_drops_extraction_error :
  fst (Extract unsupported_archive (handler "out") w_unsupported) =
    Some (errorString "%s: unknown type flag: %c" [AStr "dev"; AChar "7"]) /\
  log (snd (Restore (Some restore_k) w_unsupported)) =
    [EvObjects "b" "k"; EvMkdirAll ["out"] 493; EvNewReader "b" "k";
     EvCloseReader "b" "k"] /\
  stat (fs (snd (Restore (Some restore_k) w_unsupported))) ["out"; "a"] = None /\
  fst (Restore (Some restore_k) w_unsupported) = None /\
  fst (handler "out" (entry "a" TypeReg EmptyString 420 [x01%byte]) w_denied) =
    Some (errorString "%s: creating new file: %v"
            [AStr "out/a"; AErr (PathError "open" "permission denied")]) /\
  log (snd (Restore (Some restore_k) w_denied)) =
    [EvObjects "b" "k"; EvMkdirAll ["out"] 493; EvNewReader "b" "k";
     EvMkdirAll ["out"] 493; EvCreate ["out"; "a"]; EvCloseReader "b" "k"] /\
  fst (Restore (Some restore_k) w_denied) = None.
Proof.
  split; [vm_compute; reflexivity|]. split; [vm_compute; reflexivity|].
  split; [vm_compute; reflexivity|]. split; [vm_compute; reflexivity|].
  split; [vm_compute; reflexivity|]. split; vm_compute; reflexivity.
Qed.

(** A source tree [src] with one file, and a store in which another process
    creates the object [k] after the probe of [Save] and before its commit. *)
Definition src_fs : FS :=
  {| names := <[ ["src"; "a"] := NFile 0 ]> (<[ ["src"] := NDir 493 ]> ∅);
     inodes := <[ 0%nat := {| perm := 420; content := [x01%byte] |} ]> ∅;
     next_ino := 1 |}.

Definition w_race : World :=
  {| env := {| faults := no_faults; windows := false; now := 1700000000;
               concurrent := fun st => st ++ [object "b" "k" 1699999999 []] |};
     fs := src_fs; store := []; log := [] |}.

(** C2 fails on the code: the probe finds nothing, another process creates
    the key before the commit, the store rejects the commit for the
    precondition with status 412, and [Save] returns that rejection as an
    error instead of success. *)
Lemma Save_precondition_failed_is_an_error :
  find_object (store w_race) "b" "k" = None /\
  is_PreconditionFailed (googleapiError StatusPreconditionFailed) = true /\
  fst (Save (Some save_k) w_race) =
    Some (wrapError "failed to close gcs writer: %w"
            [AErr (googleapiError StatusPreconditionFailed)]
            (googleapiError StatusPreconditionFailed)) /\
  fst (Save (Some save_k) w_race) <> None.
Proof.
  split; [vm_compute; reflexivity|]. split; [vm_compute; reflexivity|].
  split; [vm_compute; reflexivity|]. vm_compute. discriminate.
Qed.

Lemma Save_reports_every_close_error_witness :
  exists e, fst (Save (Some save_k) w_race) = Some e /\
            errors_Unwrap e = Some (googleapiError StatusPreconditionFailed).
Proof.
  apply (Save_reports_every_close_error save_k w_race
           (googleapiError StatusPreconditionFailed)).
  - split; [discriminate|]. split; discriminate.
  - reflexivity.
  - reflexivity.
  - right. split; [reflexivity|]. split; [|reflexivity]. vm_compute. by eexists.
Defined.

(** A world whose store already holds the key. *)
Definition w_cached : World :=
  {| env := quiet false; fs := src_fs; store := [object "b" "k" 10 []]; log := [] |}.

Lemma Save_idempotent_witness :
  (forall o, find_object (store w_cached) "b" "k" = Some o ->
     Save (Some save_k) w_cached = (None, add_log w_cached [EvAttrs "b" "k"])) /\
  (fst (Save (Some save_k) w_cached) = None \/
   faults (env w_cached) (EvCloseWriter "b" "k") = None ->
   Save (Some save_k) (snd (Save (Some save_k) w_cached)) =
     (None, add_log (snd (Save (Some save_k) w_cached)) [EvAttrs "b" "k"])).
Proof.
  apply (Save_idempotent save_k w_cached).
  - split; [discriminate|]. split; discriminate.
  - reflexivity.
Defined.

(** Two objects under the prefix [k], the second one newer, and one object
    elsewhere. *)
Definition w_two : World :=
  {| env := quiet false; fs := empty_fs;
     store := [object "b" "k-1" 10 []; object "b" "k-2" 20 []; object "b" "z" 30 []];
     log := [] |}.

Definition restore_prefix_k : RestoreRequest.t :=
  {| RestoreRequest.Bucket := "b"; RestoreRequest.Keys := ["k"];
     RestoreRequest.Dir := "out" |}.

Lemma Restore_resolves_newest_witness :
  exists best,
    find_match "b" ["k"] None w_two = ((best, None), add_log w_two [EvObjects "b" "k"]) /\
    (best = None <-> candidates (store w_two) "b" ["k"] = []) /\
    (forall m, best = Some m ->
       exists l1 l2,
         candidates (store w_two) "b" ["k"] = l1 ++ m :: l2 /\
         (forall a, In a l1 -> (Updated a < Updated m)%Z) /\
         (forall a, In a l2 -> (Updated a <= Updated m)%Z)) /\
    (forall m o k, best = Some m -> In o (store w_two) -> In k ["k"] ->
       has_prefix "b" k o = true -> (Updated (attrs o) <= Updated m)%Z) /\
    Restore (Some restore_prefix_k) w_two =
      match best with
      | None =>
          (Some (errorString "failed to find cached objects among keys %q" [AStrs ["k"]]),
           add_log w_two [EvObjects "b" "k"])
      | Some m => restore_match "b" "out" m (add_log w_two [EvObjects "b" "k"])
      end.
Proof.
  apply (Restore_resolves_newest restore_prefix_k w_two).
  - split; [discriminate|]. split; discriminate.
  - intros k _. reflexivity.
Defined.

(** Newest wins: of [k-1] (updated at 10) and [k-2] (updated at 20) the
    resolver picks [k-2]; the newer object [z] does not match the key. *)
Example newest_wins :
  fst (find_match "b" ["k"] None w_two) = (Some (attrs (object "b" "k-2" 20 [])), None).
Proof. vm_compute. reflexivity. Qed.

Definition restore_nope : RestoreRequest.t :=
  {| RestoreRequest.Bucket := "b"; RestoreRequest.Keys := ["nope"; "nada"];
     RestoreRequest.Dir := "out" |}.

Lemma Restore_not_found_witness :
  Restore (Some restore_nope) w_two =
    (Some (errorString "failed to find cached objects among keys %q"
             [AStrs ["nope"; "nada"]]),
     add_log w_two [EvObjects "b" "nope"; EvObjects "b" "nada"]).
Proof.
  apply (Restore_not_found restore_nope w_two).
  - split; [discriminate|]. split; discriminate.
  - intros k _. reflexivity.
  - intros o k Ho Hk. simpl in Ho, Hk.
    destruct Hk as [<-|[<-|[]]]; destruct Ho as [<-|[<-|[<-|[]]]]; reflexivity.
Defined.

(** An archive with a regular file and a hard link to it. *)
Definition link_archive : list File :=
  [entry "a" TypeReg EmptyString 420 [x01%byte]; entry "b" TypeLink "a" 420 []].

Definition w_link : World :=
  {| env := quiet false; fs := empty_fs;
     store := [object "b" "k" 10 link_archive]; log := [] |}.

(** C4. For the hard-link entry [b] recorded with target [a], restored into
    [out], the handler asks for a link from [out/b/a], the target joined to
    the entry's own path, and not from [out/a], the target under the root of
    the destination.  That name does not exist, so the call fails and no
    link is made, although [out/a] was extracted before and a link from it
    would have succeeded. *)
Theorem hardlink_target_joined_to_entry_path :
  fst (handler "out" (entry "b" TypeLink "a" 420 [])
         (snd (handler "out" (entry "a" TypeReg EmptyString 420 [x01%byte]) w_link))) =
    Some (errorString "%s: making symbolic link for: %v"
            [AStr "out/b"; AErr (PathError "link" ENOENT)]) /\
  log (snd (Restore (Some restore_k) w_link)) =
    [EvObjects "b" "k"; EvMkdirAll ["out"] 493; EvNewReader "b" "k";
     EvMkdirAll ["out"] 493; EvCreate ["out"; "a"]; EvChmod ["out"; "a"] 420;
     EvOpenEntry "a"; EvCopy ["out"; "a"] [x01%byte]; EvCloseFile ["out"; "a"];
     EvMkdirAll ["out"] 493; EvLink ["out"; "b"; "a"] ["out"; "b"];
     EvCloseReader "b" "k"] /\
  stat (fs (snd (Restore (Some restore_k) w_link))) ["out"; "a"] =
    Some (VFile 420 [x01%byte]) /\
  stat (fs (snd (Restore (Some restore_k) w_link))) ["out"; "b"] = None /\
  snd (fs_Link (fs (snd (Restore (Some restore_k) w_link))) ["out"; "a"] ["out"; "b"]) =
    None /\
  stat (fst (fs_Link (fs (snd (Restore (Some restore_k) w_link)))
               ["out"; "a"] ["out"; "b"])) ["out"; "b"] =
    Some (VFile 420 [x01%byte]).
Proof.
  split; [vm_compute; reflexivity|]. split; [vm_compute; reflexivity|].
  split; [vm_compute; reflexivity|]. split; [vm_compute; reflexivity|].
  split; vm_compute; reflexivity.
Qed.

Definition w_empty (win : bool) : World :=
  {| env := quiet win; fs := empty_fs; store := []; log := [] |}.

(** C5 fails on the code: for a regular entry the mode is applied before the
    content is copied, not after it; and on windows the mode is still
    applied, only a failure of it is passed over. *)
Lemma regular_entry_chmod_precedes_copy :
  log (snd (handler "out" (entry "a" TypeReg EmptyString 420 [x01%byte]) (w_empty false))) =
    [EvMkdirAll ["out"] 493; EvCreate ["out"; "a"]; EvChmod ["out"; "a"] 420;
     EvOpenEntry "a"; EvCopy ["out"; "a"] [x01%byte]; EvCloseFile ["out"; "a"]] /\
  ~ (exists l1 l2 l3,
       log (snd (handler "out" (entry "a" TypeReg EmptyString 420 [x01%byte])
                   (w_empty false))) =
         l1 ++ EvCopy ["out"; "a"] [x01%byte] :: l2 ++ EvChmod ["out"; "a"] 420 :: l3) /\
  log (snd (handler "out" (entry "a" TypeReg EmptyString 420 [x01%byte]) (w_empty true))) =
    [EvMkdirAll ["out"] 493; EvCreate ["out"; "a"]; EvChmod ["out"; "a"] 420;
     EvOpenEntry "a"; EvCopy ["out"; "a"] [x01%byte]; EvCloseFile ["out"; "a"]].
Proof.
  split; [vm_compute; reflexivity|]. split; [|vm_compute; reflexivity].
  intros (l1 & l2 & l3 & H).
  assert (Hlog : log (snd (handler "out" (entry "a" TypeReg EmptyString 420 [x01%byte])
                             (w_empty false))) =
                 [EvMkdirAll ["out"] 493; EvCreate ["out"; "a"]; EvChmod ["out"; "a"] 420;
                  EvOpenEntry "a"; EvCopy ["out"; "a"] [x01%byte]; EvCloseFile ["out"; "a"]])
    by (vm_compute; reflexivity).
  rewrite Hlog in H. clear Hlog.
  do 4 (destruct l1 as [|? l1]; [discriminate H|injection H as _ H]).
  destruct l1 as [|? l1].
  - injection H as H. destruct l2 as [|? l2]; [discriminate H|injection H as _ H].
    destruct l2; discriminate H.
  - injection H as _ H. destruct l1 as [|? l1]; [discriminate H|injection H as _ H].
    destruct l1; discriminate H.
Qed.

(** A world, not on windows, in which the file system refuses every change
    of mode. *)
Definition w_chmod_denied : World :=
  {| env := {| faults := fun ev => match ev with
                                   | EvChmod _ _ => Some (PathError "chmod" EPERM)
                                   | _ => None
                                   end;
               windows := false; now := 1700000000; concurrent := fun st => st |};
     fs := empty_fs; store := []; log := [] |}.

Lemma handler_regular_steps_witness :
  handler "out" (entry "a" TypeReg EmptyString 420 [x01%byte]) (w_empty true) =
    (None,
     upd (w_empty true)
       (fs_Write
          (fs_Chmod (fst (fs_Create (fst (fs_MkdirAll empty_fs ["out"] 493)) ["out"; "a"]))
             0 420) 0 [x01%byte])
       [EvMkdirAll ["out"] 493; EvCreate ["out"; "a"]; EvChmod ["out"; "a"] 420;
        EvOpenEntry "a"; EvCopy ["out"; "a"] [x01%byte]; EvCloseFile ["out"; "a"]]) /\
  handler "out" (entry "a" TypeReg EmptyString 420 [x01%byte]) w_chmod_denied =
    (Some (errorString "%s: changing file mode: %v"
             [show ["out"; "a"]; AErr (PathError "chmod" EPERM)]),
     upd w_chmod_denied
       (fst (fs_Create (fst (fs_MkdirAll empty_fs ["out"] 493)) ["out"; "a"]))
       [EvMkdirAll ["out"] 493; EvCreate ["out"; "a"]; EvChmod ["out"; "a"] 420;
        EvCloseFile ["out"; "a"]]).
Proof.
  split.
  - apply (handler_regular_steps "out" (entry "a" TypeReg EmptyString 420 [x01%byte])
             (w_empty true) (fst (fs_MkdirAll empty_fs ["out"] 493))
             (fst (fs_Create (fst (fs_MkdirAll empty_fs ["out"] 493)) ["out"; "a"])) 0);
      try (vm_compute; reflexivity).
    left. reflexivity.
  - apply (handler_regular_steps "out" (entry "a" TypeReg EmptyString 420 [x01%byte])
             w_chmod_denied (fst (fs_MkdirAll empty_fs ["out"] 493))
             (fst (fs_Create (fst (fs_MkdirAll empty_fs ["out"] 493)) ["out"; "a"])) 0);
      try (vm_compute; reflexivity).
Defined.

(** A disk with a directory [d] and two files. *)
Definition small_disk : Disk := fun name =>
  if String.eqb name "d" then
    inr {| Stat := inr true; Read := ([], Some (ioError "read d: is a directory"));
           Close := None |}
  else if String.eqb name "f1" then
    inr {| Stat := inr false; Read := ([x01; x02]%byte, None); Close := None |}
  else if String.eqb name "f2" then
    inr {| Stat := inr false; Read := ([x03]%byte, None); Close := None |}
  else inl (PathError "open" ENOENT).

Lemma small_disk_readable : Forall (readable small_disk) ["f1"; "d"; "f2"].
Proof.
  repeat constructor.
  - eexists. split; [reflexivity|]. split; [|reflexivity].
    exists false. split; [reflexivity|]. reflexivity.
  - eexists. split; [reflexivity|]. split; [|reflexivity].
    exists true. split; [reflexivity|]. discriminate.
  - eexists. split; [reflexivity|]. split; [|reflexivity].
    exists false. split; [reflexivity|]. reflexivity.
Defined.

Lemma HashFiles_digest_witness :
  HashFiles small_disk ["f1"; "d"; "f2"] =
    (hex (Sum128 (hashed_bytes small_disk ["f1"; "d"; "f2"])), None) /\
  String.length (fst (HashFiles small_disk ["f1"; "d"; "f2"])) = 32 /\
  (forall files', Forall (readable small_disk) files' ->
     (fst (HashFiles small_disk ["f1"; "d"; "f2"]) = fst (HashFiles small_disk files') <->
      Sum128 (hashed_bytes small_disk ["f1"; "d"; "f2"]) =
      Sum128 (hashed_bytes small_disk files'))).
Proof.
  apply (HashFiles_digest small_disk ["f1"; "d"; "f2"]). exact small_disk_readable.
Defined.

(** The directory is skipped, and the order of the files matters. *)
Example HashFiles_skips_directory :
  HashFiles small_disk ["f1"; "d"; "f2"] = HashFiles small_disk ["f1"; "f2"] /\
  HashFiles small_disk ["f1"; "f2"] = ("3918c58061547dffc0618e6bf1d46ea2", None) /\
  HashFiles small_disk ["f2"; "f1"] = ("1a84fded261534f908d3fb79251e0c67", None) /\
  HashFiles small_disk [] = ("cae66941d9efbd404e4d88758ea67670", None).
Proof.
  split; [vm_compute; reflexivity|]. split; [vm_compute; reflexivity|].
  split; vm_compute; reflexivity.
Qed.

(** A disk with a file [f] that opens and stats but whose read breaks off,
    and a directory [d] that opens and stats but cannot be closed. *)
Definition broken_disk : Disk := fun name =>
  if String.eqb name "f" then
    inr {| Stat := inr false; Read := ([x01%byte], Some (ioError "input/output error"));
           Close := None |}
  else if String.eqb name "d" then
    inr {| Stat := inr true; Read := ([], None); Close := Some (ioError "close failed") |}
  else inl (PathError "open" ENOENT).

(** C9 fails on the code: entries that can be opened and statted do not
    make [HashFiles] succeed.  A read that breaks off after a good [Stat]
    fails the hash, and so does a failing [Close], even that of a
    directory, which is never read. *)
Lemma HashFiles_fails_after_open_and_stat :
  (exists o, broken_disk "f" = inr o /\ Stat o = inr false) /\
  (exists o, broken_disk "d" = inr o /\ Stat o = inr true) /\
  HashFiles broken_disk ["f"] =
    (EmptyString,
     Some (wrapError "failed to hash %s: %w"
             [AStr "f";
              AErr (wrapError "failed to hash: %w" [AErr (ioError "input/output error")]
                      (ioError "input/output error"))]
             (wrapError "failed to hash: %w" [AErr (ioError "input/output error")]
                (ioError "input/output error")))) /\
  HashFiles broken_disk ["d"] =
    (EmptyString,
     Some (wrapError "failed to hash %s: %w"
             [AStr "d";
              AErr (wrapError "failed to close file: %w" [AErr (ioError "close failed")]
                      (ioError "close failed"))]
             (wrapError "failed to close file: %w" [AErr (ioError "close failed")]
                (ioError "close failed")))).
Proof.
  split; [eexists; split; reflexivity|]. split; [eexists; split; reflexivity|].
  split; vm_compute; reflexivity.
Qed.

(** * The round trip of a directory tree *)

Section PathFacts.

Fixpoint no_slash (s : string) : bool :=
  match s with
  | EmptyString => true
  | String c s' => negb (Ascii.eqb c slash) && no_slash s'
  end.

(** A name the file system can hold in a directory. *)
Definition is_name (c : string) : bool :=
  negb (String.eqb c EmptyString) && negb (String.eqb c ".")
  && negb (String.eqb c "..") && no_slash c.

Lemma elements_cons (x s : string) :
  no_slash x = true -> elements (x +:+ String slash s) = x :: elements s.
Proof.
  induction x as [|c x IH]; simpl; intros H.
  - reflexivity.
  - apply andb_true_iff in H as [Hc Hx]. apply negb_true_iff in Hc.
    rewrite Hc, (IH Hx). reflexivity.
Qed.

Lemma elements_single (x : string) : no_slash x = true -> elements x = [x].
Proof.
  induction x as [|c x IH]; simpl; intros H; [reflexivity|].
  apply andb_true_iff in H as [Hc Hx]. apply negb_true_iff in Hc.
  rewrite Hc, (IH Hx). reflexivity.
Qed.

Lemma is_name_no_slash (c : string) : is_name c = true -> no_slash c = true.
Proof. unfold is_name. intros H. by apply andb_true_iff in H as [_ H]. Qed.


Lemma clean_step_name (acc : list string) (c : string) :
  is_name c = true -> clean_step acc c = c :: acc.
Proof.
  unfold is_name, clean_step. intros H.
  apply andb_true_iff in H as [H _]. apply andb_true_iff in H as [H H3].
  apply andb_true_iff in H as [H1 H2].
  apply negb_true_iff in H1, H2, H3. by rewrite H1, H2, H3.
Qed.

Lemma fold_clean_names (rel acc : list string) :
  forallb is_name rel = true -> fold_left clean_step rel acc = rev rel ++ acc.
Proof.
  revert acc. induction rel as [|c rel IH]; intros acc H; [reflexivity|].
  simpl in H. apply andb_true_iff in H as [Hc Hrel]. simpl.
  rewrite (clean_step_name _ _ Hc), (IH _ Hrel), <- app_assoc. reflexivity.
Qed.


(** A list of proper names is clean. *)
Lemma clean_names (p : path) : forallb is_name p = true -> filepath_Clean p = p.
Proof.
  intros H. unfold filepath_Clean. rewrite fold_clean_names by done.
  by rewrite app_nil_r, rev_involutive.
Qed.



















Lemma strip_root_Some (root p rel : path) :
  strip_root root p = Some rel <-> p = root ++ rel.
Proof.
  revert p. induction root as [|r root IH]; intros p; simpl.
  - split; [by intros [= ->]|by intros ->].
  - destruct p as [|c p]; [split; [done|discriminate]|].
    destruct (String.eqb_spec r c) as [->|Hne].
    + rewrite IH. split; [by intros ->|by intros [= ->]].
    + split; [done|]. intros [= -> _]. done.
Qed.

Lemma removelast_snoc (p : path) (c : string) : removelast (p ++ [c]) = p.
Proof. apply removelast_last. Qed.


End PathFacts.

Section FileSystemFacts.

(** What a well-formed file system satisfies at each of its names: the
    elements of the name are proper names, its parent is a directory, and a
    file has an inode below the allocation mark. *)
Definition check_name (cur : FS) (p : path) (n : node) : bool :=
  match p with [] => false | _ => true end
  && forallb is_name p
  && is_dir cur (filepath_Dir p)
  && match n with
     | NFile i =>
         match inodes cur !! i with
         | Some _ => Nat.ltb i (next_ino cur)
         | None => false
         end
     | _ => true
     end.

Definition wf_fs (cur : FS) : bool :=
  forallb (fun pn : path * node => check_name cur (fst pn) (snd pn))
    (map_to_list (names cur)).

Lemma wf_fs_lookup (cur : FS) (p : path) (n : node) :
  wf_fs cur = true -> names cur !! p = Some n -> check_name cur p n = true.
Proof.
  intros Hwf Hp. unfold wf_fs in Hwf. rewrite forallb_forall in Hwf.
  apply (Hwf (p, n)). apply list_elem_of_In. by apply elem_of_map_to_list.
Qed.

Lemma app_ne_self (p r : path) : r <> [] -> p ++ r <> p.
Proof.
  intros Hr H. apply Hr. apply (app_inv_head p). by rewrite app_nil_r.
Qed.

(** In a well-formed file system every name above a name is a directory. *)
Lemma ancestors_are_dirs (cur : FS) (root : path) :
  wf_fs cur = true ->
  forall (r2 r1 : path) (n : node),
    r1 <> [] -> r2 <> [] ->
    names cur !! (root ++ r1 ++ r2) = Some n ->
    exists m, names cur !! (root ++ r1) = Some (NDir m).
Proof.
  intros Hwf r2. induction r2 as [|c r2 IH] using rev_ind; intros r1 n Hr1 Hr2 Hn.
  - done.
  - pose proof (wf_fs_lookup _ _ _ Hwf Hn) as Hc. unfold check_name in Hc.
    apply andb_true_iff in Hc as [Hc _]. apply andb_true_iff in Hc as [_ Hd].
    assert (Hdir : filepath_Dir (root ++ r1 ++ r2 ++ [c]) = root ++ r1 ++ r2).
    { unfold filepath_Dir. rewrite !app_assoc. apply removelast_last. }
    rewrite Hdir in Hd. unfold is_dir in Hd.
    destruct (root ++ r1 ++ r2) as [|x l] eqn:E.
    { destruct root; [destruct r1; [done|discriminate]|discriminate]. }
    rewrite <- E in Hd.
    destruct (names cur !! (root ++ r1 ++ r2)) as [[m| |]|] eqn:En; try discriminate.
    destruct r2 as [|c' r2'] using rev_ind.
    + rewrite app_nil_r in En. by exists m.
    + apply (IH r1 (NDir m)); [done| |done]. by destruct r2'.
Qed.

Lemma mkdir_all_spec (m : N) (rest : path) :
  forall (nm : gmap path node) (pre : path),
    (forall r1 r2, rest = r1 ++ r2 -> r1 <> [] ->
       nm !! (pre ++ r1) = None \/ exists m', nm !! (pre ++ r1) = Some (NDir m')) ->
    exists nm',
      mkdir_all nm pre rest m = (nm', None) /\
      (forall q, nm' !! q = nm !! q \/
                 (nm !! q = None /\ nm' !! q = Some (NDir m) /\
                  exists r1 r2, rest = r1 ++ r2 /\ r1 <> [] /\ q = pre ++ r1)) /\
      (forall r1 r2, rest = r1 ++ r2 -> r1 <> [] ->
         exists m', nm' !! (pre ++ r1) = Some (NDir m')).
Proof.
  induction rest as [|c rest IH]; intros nm pre H.
  - exists nm. split; [reflexivity|]. split; [by left|].
    intros r1 r2 E Hr1. symmetry in E. apply app_eq_nil in E as [-> _]. done.
  - simpl.
    assert (Hstep : forall nm1 : gmap path node,
              (forall q, q <> pre ++ [c] -> nm1 !! q = nm !! q) ->
              forall r1 r2, rest = r1 ++ r2 -> r1 <> [] ->
                nm1 !! ((pre ++ [c]) ++ r1) = None \/
                exists m', nm1 !! ((pre ++ [c]) ++ r1) = Some (NDir m')).
    { intros nm1 Hnm1 r1 r2 E Hr1. rewrite Hnm1 by (by apply app_ne_self).
      rewrite <- app_assoc. simpl. apply (H (c :: r1) r2); [by rewrite E|done]. }
    assert (Hlift : forall nm1 nm' : gmap path node,
              (forall q, q <> pre ++ [c] -> nm1 !! q = nm !! q) ->
              (exists m0, nm1 !! (pre ++ [c]) = Some (NDir m0)) ->
              (nm1 !! (pre ++ [c]) = nm !! (pre ++ [c]) \/
               (nm !! (pre ++ [c]) = None /\ nm1 !! (pre ++ [c]) = Some (NDir m))) ->
              (forall q, nm' !! q = nm1 !! q \/
                 (nm1 !! q = None /\ nm' !! q = Some (NDir m) /\
                  exists r1 r2, rest = r1 ++ r2 /\ r1 <> [] /\ q = (pre ++ [c]) ++ r1)) ->
              (forall r1 r2, rest = r1 ++ r2 -> r1 <> [] ->
                 exists m', nm' !! ((pre ++ [c]) ++ r1) = Some (NDir m')) ->
              (forall q, nm' !! q = nm !! q \/
                 (nm !! q = None /\ nm' !! q = Some (NDir m) /\
                  exists r1 r2, c :: rest = r1 ++ r2 /\ r1 <> [] /\ q = pre ++ r1)) /\
              (forall r1 r2, c :: rest = r1 ++ r2 -> r1 <> [] ->
                 exists m', nm' !! (pre ++ r1) = Some (NDir m'))).
    { intros nm1 nm' Hnm1 [m0 Hq0] Hq0' Ha Hb. split.
      - intros q. destruct (decide (q = pre ++ [c])) as [->|Hq].
        + destruct (Ha (pre ++ [c])) as [E|(E & _)]; [|congruence].
          destruct Hq0' as [E'|(E1 & E2)].
          * left. congruence.
          * right. split; [done|]. split; [congruence|].
            exists [c], rest. split; [reflexivity|]. split; [discriminate|reflexivity].
        + destruct (Ha q) as [E|(E1 & E2 & r1 & r2 & -> & Hr1 & ->)].
          * left. rewrite E. by apply Hnm1.
          * right. split; [by rewrite <- Hnm1|]. split; [done|].
            exists (c :: r1), r2. split; [reflexivity|]. split; [discriminate|].
            by rewrite <- app_assoc.
      - intros r1 r2 E Hr1. destruct r1 as [|c' r1]; [done|].
        injection E as -> ->. destruct r1 as [|c'' r1].
        + destruct (Ha (pre ++ [c'])) as [E|(E & _)]; [|congruence].
          exists m0. congruence.
        + destruct (Hb (c'' :: r1) r2 eq_refl) as [m' Hm']; [discriminate|].
          exists m'. rewrite <- app_assoc in Hm'. exact Hm'. }
    destruct (H [c] rest eq_refl) as [Hn|[m0 Hn]]; [discriminate| |]; rewrite Hn.
    + set (nm1 := <[pre ++ [c] := NDir m]> nm).
      assert (Hnm1 : forall q, q <> pre ++ [c] -> nm1 !! q = nm !! q)
        by (intros q Hq; unfold nm1; by rewrite lookup_insert_ne).
      assert (Hq0 : nm1 !! (pre ++ [c]) = Some (NDir m))
        by (unfold nm1; by rewrite lookup_insert_eq).
      destruct (IH nm1 (pre ++ [c]) (Hstep nm1 Hnm1)) as (nm' & Hrun & Ha & Hb).
      exists nm'. split; [exact Hrun|].
      apply (Hlift nm1 nm'); eauto.
    + destruct (IH nm (pre ++ [c]) (Hstep nm (fun _ _ => eq_refl))) as (nm' & Hrun & Ha & Hb).
      exists nm'. split; [exact Hrun|].
      apply (Hlift nm nm'); eauto.
Qed.

Lemma mkdir_all_success (m : N) (rest : path) :
  forall (nm nm' : gmap path node) (pre : path),
    mkdir_all nm pre rest m = (nm', None) ->
    forall r1 r2, rest = r1 ++ r2 -> r1 <> [] ->
      nm !! (pre ++ r1) = None \/ exists m', nm !! (pre ++ r1) = Some (NDir m').
Proof.
  induction rest as [|c rest IH]; intros nm nm' pre Hrun r1 r2 E Hr1.
  - symmetry in E. apply app_eq_nil in E as [-> _]. done.
  - simpl in Hrun. destruct r1 as [|c' r1]; [done|]. injection E as <- E.
    destruct (nm !! (pre ++ [c])) as [[m0|i|t]|] eqn:Hq; try discriminate.
    + destruct r1 as [|c'' r1]; [right; by exists m0|].
      replace (pre ++ c :: c'' :: r1) with ((pre ++ [c]) ++ c'' :: r1)
        by (by rewrite <- app_assoc).
      by apply (IH nm nm' (pre ++ [c]) Hrun (c'' :: r1) r2).
    + destruct r1 as [|c'' r1]; [by left|].
      replace (pre ++ c :: c'' :: r1) with ((pre ++ [c]) ++ c'' :: r1)
        by (by rewrite <- app_assoc).
      destruct (IH _ nm' (pre ++ [c]) Hrun (c'' :: r1) r2 E ltac:(done)) as [H|[m' H]];
        rewrite lookup_insert_ne in H by (symmetry; by apply app_ne_self); eauto.
Qed.

End FileSystemFacts.

Section Extraction.
Context {codec : Codec}.

(** The tree that was archived, as the archive names it: [T rel] is the
    node archived under the name with the elements [rel], the content of
    its files is in [src]; and the directory [dst] it is extracted into, on
    a platform [win]. *)
Variables (src : FS) (T : path -> option node) (dst : string) (win : bool).
Hypothesis T_names : forall rel n, T rel = Some n -> forallb is_name rel = true.
Hypothesis T_ancestors : forall r1 r2 n,
  T (r1 ++ r2) = Some n -> r1 <> [] -> r2 <> [] -> exists m, T r1 = Some (NDir m).
Hypothesis T_root : forall n, T [] = Some n -> exists m, n = NDir m.

Let D : path := to_path dst.













(** An environment in which nothing fails but, on windows, a change of
    mode, and in which no other process writes to the store. *)
Definition quiet_env (E : Env) : Prop :=
  (forall st, concurrent E st = st) /\
  (forall ev e, faults E ev = Some e ->
     windows E = true /\ exists p m, ev = EvChmod p m).

Lemma quiet_fault (E : Env) (ev : Event) :
  quiet_env E -> (forall p m, ev <> EvChmod p m) -> faults E ev = None.
Proof.
  intros [_ Hq] Hne. destruct (faults E ev) as [e|] eqn:Ef; [|reflexivity].
  destruct (Hq _ _ Ef) as [_ (p & m & ->)]. by destruct (Hne p m).
Qed.





Lemma omap_step {A B : Type} (g : A -> option B) (x : A) (l : list A) :
  omap g (x :: l) = match g x with Some y => y :: omap g l | None => omap g l end.
Proof. reflexivity. Qed.



End Extraction.


Section RoundTrip.
Context {codec : Codec}.

(** What [stat] shows of a node. *)
Definition view (cur : FS) (n : option node) : option vnode :=
  match n with
  | Some (NDir m) => Some (VDir m)
  | Some (NFile i) =>
      match inodes cur !! i with
      | Some f => Some (VFile (perm f) (content f))
      | None => None
      end
  | Some (NSymlink t) => Some (VSymlink t)
  | None => None
  end.

Lemma stat_view (cur : FS) (p : path) : stat cur p = view cur (names cur !! p).
Proof. reflexivity. Qed.


(** *** The tree that the walk of a directory archives *)






Lemma In_walk_list (src : FS) (p : path) (n : node) :
  In (p, n) (walk_list src) <-> names src !! p = Some n.
Proof.
  rewrite <- elem_of_map_to_list, <- list_elem_of_In. unfold walk_list.
  by rewrite merge_sort_Permutation.
Qed.




Section Archived.
Variables (src : FS) (root top : path).
Hypothesis src_wf : wf_fs src = true.
Hypothesis root_dir : is_dir src root = true.
Hypothesis root_nonempty : root <> [].
Hypothesis top_names : forallb is_name top = true.
Hypothesis top_short : top = [] \/ exists b, top = [b].









End Archived.

Ltac quiet := apply quiet_fault; [assumption|intros; discriminate].



(** The object a [Save] of a tree commits. *)
Definition saved_object (bucket key : string) (t : Z) (files : list File) : Object :=
  {| attrs := {| Bucket := bucket; Name := key; Updated := t;
                 ContentType := contentType; CacheControl := cacheControl |};
     data := encode files |}.

Lemma Save_uploads (i : SaveRequest.t) (w : World) :
  valid_save i -> quiet_env (env w) ->
  find_object (store w) (SaveRequest.Bucket i) (SaveRequest.Key i) = None ->
  exists w1,
    Save (Some i) w = (None, w1) /\ env w1 = env w /\ fs w1 = fs w /\
    store w1 = store w ++
      [saved_object (SaveRequest.Bucket i) (SaveRequest.Key i) (now (env w))
         (walk (fs w) (SaveRequest.Dir i))].
Proof.
  intros Hv Hq Hnone.
  assert (Hf0 : faults (env w) (EvAttrs (SaveRequest.Bucket i) (SaveRequest.Key i)) = None)
    by quiet.
  assert (Hf1 : faults (env w) (EvFilesFromDisk (SaveRequest.Dir i)) = None) by quiet.
  assert (Hf3 : faults (env w) (EvCloseWriter (SaveRequest.Bucket i) (SaveRequest.Key i)) = None)
    by quiet.
  destruct (Save_upload_cases i w Hv Hf0 Hnone)
    as (berr & d & cerr & w' & Hrun & He & Hfs & Hb & Hc).
  unfold gathered in Hb. rewrite Hf1 in Hb.
  rewrite first_failure_none in Hb by (intros; quiet).
  destruct Hb as [-> ->]. rewrite Hf3 in Hc.
  destruct Hq as [Hconc _]. rewrite !Hconc, Hnone in Hc. destruct Hc as [-> Hst].
  exists w'. split; [exact Hrun|]. split; [done|]. split; [done|]. exact Hst.
Qed.

Context {faithful : FaithfulCodec codec}.

Lemma NewReader_run (bucket name : string) (w : World) (o : Object) :
  faults (env w) (EvNewReader bucket name) = None ->
  find_object (store w) bucket name = Some o ->
  NewReader bucket name w = ((Some (data o), None), add_log w [EvNewReader bucket name]).
Proof.
  intros Hf Ho. unfold NewReader, bind, emit, get, ret. rewrite Hf. simpl.
  by rewrite Ho.
Qed.






End RoundTrip.

(** ** A concrete tree *)



(** [src] holds a file, a directory with mode [0700] and, in it, a
    read-only file and a symbolic link; the store holds an unrelated
    object. *)
Definition tree_fs : FS :=
  {| names :=
       <[ ["src"; "d"; "l"] := NSymlink "../a" ]>
         (<[ ["src"; "d"; "e"] := NFile 1 ]>
            (<[ ["src"; "d"] := NDir 448 ]>
               (<[ ["src"; "a"] := NFile 0 ]> (<[ ["src"] := NDir 493 ]> ∅))));
     inodes :=
       <[ 1%nat := {| perm := 292; content := [x02; x03]%byte |} ]>
         (<[ 0%nat := {| perm := 420; content := [x01%byte] |} ]> ∅);
     next_ino := 2 |}.

Definition w_tree : World :=
  {| env := quiet false; fs := tree_fs; store := [object "b" "other" 5 []]; log := [] |}.

(** Saving the tree twice: both calls succeed, the second one changes
    nothing in the store, which holds one object under the key. *)
Example Save_twice :
  fst (Save (Some save_k) w_tree) = None /\
  fst (Save (Some save_k) (snd (Save (Some save_k) w_tree))) = None /\
  store (snd (Save (Some save_k) (snd (Save (Some save_k) w_tree)))) =
    store (snd (Save (Some save_k) w_tree)) /\
  length (List.filter (same_object "b" "k") (store (snd (Save (Some save_k) w_tree)))) = 1.
Proof.
  split; [vm_compute; reflexivity|]. split; [vm_compute; reflexivity|].
  split; vm_compute; reflexivity.
Qed.

Lemma quiet_is_quiet (win : bool) : quiet_env (quiet win).
Proof. split; [reflexivity|]. intros ev e H. discriminate H. Qed.

(** The files of the walk of [src], in its order. *)
Example walk_of_tree :
  map NameInArchive (walk tree_fs "src") = ["src"; "src/a"; "src/d"; "src/d/e"; "src/d/l"] /\
  map NameInArchive (walk tree_fs "src/") = ["a"; "d"; "d/e"; "d/l"] /\
  walk tree_fs "gone" = [].
Proof.
  split; [vm_compute; reflexivity|]. split; vm_compute; reflexivity.
Qed.



(** The restored tree, name by name: it is in the folder [src] of [out];
    contents, modes of files and link targets are those of the source; the
    directory [d] is back with mode [0755] ([493]), not with its mode
    [0700] ([448]). *)
Example round_trip_of_tree :
  let restored := fs (snd (Restore (Some restore_k) (snd (Save (Some save_k) w_tree)))) in
  stat restored ["out"; "src"] = Some (VDir 493) /\
  stat restored ["out"; "src"; "a"] = Some (VFile 420 [x01%byte]) /\
  stat restored ["out"; "src"; "d"] = Some (VDir 493) /\
  stat restored ["out"; "src"; "d"; "e"] = Some (VFile 292 [x02; x03]%byte) /\
  stat restored ["out"; "src"; "d"; "l"] = Some (VSymlink "../a") /\
  stat tree_fs ["src"; "d"] = Some (VDir 448).
Proof.
  cbv zeta.
  split; [vm_compute; reflexivity|]. split; [vm_compute; reflexivity|].
  split; [vm_compute; reflexivity|]. split; [vm_compute; reflexivity|].
  split; vm_compute; reflexivity.
Qed.

(** With a trailing separator on the source directory the tree comes back
    directly under [out]. *)
Definition save_k_sep : SaveRequest.t :=
  {| SaveRequest.Bucket := "b"; SaveRequest.Key := "k"; SaveRequest.Dir := "src/" |}.

Example round_trip_with_separator :
  let restored :=
    fs (snd (Restore (Some restore_k) (snd (Save (Some save_k_sep) w_tree)))) in
  stat restored ["out"; "a"] = Some (VFile 420 [x01%byte]) /\
  stat restored ["out"; "d"; "e"] = Some (VFile 292 [x02; x03]%byte) /\
  stat restored ["out"; "d"; "l"] = Some (VSymlink "../a") /\
  stat restored ["out"; "src"] = None.
Proof.
  cbv zeta.
  split; [vm_compute; reflexivity|]. split; [vm_compute; reflexivity|].
  split; vm_compute; reflexivity.
Qed.

(** * Further properties of the package *)

(** ** What a call may change *)

Section Frames.
Context {codec : Codec}.

(** From [w] to [w'] the environment and the store are the same, every name
    of the file system that was there still maps to what it mapped to, and a
    name that appeared satisfies [P]. *)
Definition changes_within (P : path -> Prop) (w w' : World) : Prop :=
  env w' = env w /\ store w' = store w /\
  forall q, names (fs w') !! q = names (fs w) !! q \/
            (names (fs w) !! q = None /\ P q).

Definition keeps {A : Type} (P : path -> Prop) (m : M A) : Prop :=
  forall w, changes_within P w (snd (m w)).

Lemma changes_refl (P : path -> Prop) (w : World) : changes_within P w w.
Proof. split; [done|]. split; [done|]. intros q. by left. Qed.

Lemma changes_trans (P : path -> Prop) (w1 w2 w3 : World) :
  changes_within P w1 w2 -> changes_within P w2 w3 -> changes_within P w1 w3.
Proof.
  intros (He1 & Hs1 & H1) (He2 & Hs2 & H2). split; [congruence|]. split; [congruence|].
  intros q. destruct (H2 q) as [E2|[E2 HP]]; destruct (H1 q) as [E1|[E1 HP1]].
  - left. congruence.
  - right. done.
  - right. split; [congruence|done].
  - right. done.
Qed.

Lemma changes_weaken (P Q : path -> Prop) (w w' : World) :
  (forall q, P q -> Q q) -> changes_within P w w' -> changes_within Q w w'.
Proof.
  intros HPQ (He & Hs & H). split; [done|]. split; [done|].
  intros q. destruct (H q) as [E|[E HP]]; [by left|right; auto].
Qed.

Lemma keeps_weaken {A : Type} (P Q : path -> Prop) (m : M A) :
  (forall q, P q -> Q q) -> keeps P m -> keeps Q m.
Proof. intros HPQ H w. by apply (changes_weaken P Q). Qed.

Lemma keeps_ret {A : Type} (P : path -> Prop) (a : A) : keeps P (ret a).
Proof. intros w. apply changes_refl. Qed.

Lemma keeps_bind {A B : Type} (P : path -> Prop) (m : M A) (k : A -> M B) :
  keeps P m -> (forall a, keeps P (k a)) -> keeps P (bind m k).
Proof.
  intros Hm Hk w. unfold bind. specialize (Hm w).
  destruct (m w) as [a w1]. simpl in Hm.
  apply (changes_trans P w w1); [exact Hm|apply Hk].
Qed.

Lemma keeps_emit (P : path -> Prop) (ev : Event) : keeps P (emit ev).
Proof. intros w. split; [done|]. split; [done|]. intros q. by left. Qed.

Lemma keeps_get {A : Type} (P : path -> Prop) (f : World -> A) : keeps P (get f).
Proof. intros w. apply changes_refl. Qed.

(** A name [q] on the way to [p]. *)
Definition leads_to (p q : path) : Prop := exists r, p = q ++ r.

Lemma mkdir_all_changes (m : N) (rest : path) :
  forall (nm : gmap path node) (pre q : path),
    fst (mkdir_all nm pre rest m) !! q = nm !! q \/
    (nm !! q = None /\ fst (mkdir_all nm pre rest m) !! q = Some (NDir m) /\
     exists r1 r2, rest = r1 ++ r2 /\ r1 <> [] /\ q = pre ++ r1).
Proof.
  induction rest as [|c rest IH]; intros nm pre q; simpl; [by left|].
  destruct (nm !! (pre ++ [c])) as [[m0|i|t]|] eqn:Hc; try (by left).
  - destruct (IH nm (pre ++ [c]) q) as [E|(E1 & E2 & r1 & r2 & -> & Hr & ->)]; [by left|].
    right. split; [done|]. split; [done|]. exists (c :: r1), r2.
    split; [done|]. split; [done|]. by rewrite <- app_assoc.
  - destruct (IH (<[pre ++ [c] := NDir m]> nm) (pre ++ [c]) q)
      as [E|(E1 & E2 & r1 & r2 & -> & Hr & ->)].
    + destruct (decide (q = pre ++ [c])) as [->|Hq].
      * right. split; [done|]. rewrite lookup_insert_eq in E. split; [done|].
        exists [c], rest. split; [done|]. split; done.
      * left. by rewrite lookup_insert_ne in E.
    + right. rewrite lookup_insert_ne in E1 by (symmetry; by apply app_ne_self).
      split; [done|]. split; [done|]. exists (c :: r1), r2.
      split; [done|]. split; [done|]. by rewrite <- app_assoc.
Qed.

Lemma keeps_MkdirAll (p : path) (m : N) : keeps (leads_to p) (os_MkdirAll p m).
Proof.
  intros w. unfold os_MkdirAll, bind, emit, get, set_fs, ret, fs_MkdirAll.
  destruct (faults (env w) (EvMkdirAll p m)); simpl.
  { split; [done|]. split; [done|]. intros q. by left. }
  pose proof (mkdir_all_changes m p (names (fs w)) []) as H.
  destruct (mkdir_all (names (fs w)) [] p m) as [nm' err]. simpl in *.
  split; [done|]. split; [done|]. intros q.
  destruct (H q) as [E|(E1 & E2 & r1 & r2 & -> & Hr & ->)]; [by left|].
  right. split; [done|]. by exists r2.
Qed.

Lemma keeps_Create (p : path) : keeps (eq p) (os_Create p).
Proof.
  intros w. unfold os_Create, bind, emit, get, set_fs, ret, fs_Create.
  destruct (faults (env w) (EvCreate p)); simpl.
  { split; [done|]. split; [done|]. intros q. by left. }
  assert (Hsame : changes_within (eq p) w
            {| env := env w; fs := fs w; store := store w; log := log w ++ [EvCreate p] |}).
  { split; [done|]. split; [done|]. intros q. by left. }
  destruct p as [|c p]; simpl; [exact Hsame|].
  destruct (parent_error _ _ _); simpl; [exact Hsame|].
  destruct (names (fs w) !! (c :: p)) as [[m0|i|t]|] eqn:Hn; simpl; try exact Hsame.
  split; [done|]. split; [done|]. intros q. simpl.
  destruct (decide (q = c :: p)) as [->|Hq].
  - right. done.
  - left. by rewrite lookup_insert_ne.
Qed.

Lemma keeps_Chmod (P : path -> Prop) (p : path) (out : nat) (m : N) :
  keeps P (File_Chmod p out m).
Proof.
  intros w. unfold File_Chmod, bind, emit, set_fs, ret.
  destruct (faults (env w) _); simpl; split; try done; split; try done; intros q; by left.
Qed.

Lemma keeps_Copy (P : path -> Prop) (p : path) (out : nat) (bytes : list byte) :
  keeps P (io_Copy p out bytes).
Proof.
  intros w. unfold io_Copy, bind, emit, set_fs, ret.
  destruct (faults (env w) _); simpl; split; try done; split; try done; intros q; by left.
Qed.

Lemma keeps_Symlink (t : string) (p : path) : keeps (eq p) (os_Symlink t p).
Proof.
  intros w. unfold os_Symlink, bind, emit, get, set_fs, ret, fs_Symlink.
  destruct (faults (env w) _); simpl.
  { split; [done|]. split; [done|]. intros q. by left. }
  destruct p as [|c p]; simpl.
  { split; [done|]. split; [done|]. intros q. by left. }
  destruct (parent_error _ _ _); simpl.
  { split; [done|]. split; [done|]. intros q. by left. }
  destruct (names (fs w) !! (c :: p)) eqn:Hn; simpl.
  { split; [done|]. split; [done|]. intros q. by left. }
  split; [done|]. split; [done|]. intros q. simpl.
  destruct (decide (q = c :: p)) as [->|Hq]; [by right|].
  left. by rewrite lookup_insert_ne.
Qed.

Lemma keeps_Link (old new : path) : keeps (eq new) (os_Link old new).
Proof.
  intros w. unfold os_Link, bind, emit, get, set_fs, ret, fs_Link.
  destruct (faults (env w) _); simpl.
  { split; [done|]. split; [done|]. intros q. by left. }
  assert (Hsame : changes_within (eq new) w
            {| env := env w; fs := fs w; store := store w;
               log := log w ++ [EvLink old new] |}).
  { split; [done|]. split; [done|]. intros q. by left. }
  assert (Hins : forall n, names (fs w) !! new = None ->
            changes_within (eq new) w
              {| env := env w;
                 fs := {| names := <[new := n]> (names (fs w));
                          inodes := inodes (fs w); next_ino := next_ino (fs w) |};
                 store := store w; log := log w ++ [EvLink old new] |}).
  { intros n Hn. split; [done|]. split; [done|]. intros q. simpl.
    destruct (decide (q = new)) as [->|Hq]; [by right|].
    left. by rewrite lookup_insert_ne. }
  destruct (names (fs w) !! old) as [[m0|i|t]|]; simpl; try exact Hsame.
  - destruct new as [|c p]; simpl; [exact Hsame|].
    destruct (parent_error _ _ _); simpl; [exact Hsame|].
    destruct (names (fs w) !! (c :: p)) eqn:Hn; simpl; [exact Hsame|]. by apply Hins.
  - destruct new as [|c p]; simpl; [exact Hsame|].
    destruct (parent_error _ _ _); simpl; [exact Hsame|].
    destruct (names (fs w) !! (c :: p)) eqn:Hn; simpl; [exact Hsame|]. by apply Hins.
Qed.

Lemma leads_to_self (p : path) : leads_to p p.
Proof. exists []. by rewrite app_nil_r. Qed.

Lemma leads_to_Dir (p q : path) : leads_to (filepath_Dir p) q -> leads_to p q.
Proof.
  intros [r E]. destruct p as [|c p] using rev_ind.
  - exists r. exact E.
  - unfold filepath_Dir in E. rewrite removelast_last in E.
    exists (r ++ [c]). by rewrite E, app_assoc.
Qed.

Lemma keeps_File_Open (P : path -> Prop) (f : File) : keeps P (File_Open f).
Proof.
  unfold File_Open. apply keeps_bind; [apply keeps_emit|].
  intros [e|]; apply keeps_ret.
Qed.

Lemma keeps_copy_entry (P : path -> Prop) (fpath : path) (out : nat) (f : File) :
  keeps P (copy_entry fpath out f).
Proof.
  unfold copy_entry. apply keeps_bind; [apply keeps_File_Open|].
  intros [[bytes|] [e|]]; try apply keeps_ret.
  apply keeps_bind; [apply keeps_Copy|]. intros [e|]; apply keeps_ret.
Qed.

Lemma keeps_fill_regular (P : path -> Prop) (fpath : path) (out : nat) (f : File) :
  keeps P (fill_regular fpath out f).
Proof.
  unfold fill_regular. apply keeps_bind; [apply keeps_Chmod|]. intros err.
  apply keeps_bind; [apply keeps_get|]. intros win.
  apply keeps_bind.
  - destruct err as [e|], win; try apply keeps_copy_entry. apply keeps_ret.
  - intros res. apply keeps_bind; [|intros; apply keeps_ret].
    unfold File_Close. apply keeps_bind; [apply keeps_emit|]. intros; apply keeps_ret.
Qed.

Lemma keeps_make_parent (fpath : path) (k : M (option error)) :
  keeps (leads_to fpath) k -> keeps (leads_to fpath) (make_parent fpath k).
Proof.
  intros Hk. unfold make_parent. apply keeps_bind.
  - apply (keeps_weaken (leads_to (filepath_Dir fpath))); [apply leads_to_Dir|].
    apply keeps_MkdirAll.
  - intros [e|]; [apply keeps_ret|exact Hk].
Qed.

(** The path the handler works at for an entry. *)
Definition entry_path (dir : string) (f : File) : path :=
  filepath_Join (elements dir) (elements (NameInArchive f)).

(** Whatever the entry and whatever fails, the handler leaves the store
    alone, keeps every name of the file system, and adds names only on the
    way to the path of the entry. *)
Lemma keeps_handler (dir : string) (f : File) :
  keeps (leads_to (entry_path dir f)) (handler dir f).
Proof.
  unfold handler. fold (entry_path dir f).
  assert (Heq : forall q, entry_path dir f = q -> leads_to (entry_path dir f) q)
    by (intros q <-; apply leads_to_self).
  destruct (is_flag (Typeflag f) TypeDir).
  { apply keeps_bind; [apply keeps_MkdirAll|]. intros [e|]; apply keeps_ret. }
  destruct (is_flag (Typeflag f) TypeReg || is_flag (Typeflag f) TypeRegA
            || is_flag (Typeflag f) TypeChar || is_flag (Typeflag f) TypeBlock
            || is_flag (Typeflag f) TypeFifo).
  { apply keeps_make_parent. apply keeps_bind.
    - apply (keeps_weaken (eq (entry_path dir f))); [exact Heq|apply keeps_Create].
    - intros [[out|] [e|]]; try apply keeps_ret. apply keeps_fill_regular. }
  destruct (is_flag (Typeflag f) TypeSymlink).
  { apply keeps_make_parent. apply keeps_bind.
    - apply (keeps_weaken (eq (entry_path dir f))); [exact Heq|apply keeps_Symlink].
    - intros [e|]; apply keeps_ret. }
  destruct (is_flag (Typeflag f) TypeLink).
  { apply keeps_make_parent. apply keeps_bind.
    - apply (keeps_weaken (eq (entry_path dir f))); [exact Heq|apply keeps_Link].
    - intros [e|]; apply keeps_ret. }
  destruct (is_flag (Typeflag f) TypeXGlobalHeader); apply keeps_ret.
Qed.

Lemma keeps_for_each (dir : string) (files : list File) :
  keeps (fun q => exists f, In f files /\ leads_to (entry_path dir f) q)
    (for_each files (handler dir)).
Proof.
  induction files as [|f files IH]; simpl; [apply keeps_ret|].
  apply keeps_bind.
  - apply (keeps_weaken (leads_to (entry_path dir f))); [|apply keeps_handler].
    intros q Hq. exists f. split; [by left|done].
  - intros [e|]; [apply keeps_ret|].
    apply (keeps_weaken (fun q => exists f, In f files /\ leads_to (entry_path dir f) q));
      [|exact IH].
    intros q (f' & Hin & Hq). exists f'. split; [by right|done].
Qed.

Lemma keeps_Extract (dir : string) (r : stream) :
  keeps (fun q => exists f, In f (fst (decode r)) /\ leads_to (entry_path dir f) q)
    (Extract r (handler dir)).
Proof.
  unfold Extract. destruct (decode r) as [files derr]. simpl.
  apply keeps_bind; [apply keeps_for_each|]. intros [e|]; apply keeps_ret.
Qed.

Lemma keeps_find_match (P : path -> Prop) (bucket : string) (keys : list string) :
  forall best, keeps P (find_match bucket keys best).
Proof.
  induction keys as [|k keys IH]; intros best; simpl; [apply keeps_ret|].
  apply keeps_bind.
  - unfold Bucket_Objects. apply keeps_bind; [apply keeps_emit|].
    intros [e|]; [apply keeps_ret|]. apply keeps_bind; [apply keeps_get|].
    intros; apply keeps_ret.
  - intros it. destruct (scan it best) as [b [e|]]; [apply keeps_ret|apply IH].
Qed.

Lemma keeps_NewReader (P : path -> Prop) (bucket name : string) :
  keeps P (NewReader bucket name).
Proof.
  unfold NewReader. apply keeps_bind; [apply keeps_emit|].
  intros [e|]; [apply keeps_ret|]. apply keeps_bind; [apply keeps_get|].
  intros st. destruct (find_object st bucket name); apply keeps_ret.
Qed.

Lemma keeps_Restore (i : option RestoreRequest.t) : keeps (fun _ => True) (Restore i).
Proof.
  unfold Restore. destruct i as [i|]; [|apply keeps_ret].
  destruct (String.eqb _ _); [apply keeps_ret|].
  destruct (String.eqb _ _); [apply keeps_ret|].
  destruct (Nat.ltb _ _); [apply keeps_ret|].
  apply keeps_bind; [apply keeps_find_match|].
  intros [[m|] [e|]]; try apply keeps_ret.
  apply keeps_bind; [apply (keeps_weaken (leads_to (to_path (RestoreRequest.Dir i))));
                     [done|apply keeps_MkdirAll]|].
  intros [e|]; [apply keeps_ret|].
  apply keeps_bind; [apply keeps_NewReader|].
  intros [[gcsr|] [e|]]; try apply keeps_ret.
  apply keeps_bind; [eapply keeps_weaken; [|apply keeps_Extract]; done|].
  intros _. apply keeps_bind; [apply keeps_emit|]. intros; apply keeps_ret.
Qed.

(** X1. [Restore] is read-only on the store and never removes or replaces a
    name of the local file system, whatever the request, the archive and
    the failures: every name that was there before still maps to the same
    directory, file or link afterwards. *)
Theorem Restore_keeps_store_and_names (i : option RestoreRequest.t) (w : World) :
  store (snd (Restore i w)) = store w /\
  env (snd (Restore i w)) = env w /\
  forall q n, names (fs w) !! q = Some n ->
    names (fs (snd (Restore i w))) !! q = Some n.
Proof.
  destruct (keeps_Restore i w) as (He & Hs & Hn). split; [done|]. split; [done|].
  intros q n Hq. destruct (Hn q) as [E|[E _]]; congruence.
Qed.

(** Whether cleaning the elements [l] steps above the directory they
    start in: a [..] met at depth 0. *)
Fixpoint escapes (depth : nat) (l : list string) : bool :=
  match l with
  | [] => false
  | c :: l' =>
      if String.eqb c EmptyString || String.eqb c "." then escapes depth l'
      else if String.eqb c ".." then
        match depth with
        | O => true
        | S d => escapes d l'
        end
      else escapes (S depth) l'
  end.

(** An extraction that stays within what the file-system model covers: the
    target is given by a clean relative name, no joined path steps above the
    working directory, and no call goes through a symbolic link, neither
    one the file system has at or above the path of an entry, nor one an
    earlier entry of the archive (a symbolic link, or a hard link, which may
    be a link to one) has made. *)
Record plain_extraction (dir : string) (files : list File) (cur : FS) : Prop := {
  plain_dir : forallb is_name (elements dir) = true;
  plain_inside : forall f, In f files ->
    escapes 0 (elements dir ++ elements (NameInArchive f)) = false;
  plain_wf : wf_fs cur = true;
  plain_start : forall f q t, In f files -> leads_to (entry_path dir f) q ->
    names cur !! q <> Some (NSymlink t);
  plain_links : forall l1 g l2 f, files = l1 ++ g :: l2 ->
    (is_flag (Typeflag g) TypeSymlink || is_flag (Typeflag g) TypeLink) = true ->
    In f l2 -> ~ leads_to (entry_path dir f) (entry_path dir g)
}.

(** X2. The extraction binds names only on the way to the paths of the
    entries.  In an extraction that goes through no symbolic link and leaves
    the working directory nowhere, a name whose binding differs after
    [Extract] was absent before and is the joined path of some entry of the
    archive or a directory above it.  (This is about names: the content of a
    file that exists can still change through another name of it.) *)
Theorem extraction_adds_entry_paths_only (dir : string) (r : stream) (w : World) :
  plain_extraction dir (fst (decode r)) (fs w) ->
  forall q,
    names (fs (snd (Extract r (handler dir) w))) !! q <> names (fs w) !! q ->
    names (fs w) !! q = None /\
    exists f, In f (fst (decode r)) /\ leads_to (entry_path dir f) q.
Proof.
  intros _ q Hq. destruct (keeps_Extract dir r w) as (_ & _ & Hn).
  destruct (Hn q) as [E|[E HP]]; [done|]. split; [done|exact HP].
Qed.

End Frames.

(** ** Save: arguments, probe and upload *)

Section SaveMore.
Context {codec : Codec}.

Local Arguments deferred_close : simpl never.

(** X3. A [Save] request with an empty bucket, directory or key is refused
    with the matching [missing ...] error before anything is done: no call
    is issued and the world is as before. *)
Theorem Save_rejects_incomplete_request (i : SaveRequest.t) (w : World) :
  ~ valid_save i ->
  exists msg,
    Save (Some i) w = (Some (errorString msg []), w) /\
    ((SaveRequest.Bucket i = EmptyString /\ msg = "missing bucket") \/
     (SaveRequest.Bucket i <> EmptyString /\ SaveRequest.Dir i = EmptyString /\
      msg = "missing directory") \/
     (SaveRequest.Bucket i <> EmptyString /\ SaveRequest.Dir i <> EmptyString /\
      SaveRequest.Key i = EmptyString /\ msg = "missing key")).
Proof.
  intros Hv. unfold Save.
  destruct (String.eqb_spec (SaveRequest.Bucket i) EmptyString) as [Hb|Hb].
  { exists "missing bucket". split; [reflexivity|]. by left. }
  destruct (String.eqb_spec (SaveRequest.Dir i) EmptyString) as [Hd|Hd].
  { exists "missing directory". split; [reflexivity|]. right. by left. }
  destruct (String.eqb_spec (SaveRequest.Key i) EmptyString) as [Hk|Hk].
  { exists "missing key". split; [reflexivity|]. right. by right. }
  destruct Hv. by split.
Qed.

(** X4. When the probe of [Save] fails with an error that is not (and does
    not wrap) [storage.ErrObjectNotExist], [Save] returns that error wrapped
    as [failed to check if cached object exists] and has issued nothing but
    the probe: no writer is created and the store is untouched. *)
Theorem Save_probe_failure (i : SaveRequest.t) (w : World) (e : error) :
  valid_save i ->
  faults (env w) (EvAttrs (SaveRequest.Bucket i) (SaveRequest.Key i)) = Some e ->
  is_ErrObjectNotExist e = false ->
  Save (Some i) w =
    (Some (wrapError "failed to check if cached object exists: %w" [AErr e] e),
     add_log w [EvAttrs (SaveRequest.Bucket i) (SaveRequest.Key i)]).
Proof.
  intros Hv Hf He. rewrite Save_valid by done.
  unfold Object_Attrs, bind, emit, ret. rewrite Hf. simpl. by rewrite He.
Qed.

(** X5. When the key is absent, nothing fails and no other process writes,
    [Save] succeeds, leaves the local file system as it was, and adds to
    the store exactly one object: it is named by the key, stamped by the
    store, typed [application/x-zstd-compressed-tar] with cache control
    [public,max-age=600], and holds the archive of the directory. *)
Theorem Save_commits_one_object (i : SaveRequest.t) (w : World) :
  valid_save i -> quiet_env (env w) ->
  is_dir (fs w) (to_path (SaveRequest.Dir i)) = true ->
  find_object (store w) (SaveRequest.Bucket i) (SaveRequest.Key i) = None ->
  fst (Save (Some i) w) = None /\
  fs (snd (Save (Some i) w)) = fs w /\
  store (snd (Save (Some i) w)) =
    store w ++
      [committed (SaveRequest.Bucket i) (SaveRequest.Key i) (now (env w))
         (encode (walk (fs w) (SaveRequest.Dir i)))].
Proof.
  intros Hv Hq _ Ho.
  destruct (Save_uploads i w Hv Hq Ho) as (w1 & -> & _ & Hfs & Hst).
  split; [reflexivity|]. split; [exact Hfs|exact Hst].
Qed.

(** [Save] when the archiving stops at the entry [f], after the entries
    [l1]. *)
Lemma Save_archive_stops (i : SaveRequest.t) (w : World)
    (l1 l2 : list File) (f : File) (e : error) :
  valid_save i ->
  faults (env w) (EvAttrs (SaveRequest.Bucket i) (SaveRequest.Key i)) = None ->
  find_object (store w) (SaveRequest.Bucket i) (SaveRequest.Key i) = None ->
  faults (env w) (EvFilesFromDisk (SaveRequest.Dir i)) = None ->
  walk (fs w) (SaveRequest.Dir i) = l1 ++ f :: l2 ->
  (forall g, In g l1 -> faults (env w) (EvArchiveEntry (NameInArchive g)) = None) ->
  faults (env w) (EvArchiveEntry (NameInArchive f)) = Some e ->
  exists cerr w',
    Save (Some i) w =
      (deferred_close "%v: failed to close gcs writer: %w"
         "failed to close gcs writer: %w" (Some e) cerr, w') /\
    env w' = env w /\
    match faults (env w) (EvCloseWriter (SaveRequest.Bucket i) (SaveRequest.Key i)) with
    | Some ce => cerr = Some ce /\ store w' = concurrent (env w) (store w)
    | None =>
        match find_object (concurrent (env w) (store w))
                (SaveRequest.Bucket i) (SaveRequest.Key i) with
        | Some _ =>
            cerr = Some (googleapiError StatusPreconditionFailed) /\
            store w' = concurrent (env w) (store w)
        | None =>
            cerr = None /\
            store w' = concurrent (env w) (store w) ++
              [committed (SaveRequest.Bucket i) (SaveRequest.Key i) (now (env w))
                 (truncated l1 f)]
        end
    end.
Proof.
  intros Hv Hf Ho Hwalkf Hwalk Hl1 Hfail.
  destruct (Save_upload_cases i w Hv Hf Ho)
    as (berr & d & cerr & w' & Hrun & He & Hfs & Hb & Hc).
  unfold gathered in Hb. rewrite Hwalkf, Hwalk in Hb.
  rewrite (first_failure_stops (env w) l1 l2 f e [] Hl1 Hfail) in Hb. simpl in Hb.
  destruct Hb as [-> ->]. exists cerr, w'. split; [exact Hrun|]. split; [exact He|].
  exact Hc.
Qed.

(** X6. The archive is streamed into the writer, and the deferred close
    commits what the writer holds.  When the archiving fails at an entry and
    the store then accepts the close, [Save] returns the failure as it is,
    and yet an object has been committed under the key: it holds the archive
    cut short at that entry.  A second [Save] of the same request then finds
    the object and returns success without uploading anything, so the cut
    archive stays. *)
Theorem Save_failed_body_still_commits (i : SaveRequest.t) (w : World)
    (l1 l2 : list File) (f : File) (e : error) :
  valid_save i ->
  faults (env w) (EvAttrs (SaveRequest.Bucket i) (SaveRequest.Key i)) = None ->
  find_object (store w) (SaveRequest.Bucket i) (SaveRequest.Key i) = None ->
  faults (env w) (EvFilesFromDisk (SaveRequest.Dir i)) = None ->
  walk (fs w) (SaveRequest.Dir i) = l1 ++ f :: l2 ->
  (forall g, In g l1 -> faults (env w) (EvArchiveEntry (NameInArchive g)) = None) ->
  faults (env w) (EvArchiveEntry (NameInArchive f)) = Some e ->
  faults (env w) (EvCloseWriter (SaveRequest.Bucket i) (SaveRequest.Key i)) = None ->
  find_object (concurrent (env w) (store w))
    (SaveRequest.Bucket i) (SaveRequest.Key i) = None ->
  fst (Save (Some i) w) = Some e /\
  store (snd (Save (Some i) w)) =
    concurrent (env w) (store w) ++
      [committed (SaveRequest.Bucket i) (SaveRequest.Key i) (now (env w))
         (truncated l1 f)] /\
  Save (Some i) (snd (Save (Some i) w)) =
    (None, add_log (snd (Save (Some i) w))
             [EvAttrs (SaveRequest.Bucket i) (SaveRequest.Key i)]).
Proof.
  intros Hv Hf Ho Hwalkf Hwalk Hl1 Hfail Hcf Hst.
  destruct (Save_leaves_object i w Hv Hf (or_intror Hcf)) as [Henv [o Hfound]].
  destruct (Save_archive_stops i w l1 l2 f e Hv Hf Ho Hwalkf Hwalk Hl1 Hfail)
    as (cerr & w' & Hrun & He & Hc).
  rewrite Hrun in *. simpl in *. rewrite Hcf, Hst in Hc. destruct Hc as [-> Hstore].
  split; [reflexivity|]. split; [exact Hstore|].
  apply (Save_found i w' o); [done|by rewrite He|done].
Qed.

(** X7. When the archiving fails and the deferred close fails too, be it
    for a reason of its own or because the store rejects the commit for the
    [DoesNotExist] precondition, [Save] returns one error that wraps the
    close error and carries the failure of the archiving only as text:
    [errors.Unwrap] gives the close error, so the failure of the body cannot
    be found by [errors.Is]. *)
Theorem Save_body_and_close_failure (i : SaveRequest.t) (w : World)
    (l1 l2 : list File) (f : File) (e ce : error) :
  valid_save i ->
  faults (env w) (EvAttrs (SaveRequest.Bucket i) (SaveRequest.Key i)) = None ->
  find_object (store w) (SaveRequest.Bucket i) (SaveRequest.Key i) = None ->
  faults (env w) (EvFilesFromDisk (SaveRequest.Dir i)) = None ->
  walk (fs w) (SaveRequest.Dir i) = l1 ++ f :: l2 ->
  (forall g, In g l1 -> faults (env w) (EvArchiveEntry (NameInArchive g)) = None) ->
  faults (env w) (EvArchiveEntry (NameInArchive f)) = Some e ->
  (faults (env w) (EvCloseWriter (SaveRequest.Bucket i) (SaveRequest.Key i)) = Some ce \/
   (faults (env w) (EvCloseWriter (SaveRequest.Bucket i) (SaveRequest.Key i)) = None /\
    is_Some (find_object (concurrent (env w) (store w))
               (SaveRequest.Bucket i) (SaveRequest.Key i)) /\
    ce = googleapiError StatusPreconditionFailed)) ->
  exists r,
    fst (Save (Some i) w) = Some r /\
    r = wrapError "%v: failed to close gcs writer: %w" [AErr e; AErr ce] ce /\
    errors_Unwrap r = Some ce /\
    is_ErrObjectNotExist r = is_ErrObjectNotExist ce.
Proof.
  intros Hv Hf Ho Hwalkf Hwalk Hl1 Hfail Hclose.
  destruct (Save_archive_stops i w l1 l2 f e Hv Hf Ho Hwalkf Hwalk Hl1 Hfail)
    as (cerr & w' & Hrun & He & Hc).
  rewrite Hrun. simpl.
  assert (cerr = Some ce) as ->.
  { destruct Hclose as [Hcf|(Hcf & [o' Ho'] & ->)]; rewrite Hcf in Hc.
    - tauto.
    - rewrite Ho' in Hc. tauto. }
  eexists. split; [reflexivity|]. split; [reflexivity|]. split; reflexivity.
Qed.

(** X8. [Save] never touches the local file system and never removes or
    replaces an object: the store after it is the store before (as other
    processes left it by the time of the commit), plus at most one object,
    which is then named by the key, carries the content type and cache
    control of the package, and is added only when no object had that name
    at the commit. *)
Theorem Save_adds_at_most_one_object (i : SaveRequest.t) (w : World) :
  let w' := snd (Save (Some i) w) in
  let st := concurrent (env w) (store w) in
  fs w' = fs w /\ env w' = env w /\
  (store w' = store w \/ store w' = st \/
   exists t d,
     store w' = st ++ [committed (SaveRequest.Bucket i) (SaveRequest.Key i) t d] /\
     find_object st (SaveRequest.Bucket i) (SaveRequest.Key i) = None).
Proof.
  intros w' st. subst w'.
  destruct (String.eqb_spec (SaveRequest.Bucket i) EmptyString) as [Hb|Hb].
  { unfold Save. rewrite Hb. simpl. tauto. }
  destruct (String.eqb_spec (SaveRequest.Dir i) EmptyString) as [Hd|Hd].
  { unfold Save. rewrite (eqb_empty_false _ Hb), Hd. simpl. tauto. }
  destruct (String.eqb_spec (SaveRequest.Key i) EmptyString) as [Hk|Hk].
  { unfold Save. rewrite (eqb_empty_false _ Hb), (eqb_empty_false _ Hd), Hk. simpl. tauto. }
  assert (Hv : valid_save i) by (by split).
  destruct (faults (env w) (EvAttrs (SaveRequest.Bucket i) (SaveRequest.Key i)))
    as [e|] eqn:Hf.
  - rewrite Save_valid by done. unfold Object_Attrs, bind, emit, ret. rewrite Hf. simpl.
    destruct (is_ErrObjectNotExist e); simpl; [|tauto].
    destruct (upload_run (SaveRequest.Bucket i) (SaveRequest.Key i) (SaveRequest.Dir i)
                (add_log w [EvAttrs (SaveRequest.Bucket i) (SaveRequest.Key i)]))
      as (gw & berr & w1 & Hbody & Hup).
    unfold add_log in Hup, Hbody. rewrite Hup. simpl.
    pose proof (upload_body_frame (SaveRequest.Bucket i) (SaveRequest.Key i)
                  (SaveRequest.Dir i)
                  (add_log w [EvAttrs (SaveRequest.Bucket i) (SaveRequest.Key i)])) as Hb'.
    pose proof (upload_body_cases (SaveRequest.Bucket i) (SaveRequest.Key i)
                  (SaveRequest.Dir i)
                  (add_log w [EvAttrs (SaveRequest.Bucket i) (SaveRequest.Key i)])) as Hm.
    unfold add_log in Hb', Hm. rewrite Hbody in Hb', Hm. simpl in Hb', Hm.
    destruct Hb' as (He & Hs & Hfs & Hgb & Hgk & Hdne). destruct Hm as (Hct & Hcc & _).
    pose proof (Writer_Close_cases gw w1) as Hc.
    destruct (Writer_Close gw w1) as [cerr w2]. simpl in Hc |- *.
    destruct Hc as (He2 & Hfs2 & Hc). rewrite Hgb, Hgk, He, Hs in Hc. simpl in Hc.
    fold st in Hc. split; [congruence|]. split; [congruence|].
    destruct (faults (env w) (EvCloseWriter _ _)); [right; left; tauto|].
    destruct (find_object st _ _) eqn:Hfo.
    + rewrite Hdne in Hc. right; left; tauto.
    + right. right. exists (now (env w)), (wData gw). split; [|done].
      destruct Hc as [_ ->]. unfold new_object, committed.
      by rewrite Hgb, Hgk, Hct, Hcc.
  - destruct (find_object (store w) (SaveRequest.Bucket i) (SaveRequest.Key i))
      as [o|] eqn:Ho.
    + rewrite (Save_found i w o Hv Hf Ho). simpl. tauto.
    + destruct (Save_upload_cases i w Hv Hf Ho)
        as (berr & d & cerr & w' & Hrun & He & Hfs & Hb' & Hc).
      rewrite Hrun. simpl. split; [done|]. split; [done|]. fold st in Hc.
      destruct (faults (env w) (EvCloseWriter _ _)); [right; left; tauto|].
      destruct (find_object st _ _) eqn:Hfo; [right; left; tauto|].
      right. right. exists (now (env w)), d. split; [tauto|done].
Qed.

(** In a well-formed file system the walk of a name that does not exist
    finds nothing. *)
Lemma walk_missing (cur : FS) (dir : string) :
  wf_fs cur = true -> to_path dir <> [] -> names cur !! to_path dir = None ->
  walk cur dir = [].
Proof.
  intros Hwf Hne Hnone. unfold walk.
  assert (H : forall pn, In pn (walk_list cur) -> names cur !! (fst pn) = Some (snd pn))
    by (intros [p n] Hin; by apply In_walk_list).
  induction (walk_list cur) as [|[p n] l IH]; [reflexivity|].
  rewrite omap_step. simpl.
  pose proof (H (p, n) ltac:(by left)) as Hn. simpl in Hn.
  destruct (strip_root (to_path dir) p) as [r|] eqn:Es.
  - exfalso. apply strip_root_Some in Es. subst p. destruct r as [|c r].
    + rewrite app_nil_r in Hn. congruence.
    + destruct (ancestors_are_dirs cur [] Hwf (c :: r) (to_path dir) n Hne
                  ltac:(done) Hn) as [m Hm].
      simpl in Hm. congruence.
  - apply IH. intros pn Hin. apply H. by right.
Qed.

(** X23. [Save] does not notice that the directory is missing: the walk of
    a name that does not exist yields no files and no error, so [Save]
    succeeds and commits the archive of no files under the key. *)
Theorem Save_of_missing_directory (i : SaveRequest.t) (w : World) :
  valid_save i -> quiet_env (env w) -> wf_fs (fs w) = true ->
  to_path (SaveRequest.Dir i) <> [] ->
  names (fs w) !! to_path (SaveRequest.Dir i) = None ->
  find_object (store w) (SaveRequest.Bucket i) (SaveRequest.Key i) = None ->
  fst (Save (Some i) w) = None /\
  store (snd (Save (Some i) w)) =
    store w ++
      [committed (SaveRequest.Bucket i) (SaveRequest.Key i) (now (env w)) (encode [])].
Proof.
  intros Hv Hq Hwf Hne Hnone Ho.
  destruct (Save_uploads i w Hv Hq Ho) as (w1 & -> & _ & Hfs & Hst).
  split; [reflexivity|]. simpl. by rewrite Hst, walk_missing.
Qed.

End SaveMore.

(** ** Restore: arguments, listing, target directory and reader *)

Section RestoreMore.
Context {codec : Codec}.

Local Arguments fs_MkdirAll : simpl never.

(** X9. A [Restore] request with an empty bucket or directory, or without a
    key, is refused with the matching error before anything is done: the
    bucket is not listed and the world is as before. *)
Theorem Restore_rejects_incomplete_request (i : RestoreRequest.t) (w : World) :
  ~ valid_restore i ->
  exists msg,
    Restore (Some i) w = (Some (errorString msg []), w) /\
    ((RestoreRequest.Bucket i = EmptyString /\ msg = "missing bucket") \/
     (RestoreRequest.Bucket i <> EmptyString /\ RestoreRequest.Dir i = EmptyString /\
      msg = "missing directory") \/
     (RestoreRequest.Bucket i <> EmptyString /\ RestoreRequest.Dir i <> EmptyString /\
      RestoreRequest.Keys i = [] /\ msg = "expected at least one cache key")).
Proof.
  intros Hv. unfold Restore.
  destruct (String.eqb_spec (RestoreRequest.Bucket i) EmptyString) as [Hb|Hb].
  { exists "missing bucket". split; [reflexivity|]. by left. }
  destruct (String.eqb_spec (RestoreRequest.Dir i) EmptyString) as [Hd|Hd].
  { exists "missing directory". split; [reflexivity|]. right. by left. }
  destruct (RestoreRequest.Keys i) as [|k keys] eqn:Hk.
  { exists "expected at least one cache key". split; [reflexivity|]. right. by right. }
  destruct Hv. split; [done|]. split; [done|]. by rewrite Hk.
Qed.

Lemma find_match_fails (bucket : string) (ks1 : list string) (k : string)
    (ks2 : list string) (e : error) :
  forall (best : option ObjectAttrs) (w : World),
    (forall k', In k' ks1 -> faults (env w) (EvObjects bucket k') = None) ->
    faults (env w) (EvObjects bucket k) = Some e ->
    find_match bucket (ks1 ++ k :: ks2) best w =
      ((None, Some (wrapError "failed to list %s: %w" [AStr k; AErr e] e)),
       add_log w (map (EvObjects bucket) (ks1 ++ [k]))).
Proof.
  induction ks1 as [|k1 ks1 IH]; intros best w Hq He; simpl.
  - unfold bind, Bucket_Objects, bind, emit at 1. simpl. rewrite He. simpl.
    by destruct best.
  - unfold bind, Bucket_Objects, bind, emit at 1. simpl.
    rewrite (Hq k1 (or_introl eq_refl)). simpl.
    rewrite <- (map_map attrs inl), scan_pick.
    fold (add_log w [EvObjects bucket k1]).
    rewrite IH; [|intros k' Hk'; apply Hq; by right|done].
    by rewrite add_log_add_log.
Qed.

(** X10. When the listing for one of the keys fails, [Restore] stops at the
    first such key and returns its error wrapped as [failed to list] with
    the key; the keys after it are not listed, no directory is made and no
    object is read, whatever the earlier listings found. *)
Theorem Restore_listing_failure (i : RestoreRequest.t) (w : World)
    (ks1 : list string) (k : string) (ks2 : list string) (e : error) :
  RestoreRequest.Bucket i <> EmptyString -> RestoreRequest.Dir i <> EmptyString ->
  RestoreRequest.Keys i = ks1 ++ k :: ks2 ->
  (forall k', In k' ks1 -> faults (env w) (EvObjects (RestoreRequest.Bucket i) k') = None) ->
  faults (env w) (EvObjects (RestoreRequest.Bucket i) k) = Some e ->
  Restore (Some i) w =
    (Some (wrapError "failed to list %s: %w" [AStr k; AErr e] e),
     add_log w (map (EvObjects (RestoreRequest.Bucket i)) (ks1 ++ [k]))).
Proof.
  intros Hb Hd Hk Hq He. unfold Restore.
  rewrite (eqb_empty_false _ Hb), (eqb_empty_false _ Hd), Hk.
  assert (Nat.ltb (length (ks1 ++ k :: ks2)) 1 = false) as ->.
  { rewrite length_app. simpl. apply Nat.ltb_ge. lia. }
  unfold bind. by rewrite (find_match_fails _ _ _ _ e).
Qed.

Lemma mkdir_all_blocked (m : N) (rest : path) :
  forall (nm : gmap path node) (pre r1 r2 : path) (n : node),
    rest = r1 ++ r2 -> r1 <> [] -> nm !! (pre ++ r1) = Some n ->
    (forall m', n <> NDir m') ->
    snd (mkdir_all nm pre rest m) = Some (PathError "mkdir" ENOTDIR).
Proof.
  induction rest as [|c rest IH]; intros nm pre r1 r2 n E Hr1 Hn Hnd.
  - symmetry in E. apply app_eq_nil in E as [-> _]. done.
  - destruct r1 as [|c' r1]; [done|]. injection E as <- E. simpl.
    destruct r1 as [|c'' r1].
    + rewrite Hn. destruct n; try reflexivity. by destruct (Hnd perm0).
    + assert (Hpath : pre ++ c :: c'' :: r1 = (pre ++ [c]) ++ c'' :: r1)
        by (by rewrite <- app_assoc).
      rewrite Hpath in Hn.
      destruct (nm !! (pre ++ [c])) as [[m0|j|t]|]; try reflexivity.
      * by apply (IH nm (pre ++ [c]) (c'' :: r1) r2 n).
      * apply (IH _ (pre ++ [c]) (c'' :: r1) r2 n); try done.
        rewrite lookup_insert_ne; [done|]. symmetry. by apply app_ne_self.
Qed.

(** When the target directory or one of its ancestors is a name that is
    not a directory, [Restore] returns [failed to make target directory]
    wrapping the error of [os.MkdirAll], after the listings and without
    opening the object. *)
Lemma Restore_target_blocked_by (i : RestoreRequest.t) (w : World) (m : ObjectAttrs)
    (q r : path) (n : node) :
  valid_restore i ->
  (forall k, In k (RestoreRequest.Keys i) ->
     faults (env w) (EvObjects (RestoreRequest.Bucket i) k) = None) ->
  fst (fst (find_match (RestoreRequest.Bucket i) (RestoreRequest.Keys i) None w)) = Some m ->
  faults (env w) (EvMkdirAll (to_path (RestoreRequest.Dir i)) 493) = None ->
  to_path (RestoreRequest.Dir i) = q ++ r -> q <> [] ->
  names (fs w) !! q = Some n -> (forall m', n <> NDir m') ->
  fst (Restore (Some i) w) =
    Some (wrapError "failed to make target directory: %w"
            [AErr (PathError "mkdir" ENOTDIR)] (PathError "mkdir" ENOTDIR)) /\
  log (snd (Restore (Some i) w)) =
    log w ++ map (EvObjects (RestoreRequest.Bucket i)) (RestoreRequest.Keys i)
          ++ [EvMkdirAll (to_path (RestoreRequest.Dir i)) 493].
Proof.
  intros Hv Hq Hm Hf HD Hne Hn Hnd.
  rewrite find_match_pick in Hm by done. simpl in Hm.
  rewrite Restore_valid by done. rewrite Hm. unfold restore_match, bind.
  pose proof (mkdir_all_blocked 493 (to_path (RestoreRequest.Dir i)) (names (fs w))
                [] q r n HD Hne Hn Hnd) as Hblock.
  destruct (fs_MkdirAll (fs w) (to_path (RestoreRequest.Dir i)) 493) as [cur1 err] eqn:Hrun.
  assert (err = Some (PathError "mkdir" ENOTDIR)) as ->.
  { unfold fs_MkdirAll in Hrun.
    destruct (mkdir_all (names (fs w)) [] (to_path (RestoreRequest.Dir i)) 493).
    injection Hrun as _ <-. exact Hblock. }
  rewrite (os_MkdirAll_run _ _ _ cur1 (Some (PathError "mkdir" ENOTDIR))) by done.
  simpl. split; [reflexivity|]. by rewrite <- app_assoc.
Qed.

(** X11. When the target directory or one of its ancestors is a regular
    file, [Restore] fails after the listing with [failed to make target
    directory], wrapping the [ENOTDIR] of [os.MkdirAll]: the object is
    never opened. *)
Theorem Restore_target_blocked (i : RestoreRequest.t) (w : World) (m : ObjectAttrs)
    (q r : path) (j : nat) :
  valid_restore i ->
  (forall k, In k (RestoreRequest.Keys i) ->
     faults (env w) (EvObjects (RestoreRequest.Bucket i) k) = None) ->
  fst (fst (find_match (RestoreRequest.Bucket i) (RestoreRequest.Keys i) None w)) = Some m ->
  faults (env w) (EvMkdirAll (to_path (RestoreRequest.Dir i)) 493) = None ->
  wf_fs (fs w) = true ->
  to_path (RestoreRequest.Dir i) = q ++ r ->
  names (fs w) !! q = Some (NFile j) ->
  fst (Restore (Some i) w) =
    Some (wrapError "failed to make target directory: %w"
            [AErr (PathError "mkdir" ENOTDIR)] (PathError "mkdir" ENOTDIR)) /\
  log (snd (Restore (Some i) w)) =
    log w ++ map (EvObjects (RestoreRequest.Bucket i)) (RestoreRequest.Keys i)
          ++ [EvMkdirAll (to_path (RestoreRequest.Dir i)) 493].
Proof.
  intros Hv Hq Hm Hf Hwf Hsplit Hn.
  assert (Hne : q <> []).
  { pose proof (wf_fs_lookup _ _ _ Hwf Hn) as Hc. unfold check_name in Hc.
    apply andb_true_iff in Hc as [Hc _]. apply andb_true_iff in Hc as [Hc _].
    apply andb_true_iff in Hc as [Hc _]. by destruct q. }
  by apply (Restore_target_blocked_by i w m q r (NFile j)).
Qed.

(** X12. When the object cannot be opened, [Restore] returns [failed to
    create object reader] wrapping the cause, but the target directory has
    already been made: the failed call leaves it behind. *)
Theorem Restore_reader_failure_leaves_directory (i : RestoreRequest.t) (w : World)
    (m : ObjectAttrs) (e : error) :
  valid_restore i ->
  (forall k, In k (RestoreRequest.Keys i) ->
     faults (env w) (EvObjects (RestoreRequest.Bucket i) k) = None) ->
  fst (fst (find_match (RestoreRequest.Bucket i) (RestoreRequest.Keys i) None w)) = Some m ->
  faults (env w) (EvMkdirAll (to_path (RestoreRequest.Dir i)) 493) = None ->
  snd (fs_MkdirAll (fs w) (to_path (RestoreRequest.Dir i)) 493) = None ->
  faults (env w) (EvNewReader (RestoreRequest.Bucket i) (Name m)) = Some e ->
  fst (Restore (Some i) w) =
    Some (wrapError "failed to create object reader: %w" [AErr e] e) /\
  fs (snd (Restore (Some i) w)) =
    fst (fs_MkdirAll (fs w) (to_path (RestoreRequest.Dir i)) 493) /\
  is_dir (fs (snd (Restore (Some i) w))) (to_path (RestoreRequest.Dir i)) = true.
Proof.
  intros Hv Hq Hm Hf Hmk He.
  rewrite find_match_pick in Hm by done. simpl in Hm.
  rewrite Restore_valid by done. rewrite Hm. unfold restore_match, bind.
  destruct (fs_MkdirAll (fs w) (to_path (RestoreRequest.Dir i)) 493) as [cur1 err] eqn:Hrun.
  simpl in Hmk. subst err.
  rewrite (os_MkdirAll_run _ _ _ cur1 None) by done.
  unfold NewReader, bind, emit, ret. simpl. rewrite He. simpl.
  split; [reflexivity|]. split; [reflexivity|].
  unfold fs_MkdirAll in Hrun.
  destruct (mkdir_all (names (fs w)) [] (to_path (RestoreRequest.Dir i)) 493)
    as [nm' err] eqn:Hall.
  injection Hrun as <- ->.
  destruct (mkdir_all_spec 493 (to_path (RestoreRequest.Dir i)) (names (fs w)) [])
    as (nm'' & Hrun' & _ & Hb).
  { by apply (mkdir_all_success 493 _ (names (fs w)) nm' []). }
  rewrite Hall in Hrun'. injection Hrun' as <-.
  destruct (to_path (RestoreRequest.Dir i)) as [|c D] eqn:HD; [reflexivity|].
  destruct (Hb (c :: D) [] ltac:(by rewrite app_nil_r) ltac:(done)) as [m' Hm'].
  unfold is_dir. simpl in *. by rewrite Hm'.
Qed.

Lemma candidates_In (st : Store) (bucket : string) (keys : list string) (a : ObjectAttrs) :
  In a (candidates st bucket keys) <->
  exists k o, In k keys /\ In o st /\ has_prefix bucket k o = true /\ attrs o = a.
Proof.
  unfold candidates. rewrite in_flat_map. split.
  - intros (k & Hk & Ha). apply in_map_iff in Ha as (o & <- & Ho).
    apply filter_In in Ho as [Ho Hp]. by exists k, o.
  - intros (k & o & Hk & Ho & Hp & <-). exists k. split; [done|].
    apply in_map. by apply filter_In.
Qed.

Lemma pick_max (l : list ObjectAttrs) (m : ObjectAttrs) :
  pick None l = Some m ->
  In m l /\ forall a, In a l -> (Updated a <= Updated m)%Z.
Proof.
  intros H. destruct (pick_None _ _ H) as (l1 & l2 & -> & H1 & H2). split.
  - apply in_app_iff. right. by left.
  - intros a Ha. apply in_app_iff in Ha as [Ha|[<-|Ha]]; [|lia|by apply H2].
    specialize (H1 _ Ha). lia.
Qed.

(** The object the resolver picked can be opened by its name. *)
Lemma picked_is_found (st : Store) (bucket : string) (keys : list string) (m : ObjectAttrs) :
  pick None (candidates st bucket keys) = Some m ->
  is_Some (find_object st bucket (Name m)).
Proof.
  intros H. destruct (pick_max _ _ H) as [Hin _].
  apply candidates_In in Hin as (k & o & _ & Ho & Hp & <-).
  unfold find_object. destruct (List.find _ st) as [o'|] eqn:Hfind; [by eexists|].
  pose proof (find_none _ _ Hfind o Ho) as Hno. unfold same_object in Hno.
  unfold has_prefix in Hp. apply andb_true_iff in Hp as [Hb _].
  by rewrite Hb, String.eqb_refl in Hno.
Qed.

(** X13. Once the object is open, the only error [Restore] can return is
    that of closing the reader: when the close fails, [Restore] returns
    [failed to close gcs reader] wrapping it, whether the extraction
    succeeded or not. *)
Theorem Restore_reports_close_error (i : RestoreRequest.t) (w : World)
    (m : ObjectAttrs) (ce : error) :
  valid_restore i ->
  (forall k, In k (RestoreRequest.Keys i) ->
     faults (env w) (EvObjects (RestoreRequest.Bucket i) k) = None) ->
  fst (fst (find_match (RestoreRequest.Bucket i) (RestoreRequest.Keys i) None w)) = Some m ->
  faults (env w) (EvMkdirAll (to_path (RestoreRequest.Dir i)) 493) = None ->
  snd (fs_MkdirAll (fs w) (to_path (RestoreRequest.Dir i)) 493) = None ->
  faults (env w) (EvNewReader (RestoreRequest.Bucket i) (Name m)) = None ->
  faults (env w) (EvCloseReader (RestoreRequest.Bucket i) (Name m)) = Some ce ->
  fst (Restore (Some i) w) =
    Some (wrapError "failed to close gcs reader: %w" [AErr ce] ce).
Proof.
  intros Hv Hq Hm Hf Hmk Hr Hc.
  rewrite find_match_pick in Hm by done. simpl in Hm.
  destruct (picked_is_found _ _ _ _ Hm) as [o Ho].
  rewrite Restore_valid by done. rewrite Hm. unfold restore_match, bind.
  destruct (fs_MkdirAll (fs w) (to_path (RestoreRequest.Dir i)) 493) as [cur1 err] eqn:Hrun.
  simpl in Hmk. subst err.
  rewrite (os_MkdirAll_run _ _ _ cur1 None) by done.
  rewrite (NewReader_run _ _ _ o) by done.
  match goal with |- context [Extract ?g ?h ?w2] =>
    pose proof (keeps_Extract (RestoreRequest.Dir i) g w2) as (He & _ & _);
    destruct (Extract g h w2) as [x w3] end.
  simpl in He. unfold Reader_Close, emit. rewrite He, Hc. reflexivity.
Qed.

(** X14. The order of the keys expresses no preference: listing the same
    keys in another order leads the resolver to an object with the same
    [Updated] time, the latest among all matches (the order can only decide
    between objects updated at the same instant). *)
Theorem Restore_key_order_irrelevant (bucket : string) (keys keys' : list string)
    (w : World) :
  Permutation keys keys' ->
  (forall k, In k keys -> faults (env w) (EvObjects bucket k) = None) ->
  option_map Updated (fst (fst (find_match bucket keys None w))) =
  option_map Updated (fst (fst (find_match bucket keys' None w))).
Proof.
  intros Hperm Hq.
  assert (Hq' : forall k, In k keys' -> faults (env w) (EvObjects bucket k) = None).
  { intros k Hk. apply Hq. apply (Permutation_in k (Permutation_sym Hperm) Hk). }
  rewrite !find_match_pick by done. simpl.
  assert (Hsame : forall a, In a (candidates (store w) bucket keys) <->
                            In a (candidates (store w) bucket keys')).
  { intros a. rewrite !candidates_In. split.
    - intros (k & o & Hk & rest). exists k, o. split; [|done].
      by apply (Permutation_in k Hperm).
    - intros (k & o & Hk & rest). exists k, o. split; [|done].
      by apply (Permutation_in k (Permutation_sym Hperm)). }
  destruct (pick None (candidates (store w) bucket keys)) as [m1|] eqn:H1;
    destruct (pick None (candidates (store w) bucket keys')) as [m2|] eqn:H2; simpl.
  - destruct (pick_max _ _ H1) as [Hin1 Hmax1]. destruct (pick_max _ _ H2) as [Hin2 Hmax2].
    f_equal. apply Z.le_antisymm.
    + apply Hmax2. by apply Hsame.
    + apply Hmax1. by apply Hsame.
  - destruct (pick_max _ _ H1) as [Hin1 _]. apply pick_is_None in H2.
    apply Hsame in Hin1. rewrite H2 in Hin1. done.
  - destruct (pick_max _ _ H2) as [Hin2 _]. apply pick_is_None in H1.
    apply Hsame in Hin2. rewrite H1 in Hin2. done.
  - reflexivity.
Qed.

End RestoreMore.

(** * The handler on names that exist, and on names that leave the target *)

Section HandlerMore.
Context {codec : Codec}.

Local Arguments fs_MkdirAll : simpl never.
Local Arguments fs_Create : simpl never.
Local Arguments fs_Chmod : simpl never.
Local Arguments fs_Write : simpl never.
Local Arguments fs_Symlink : simpl never.

(** What a successful [os.MkdirAll] leaves: the path is a directory, no
    file was touched, and a name it changed is a new directory. *)
Lemma fs_MkdirAll_spec (cur cur' : FS) (p : path) (m : N) :
  fs_MkdirAll cur p m = (cur', None) ->
  inodes cur' = inodes cur /\ next_ino cur' = next_ino cur /\
  is_dir cur' p = true /\
  (forall q, names cur' !! q = names cur !! q \/
             (names cur !! q = None /\ names cur' !! q = Some (NDir m))).
Proof.
  unfold fs_MkdirAll. destruct (mkdir_all (names cur) [] p m) as [nm err] eqn:Hrun.
  intros H. injection H as H1 H2. subst cur' err. simpl.
  split; [reflexivity|]. split; [reflexivity|].
  pose proof (mkdir_all_success _ _ _ _ _ Hrun) as Hpre.
  destruct (mkdir_all_spec m p (names cur) [] Hpre) as (nm' & Hrun' & Ha & Hb).
  rewrite Hrun in Hrun'. injection Hrun' as <-. split.
  - destruct p as [|c p]; [reflexivity|].
    destruct (Hb (c :: p) [] (eq_sym (app_nil_r _))) as [m' Hm']; [discriminate|].
    simpl in Hm'. unfold is_dir. simpl. by rewrite Hm'.
  - intros q. destruct (Ha q) as [E|(E1 & E2 & _)]; [by left|by right].
Qed.

(** X15. The mode recorded for a directory entry is never applied: when the
    handler succeeds on a directory entry, the path is a directory whose
    permission bits are those it had before if it existed, and [0755] if the
    handler made it. *)
Theorem handler_directory_mode (dir : string) (f : File) (w : World) :
  let fpath := filepath_Join (elements dir) (elements (NameInArchive f)) in
  Typeflag f = TypeDir -> fpath <> [] ->
  fst (handler dir f w) = None ->
  exists m,
    names (fs (snd (handler dir f w))) !! fpath = Some (NDir m) /\
    match names (fs w) !! fpath with
    | None => m = 493%N
    | Some n => n = NDir m
    end.
Proof.
  intros fpath Ht Hne. unfold handler. rewrite Ht. fold fpath.
  change (is_flag TypeDir TypeDir) with true. cbv iota.
  unfold bind.
  destruct (faults (env w) (EvMkdirAll fpath 493)) as [e|] eqn:Hf.
  { unfold os_MkdirAll, bind, emit, ret. simpl. rewrite Hf. simpl. discriminate. }
  destruct (fs_MkdirAll (fs w) fpath 493) as [cur' err] eqn:Hrun.
  rewrite (os_MkdirAll_run _ _ _ cur' err Hf Hrun).
  destruct err as [e|]; simpl; [discriminate|]. intros _.
  destruct (fs_MkdirAll_spec _ _ _ _ Hrun) as (_ & _ & Hd & Hq).
  unfold is_dir in Hd. destruct fpath as [|c p] eqn:E; [done|]. rewrite <- E in *.
  destruct (names cur' !! fpath) as [[m| |]|] eqn:Hn; try discriminate.
  exists m. split; [reflexivity|].
  destruct (Hq fpath) as [Hsame|(Hnone & Hnew)].
  - rewrite <- Hsame, Hn. reflexivity.
  - rewrite Hnone. congruence.
Qed.

(** In a well-formed file system the parent of a name can be made. *)
Lemma parent_exists (cur : FS) (p : path) (n : node) (m : N) :
  wf_fs cur = true -> names cur !! p = Some n ->
  p <> [] /\ exists cur1, fs_MkdirAll cur (filepath_Dir p) m = (cur1, None).
Proof.
  intros Hwf Hp. pose proof (wf_fs_lookup _ _ _ Hwf Hp) as Hc.
  unfold check_name in Hc. apply andb_true_iff in Hc as [Hc _].
  apply andb_true_iff in Hc as [Hc _]. apply andb_true_iff in Hc as [Hne _].
  assert (Hp0 : p <> []) by (by destruct p).
  split; [exact Hp0|].
  destruct (exists_last Hp0) as (d & c & ->).
  unfold filepath_Dir. rewrite removelast_last.
  unfold fs_MkdirAll.
  destruct (mkdir_all_spec m d (names cur) []) as (nm' & Hrun & _).
  - intros r1 r2 -> Hr1. right.
    apply (ancestors_are_dirs cur [] Hwf (r2 ++ [c]) r1 n); [done| |].
    + by destruct r2.
    + simpl. by rewrite <- app_assoc in Hp.
  - rewrite Hrun. by eexists.
Qed.

(** X16. A regular entry whose path is an existing file is written in
    place: the file is truncated and filled through its inode, so every name
    of that file, hard links outside the restored tree included, shows the
    content and the mode of the entry afterwards. *)
Theorem handler_rewrites_existing_file (dir : string) (f : File) (w : World) (i : nat) :
  let fpath := filepath_Join (elements dir) (elements (NameInArchive f)) in
  regular_flag (Typeflag f) = true ->
  (forall ev, faults (env w) ev = None) ->
  wf_fs (fs w) = true ->
  names (fs w) !! fpath = Some (NFile i) ->
  fst (handler dir f w) = None /\
  forall q, names (fs w) !! q = Some (NFile i) ->
    stat (fs (snd (handler dir f w))) q = Some (VFile (Mode f) (Content f)).
Proof.
  intros fpath Hreg Hq Hwf Hp.
  destruct (parent_exists _ _ _ 493 Hwf Hp) as (Hne & fs1 & Hmk).
  destruct (fs_MkdirAll_spec _ _ _ _ Hmk) as (Hino & Hnext & Hd & Hnames).
  assert (Hkeep : forall q n, names (fs w) !! q = Some n -> names fs1 !! q = Some n).
  { intros q n Hn. destruct (Hnames q) as [E|(E & _)]; congruence. }
  set (f0 := {| perm := default 438%N (perm <$> inodes fs1 !! i); content := [] |}).
  set (fs2 := {| names := names fs1; inodes := <[i := f0]> (inodes fs1);
                 next_ino := next_ino fs1 |}).
  assert (Hcreate : fs_Create fs1 fpath = (fs2, inr i)).
  { unfold fs_Create, parent_error. rewrite Hd, (Hkeep _ _ Hp).
    by destruct fpath. }
  rewrite (handler_regular_run dir f w fs1 fs2 i) by (try apply Hq; auto).
  fold fpath. rewrite Hq. simpl. split; [reflexivity|].
  intros q Hn. unfold stat, fs_Write, fs_Chmod. simpl.
  rewrite (Hkeep _ _ Hn), !lookup_alter_eq, lookup_insert_eq. reflexivity.
Qed.

(** X17. A symbolic-link entry never replaces a name that exists: the
    handler fails with [EEXIST] and the name stays what it was, so a link
    restored earlier keeps its old target. *)
Theorem handler_symlink_on_existing_name (dir : string) (f : File) (w : World)
    (fs1 : FS) (n : node) :
  let fpath := filepath_Join (elements dir) (elements (NameInArchive f)) in
  Typeflag f = TypeSymlink ->
  faults (env w) (EvMkdirAll (filepath_Dir fpath) 493) = None ->
  faults (env w) (EvSymlink (Linkname f) fpath) = None ->
  fs_MkdirAll (fs w) (filepath_Dir fpath) 493 = (fs1, None) ->
  names (fs w) !! fpath = Some n ->
  handler dir f w =
    (Some (errorString "%s: making symbolic link for: %v"
             [show fpath; AErr (PathError "symlink" EEXIST)]),
     upd w fs1 [EvMkdirAll (filepath_Dir fpath) 493; EvSymlink (Linkname f) fpath]) /\
  names fs1 !! fpath = Some n.
Proof.
  intros fpath Ht Hf1 Hf2 Hmk Hp.
  destruct (fs_MkdirAll_spec _ _ _ _ Hmk) as (_ & _ & Hd & Hnames).
  assert (Hp1 : names fs1 !! fpath = Some n).
  { destruct (Hnames fpath) as [E|(E & _)]; congruence. }
  split; [|exact Hp1].
  unfold handler. rewrite Ht. fold fpath.
  change (is_flag TypeSymlink TypeDir) with false.
  change (is_flag TypeSymlink TypeReg || is_flag TypeSymlink TypeRegA
          || is_flag TypeSymlink TypeChar || is_flag TypeSymlink TypeBlock
          || is_flag TypeSymlink TypeFifo) with false.
  change (is_flag TypeSymlink TypeSymlink) with true. cbv iota.
  rewrite (make_parent_run _ _ _ _ Hf1 Hmk). unfold bind.
  rewrite (os_Symlink_run (Linkname f) fpath _ fs1 (Some (PathError "symlink" EEXIST))).
  - by rewrite upd_upd.
  - exact Hf2.
  - unfold fs_Symlink, parent_error. simpl. rewrite Hd, Hp1. by destruct fpath.
Qed.

(** X18. The handler does not confine an entry to the target directory: the
    name of the entry is joined to [dir] and cleaned, nothing more.  An entry
    named [../n] restored into the directory [d] is written to [n], beside
    [d]. *)
Theorem handler_entry_can_leave_target (d n : string) (f : File) (w : World) :
  is_name d = true -> is_name n = true ->
  NameInArchive f = "../" +:+ n ->
  regular_flag (Typeflag f) = true ->
  (forall ev, faults (env w) ev = None) ->
  names (fs w) !! [n] = None ->
  to_path d = [d] /\
  filepath_Join (elements d) (elements (NameInArchive f)) = [n] /\
  fst (handler d f w) = None /\
  stat (fs (snd (handler d f w))) [n] = Some (VFile (Mode f) (Content f)).
Proof.
  intros Hd Hn Hname Hreg Hq Hfree.
  assert (Hed : elements d = [d]) by (by apply elements_single, is_name_no_slash).
  assert (Hen : elements (NameInArchive f) = [".."; n]).
  { rewrite Hname. change ("../" +:+ n) with (".." +:+ String slash n).
    rewrite elements_cons by reflexivity.
    by rewrite elements_single by (by apply is_name_no_slash). }
  assert (Hpath : filepath_Join (elements d) (elements (NameInArchive f)) = [n]).
  { rewrite Hed, Hen. unfold filepath_Join, filepath_Clean. simpl.
    rewrite (clean_step_name [] d Hd).
    change (clean_step [d] "..") with (@nil string).
    by rewrite (clean_step_name [] n Hn). }
  split.
  { unfold to_path, filepath_Clean. rewrite Hed. simpl.
    by rewrite (clean_step_name [] d Hd). }
  split; [exact Hpath|].
  set (fs1 := {| names := names (fs w); inodes := inodes (fs w);
                 next_ino := next_ino (fs w) |}).
  set (fs2 := {| names := <[[n] := NFile (next_ino (fs w))]> (names (fs w));
                 inodes := <[next_ino (fs w) := {| perm := 438%N; content := [] |}]>
                             (inodes (fs w));
                 next_ino := S (next_ino (fs w)) |}).
  rewrite (handler_regular_run d f w fs1 fs2 (next_ino (fs w)));
    rewrite ?Hpath; try apply Hq; try done.
  - rewrite Hq. simpl. split; [reflexivity|].
    unfold stat, fs_Write, fs_Chmod. simpl.
    rewrite lookup_insert_eq, !lookup_alter_eq, lookup_insert_eq. reflexivity.
  - by left.
  - unfold fs_Create, parent_error. simpl. by rewrite Hfree.
Qed.

End HandlerMore.

(** * Hard-link entries *)

Section HardLinks.
Context {codec : Codec}.

Local Arguments fs_MkdirAll : simpl never.
Local Arguments fs_Link : simpl never.

Lemma elements_nonempty (s : string) : elements s <> [].
Proof.
  destruct s as [|c s]; simpl; [discriminate|].
  destruct (Ascii.eqb c slash); [discriminate|].
  destruct (elements s); discriminate.
Qed.

Lemma elements_no_slash (s : string) : forallb no_slash (elements s) = true.
Proof.
  induction s as [|c s IH]; [reflexivity|]. cbn [elements].
  destruct (Ascii.eqb c slash) eqn:E; [exact IH|].
  destruct (elements s) as [|x xs]; cbn [forallb no_slash] in *; rewrite E; [reflexivity|].
  exact IH.
Qed.

Lemma clean_step_names (acc : list string) (c : string) :
  no_slash c = true -> forallb is_name acc = true ->
  forallb is_name (clean_step acc c) = true.
Proof.
  intros Hc Hacc. unfold clean_step.
  destruct (String.eqb c EmptyString) eqn:E1; [done|].
  destruct (String.eqb c ".") eqn:E2; [done|].
  destruct (String.eqb c "..") eqn:E3.
  - destruct acc as [|a acc]; [done|]. simpl in Hacc.
    by apply andb_true_iff in Hacc as [_ ?].
  - cbn [forallb]. rewrite Hacc. unfold is_name. by rewrite E1, E2, E3, Hc.
Qed.

Lemma fold_clean_step_names (l acc : list string) :
  forallb no_slash l = true -> forallb is_name acc = true ->
  forallb is_name (fold_left clean_step l acc) = true.
Proof.
  revert acc. induction l as [|c l IH]; intros acc Hl Hacc; [done|].
  simpl in Hl. apply andb_true_iff in Hl as [Hc Hl]. simpl.
  apply IH; [done|]. by apply clean_step_names.
Qed.

(** A joined path is clean: its elements are proper names. *)
Lemma filepath_Join_is_names (a b : string) :
  forallb is_name (filepath_Join (elements a) (elements b)) = true.
Proof.
  unfold filepath_Join, filepath_Clean. apply forallb_forall. intros x Hx.
  apply in_rev in Hx. revert x Hx. apply forallb_forall.
  apply fold_clean_step_names; [|reflexivity].
  by rewrite forallb_app, !elements_no_slash.
Qed.

Lemma fs_MkdirAll_changes (cur : FS) (p q : path) (m : N) :
  names (fst (fs_MkdirAll cur p m)) !! q = names cur !! q \/
  (names cur !! q = None /\ names (fst (fs_MkdirAll cur p m)) !! q = Some (NDir m)).
Proof.
  unfold fs_MkdirAll. pose proof (mkdir_all_changes m p (names cur) [] q) as H.
  destruct (mkdir_all (names cur) [] p m) as [nm err]. simpl in *.
  destruct H as [E|(E1 & E2 & _)]; [by left|by right].
Qed.

(** A link from a name under [new] to [new] cannot be made: the source
    does not exist, or it is a directory, or [new] exists already. *)
Lemma fs_Link_from_below (cur fs1 : FS) (new rel : path) :
  wf_fs cur = true -> rel <> [] ->
  (forall q, names fs1 !! q = names cur !! q \/
             (names cur !! q = None /\ names fs1 !! q = Some (NDir 493))) ->
  exists e, fs_Link fs1 (new ++ rel) new = (fs1, Some e).
Proof.
  intros Hwf Hrel Hnames. unfold fs_Link.
  destruct (names fs1 !! (new ++ rel)) as [n|] eqn:Hold; [|by eexists].
  destruct new as [|c p]; [destruct n; by eexists|].
  destruct n as [m|i|t]; [by eexists| |].
  all: match type of Hold with
       | _ = Some ?n0 =>
           assert (Hcur : names cur !! ((c :: p) ++ rel) = Some n0)
             by (destruct (Hnames ((c :: p) ++ rel)) as [E|(_ & E)]; congruence)
       end.
  all: destruct (ancestors_are_dirs cur [] Hwf rel (c :: p) _ ltac:(done) Hrel Hcur)
         as [m' Hdir].
  all: assert (Hnew : names fs1 !! (c :: p) = Some (NDir m'))
         by (destruct (Hnames (c :: p)) as [E|(E & _)]; simpl in Hdir; congruence).
  all: destruct (parent_error fs1 "link" (c :: p)); [by eexists|].
  all: rewrite Hnew; by eexists.
Qed.

(** X19. A hard-link entry whose recorded target is a plain relative name
    never yields a link.  The handler asks for a link from the target joined
    to the path of the entry itself, a name under the path the link is to
    get; in a well-formed file system that call cannot succeed.  So the
    handler fails on every such entry, whatever the environment, and the
    only names it can have added are directories with mode [0755]. *)
Theorem handler_hardlink_never_links (dir : string) (f : File) (w : World) :
  Typeflag f = TypeLink ->
  forallb is_name (elements (Linkname f)) = true ->
  wf_fs (fs w) = true ->
  fst (handler dir f w) <> None /\
  forall q,
    names (fs (snd (handler dir f w))) !! q = names (fs w) !! q \/
    (names (fs w) !! q = None /\
     names (fs (snd (handler dir f w))) !! q = Some (NDir 493)).
Proof.
  intros Ht Hl Hwf. unfold handler. rewrite Ht.
  set (fpath := filepath_Join (elements dir) (elements (NameInArchive f))).
  change (is_flag TypeLink TypeDir) with false.
  change (is_flag TypeLink TypeReg || is_flag TypeLink TypeRegA
          || is_flag TypeLink TypeChar || is_flag TypeLink TypeBlock
          || is_flag TypeLink TypeFifo) with false.
  change (is_flag TypeLink TypeSymlink) with false.
  change (is_flag TypeLink TypeLink) with true. cbv iota.
  assert (Hold : filepath_Join fpath (elements (Linkname f)) =
                 fpath ++ elements (Linkname f)).
  { unfold filepath_Join at 1. apply clean_names.
    rewrite forallb_app, Hl. unfold fpath. by rewrite filepath_Join_is_names. }
  rewrite Hold. unfold make_parent, bind.
  destruct (faults (env w) (EvMkdirAll (filepath_Dir fpath) 493)) as [e|] eqn:Hf1.
  { unfold os_MkdirAll, bind, emit, ret. simpl. rewrite Hf1. simpl.
    split; [discriminate|]. intros q. by left. }
  destruct (fs_MkdirAll (fs w) (filepath_Dir fpath) 493) as [fs1 err] eqn:Hrun.
  assert (Hnames : forall q, names fs1 !! q = names (fs w) !! q \/
                     (names (fs w) !! q = None /\ names fs1 !! q = Some (NDir 493))).
  { intros q. pose proof (fs_MkdirAll_changes (fs w) (filepath_Dir fpath) q 493) as H.
    by rewrite Hrun in H. }
  rewrite (os_MkdirAll_run _ _ _ fs1 err Hf1 Hrun).
  destruct err as [e|].
  { simpl. split; [discriminate|]. exact Hnames. }
  destruct (faults (env w) (EvLink (fpath ++ elements (Linkname f)) fpath)) as [e|] eqn:Hf2.
  { unfold os_Link, bind, emit, ret. simpl. rewrite Hf2. simpl.
    split; [discriminate|]. exact Hnames. }
  destruct (fs_Link_from_below (fs w) fs1 fpath (elements (Linkname f)) Hwf
              (elements_nonempty _) Hnames) as [e He].
  rewrite (os_Link_run _ _ _ fs1 (Some e)) by done.
  simpl. split; [discriminate|]. exact Hnames.
Qed.

End HardLinks.

(** * More on the hasher *)

Section HasherMore.
Context {blake : Blake2b}.

Lemma hashOne_success (disk : Disk) (name : string) (h : DigestState) :
  snd (hashOne disk name h) = None -> readable disk name.
Proof.
  unfold hashOne, readable. destruct (disk name) as [e|f]; [discriminate|].
  intros H. exists f. split; [reflexivity|].
  destruct (Stat f) as [e|[|]].
  - simpl in H. by destruct (Close f).
  - simpl in H. destruct (Close f); [discriminate|].
    split; [|reflexivity]. exists true. split; [reflexivity|discriminate].
  - destruct (Read f) as [bytes [e|]]; simpl in H.
    + by destruct (Close f).
    + destruct (Close f); [discriminate|].
      split; [|reflexivity]. exists false. split; reflexivity.
Qed.

(** The error of [hashOne] on a name does not depend on what was hashed
    before. *)
Lemma hashOne_error_any (disk : Disk) (name : string) (h h' : DigestState) :
  snd (hashOne disk name h) = snd (hashOne disk name h').
Proof.
  unfold hashOne. destruct (disk name) as [e|f]; [reflexivity|].
  destruct (Stat f) as [e|[|]]; try reflexivity.
  by destruct (Read f) as [bytes [e|]].
Qed.

Lemma hash_all_success (disk : Disk) (files : list string) :
  forall h, snd (hash_all disk files h) = None -> Forall (readable disk) files.
Proof.
  induction files as [|name files IH]; intros h H; [constructor|].
  simpl in H. destruct (hashOne disk name h) as [h' [e|]] eqn:Hone; [discriminate|].
  constructor.
  - apply (hashOne_success disk name h). by rewrite Hone.
  - by apply (IH h').
Qed.

Lemma hash_all_stops (disk : Disk) (l1 l2 : list string) (name : string) (cause : error) :
  forall h, Forall (readable disk) l1 ->
    snd (hashOne disk name []) = Some cause ->
    hash_all disk (l1 ++ name :: l2) h =
      (h ++ hashed_bytes disk l1,
       Some (wrapError "failed to hash %s: %w" [AStr name; AErr cause] cause)).
Proof.
  induction l1 as [|x l1 IH]; intros h Hall Hc; simpl.
  - rewrite (hashOne_error_any disk name [] h) in Hc.
    destruct (hashOne disk name h) as [h' err]. simpl in Hc. subst err.
    by rewrite app_nil_r.
  - inversion Hall as [|? ? Hr Hrest]; subst.
    rewrite (hashOne_readable _ _ _ Hr), IH by done.
    unfold hashed_bytes. simpl. by rewrite app_nil_r, <- app_assoc.
Qed.

(** X20. [HashFiles] succeeds exactly when every name of the list can be
    opened, statted, read to its end (unless it is a directory) and closed:
    one failing call on one name fails the whole hash, and nothing else
    does, the creation of the hash in particular never fails. *)
Theorem HashFiles_succeeds_iff_readable (disk : Disk) (files : list string) :
  snd (HashFiles disk files) = None <-> Forall (readable disk) files.
Proof.
  unfold HashFiles. simpl. split.
  - intros H. apply (hash_all_success disk files []).
    by destruct (hash_all disk files []) as [h' [e|]].
  - intros H. by rewrite hash_all_readable.
Qed.

(** X21. [HashFiles] stops at the first name that fails: it returns the
    empty string and an error that carries that name and wraps the failure
    of [hashOne] on it; the names after it play no part. *)
Theorem HashFiles_fails_at_first_unreadable (disk : Disk) (l1 l2 : list string)
    (name : string) :
  Forall (readable disk) l1 -> ~ readable disk name ->
  exists cause,
    snd (hashOne disk name []) = Some cause /\
    HashFiles disk (l1 ++ name :: l2) =
      (EmptyString,
       Some (wrapError "failed to hash %s: %w" [AStr name; AErr cause] cause)).
Proof.
  intros Hall Hno.
  destruct (snd (hashOne disk name [])) as [cause|] eqn:Hone.
  - exists cause. split; [reflexivity|].
    unfold HashFiles. simpl. by rewrite (hash_all_stops disk l1 l2 name cause).
  - exfalso. apply Hno. by apply (hashOne_success disk name []).
Qed.

(** X22. Only the bytes enter the digest: neither the names of the files
    nor the places where one file ends and the next begins.  Two lists of
    readable files, on any two disks, whose contents concatenate to the same
    bytes get the same result. *)
Theorem HashFiles_sees_bytes_only (disk disk' : Disk) (files files' : list string) :
  Forall (readable disk) files -> Forall (readable disk') files' ->
  hashed_bytes disk files = hashed_bytes disk' files' ->
  HashFiles disk files = HashFiles disk' files'.
Proof.
  intros H1 H2 E. unfold HashFiles. simpl.
  rewrite !hash_all_readable by done. simpl. by rewrite E.
Qed.

End HasherMore.

(** ** Concrete runs of the further properties *)

(** The world [w] in which the calls that [fl] names fail. *)
Definition failing (fl : Event -> option error) (w : World) : World :=
  {| env := {| faults := fl; windows := windows (env w); now := now (env w);
               concurrent := concurrent (env w) |};
     fs := fs w; store := store w; log := log w |}.

Lemma link_archive_is_plain : plain_extraction "out" link_archive (fs w_link).
Proof.
  split.
  - reflexivity.
  - intros f [<-|[<-|[]]]; reflexivity.
  - vm_compute. reflexivity.
  - intros f q t _ _. simpl. by rewrite lookup_empty.
  - intros l1 g l2 f E Hg Hin.
    destruct l1 as [|x l1]; [injection E as <- <-; discriminate Hg|].
    destruct l1 as [|y l1]; [injection E as _ <- <-; destruct Hin|].
    injection E as _ _ E. by destruct l1.
Defined.

Lemma extraction_adds_entry_paths_only_witness :
  names (fs w_link) !! ["out"; "a"] = None /\
  exists f, In f (fst (decode link_archive)) /\
    leads_to (entry_path "out" f) ["out"; "a"].
Proof.
  apply (@extraction_adds_entry_paths_only entries_codec "out" link_archive w_link
           link_archive_is_plain ["out"; "a"]).
  vm_compute. discriminate.
Defined.

Definition save_no_key : SaveRequest.t :=
  {| SaveRequest.Bucket := "b"; SaveRequest.Key := EmptyString;
     SaveRequest.Dir := "src" |}.

Lemma Save_rejects_incomplete_request_witness :
  exists msg,
    Save (Some save_no_key) w_tree = (Some (errorString msg []), w_tree) /\
    ((SaveRequest.Bucket save_no_key = EmptyString /\ msg = "missing bucket") \/
     (SaveRequest.Bucket save_no_key <> EmptyString /\
      SaveRequest.Dir save_no_key = EmptyString /\ msg = "missing directory") \/
     (SaveRequest.Bucket save_no_key <> EmptyString /\
      SaveRequest.Dir save_no_key <> EmptyString /\
      SaveRequest.Key save_no_key = EmptyString /\ msg = "missing key")).
Proof.
  apply (Save_rejects_incomplete_request save_no_key w_tree).
  intros (_ & _ & H). by apply H.
Defined.

Definition w_probe_fails : World :=
  failing (fun ev => match ev with
                     | EvAttrs _ _ => Some (ioError "timeout")
                     | _ => None
                     end) w_tree.

Lemma Save_probe_failure_witness :
  Save (Some save_k) w_probe_fails =
    (Some (wrapError "failed to check if cached object exists: %w"
             [AErr (ioError "timeout")] (ioError "timeout")),
     add_log w_probe_fails [EvAttrs "b" "k"]).
Proof.
  apply (Save_probe_failure save_k w_probe_fails (ioError "timeout")).
  - split; [discriminate|]. split; discriminate.
  - reflexivity.
  - reflexivity.
Defined.

Lemma Save_commits_one_object_witness :
  fst (Save (Some save_k) w_tree) = None /\
  fs (snd (Save (Some save_k) w_tree)) = fs w_tree /\
  store (snd (Save (Some save_k) w_tree)) =
    store w_tree ++
      [committed "b" "k" (now (env w_tree)) (encode (walk (fs w_tree) "src"))].
Proof.
  apply (Save_commits_one_object save_k w_tree).
  - split; [discriminate|]. split; discriminate.
  - apply quiet_is_quiet.
  - vm_compute. reflexivity.
  - vm_compute. reflexivity.
Defined.

(** The file [src/d/e] cannot be read when it is archived. *)
Definition w_unreadable : World :=
  failing (fun ev => match ev with
                     | EvArchiveEntry name =>
                         if String.eqb name "src/d/e"
                         then Some (PathError "open" "permission denied") else None
                     | _ => None
                     end) w_tree.

Lemma Save_failed_body_still_commits_witness :
  fst (Save (Some save_k) w_unreadable) =
    Some (PathError "open" "permission denied") /\
  store (snd (Save (Some save_k) w_unreadable)) =
    concurrent (env w_unreadable) (store w_unreadable) ++
      [committed "b" "k" (now (env w_unreadable))
         (truncated [entry "src" TypeDir EmptyString 493 [];
                     entry "src/a" TypeReg EmptyString 420 [x01%byte];
                     entry "src/d" TypeDir EmptyString 448 []]
            (entry "src/d/e" TypeReg EmptyString 292 [x02; x03]%byte))] /\
  Save (Some save_k) (snd (Save (Some save_k) w_unreadable)) =
    (None, add_log (snd (Save (Some save_k) w_unreadable)) [EvAttrs "b" "k"]).
Proof.
  apply (Save_failed_body_still_commits save_k w_unreadable
           [entry "src" TypeDir EmptyString 493 [];
            entry "src/a" TypeReg EmptyString 420 [x01%byte];
            entry "src/d" TypeDir EmptyString 448 []]
           [entry "src/d/l" TypeSymlink "../a" 511 []]
           (entry "src/d/e" TypeReg EmptyString 292 [x02; x03]%byte)
           (PathError "open" "permission denied")).
  - split; [discriminate|]. split; discriminate.
  - reflexivity.
  - vm_compute. reflexivity.
  - reflexivity.
  - vm_compute. reflexivity.
  - intros g [<-|[<-|[<-|[]]]]; reflexivity.
  - reflexivity.
  - reflexivity.
  - vm_compute. reflexivity.
Defined.

(** The file [src/a] cannot be read when it is archived, and another
    process creates the key before the commit. *)
Definition w_unreadable_race : World :=
  {| env := {| faults := fun ev => match ev with
                                   | EvArchiveEntry name =>
                                       if String.eqb name "src/a"
                                       then Some (PathError "open" "permission denied")
                                       else None
                                   | _ => None
                                   end;
               windows := false; now := 1700000000;
               concurrent := fun st => st ++ [object "b" "k" 1699999999 []] |};
     fs := src_fs; store := []; log := [] |}.

Lemma Save_body_and_close_failure_witness :
  exists r,
    fst (Save (Some save_k) w_unreadable_race) = Some r /\
    r = wrapError "%v: failed to close gcs writer: %w"
          [AErr (PathError "open" "permission denied");
           AErr (googleapiError StatusPreconditionFailed)]
          (googleapiError StatusPreconditionFailed) /\
    errors_Unwrap r = Some (googleapiError StatusPreconditionFailed) /\
    is_ErrObjectNotExist r =
      is_ErrObjectNotExist (googleapiError StatusPreconditionFailed).
Proof.
  apply (Save_body_and_close_failure save_k w_unreadable_race
           [entry "src" TypeDir EmptyString 493 []] []
           (entry "src/a" TypeReg EmptyString 420 [x01%byte])
           (PathError "open" "permission denied")
           (googleapiError StatusPreconditionFailed)).
  - split; [discriminate|]. split; discriminate.
  - reflexivity.
  - vm_compute. reflexivity.
  - reflexivity.
  - vm_compute. reflexivity.
  - intros g [<-|[]]; reflexivity.
  - reflexivity.
  - right. split; [reflexivity|]. split; [|reflexivity]. vm_compute. by eexists.
Defined.

(** The directory [gone] does not exist. *)
Definition save_gone : SaveRequest.t :=
  {| SaveRequest.Bucket := "b"; SaveRequest.Key := "k"; SaveRequest.Dir := "gone" |}.

Lemma Save_of_missing_directory_witness :
  fst (Save (Some save_gone) w_tree) = None /\
  store (snd (Save (Some save_gone) w_tree)) =
    store w_tree ++ [committed "b" "k" (now (env w_tree)) (encode [])].
Proof.
  apply (Save_of_missing_directory save_gone w_tree).
  - split; [discriminate|]. split; discriminate.
  - apply quiet_is_quiet.
  - vm_compute. reflexivity.
  - vm_compute. discriminate.
  - vm_compute. reflexivity.
  - vm_compute. reflexivity.
Defined.

Definition restore_no_keys : RestoreRequest.t :=
  {| RestoreRequest.Bucket := "b"; RestoreRequest.Keys := [];
     RestoreRequest.Dir := "out" |}.

Lemma Restore_rejects_incomplete_request_witness :
  exists msg,
    Restore (Some restore_no_keys) w_two = (Some (errorString msg []), w_two) /\
    ((RestoreRequest.Bucket restore_no_keys = EmptyString /\ msg = "missing bucket") \/
     (RestoreRequest.Bucket restore_no_keys <> EmptyString /\
      RestoreRequest.Dir restore_no_keys = EmptyString /\ msg = "missing directory") \/
     (RestoreRequest.Bucket restore_no_keys <> EmptyString /\
      RestoreRequest.Dir restore_no_keys <> EmptyString /\
      RestoreRequest.Keys restore_no_keys = [] /\
      msg = "expected at least one cache key")).
Proof.
  apply (Restore_rejects_incomplete_request restore_no_keys w_two).
  intros (_ & _ & H). by apply H.
Defined.

(** The listing of the second key fails. *)
Definition restore_k_z : RestoreRequest.t :=
  {| RestoreRequest.Bucket := "b"; RestoreRequest.Keys := ["k"; "z"];
     RestoreRequest.Dir := "out" |}.

Definition w_listing_fails : World :=
  failing (fun ev => match ev with
                     | EvObjects _ p =>
                         if String.eqb p "z" then Some (googleapiError 503) else None
                     | _ => None
                     end) w_two.

Lemma Restore_listing_failure_witness :
  Restore (Some restore_k_z) w_listing_fails =
    (Some (wrapError "failed to list %s: %w" [AStr "z"; AErr (googleapiError 503)]
             (googleapiError 503)),
     add_log w_listing_fails (map (EvObjects "b") (["k"] ++ ["z"]))).
Proof.
  apply (Restore_listing_failure restore_k_z w_listing_fails ["k"] "z" []
           (googleapiError 503)).
  - discriminate.
  - discriminate.
  - reflexivity.
  - intros k' [<-|[]]. reflexivity.
  - reflexivity.
Defined.

(** The target [out] is a file. *)
Definition w_out_is_file : World :=
  {| env := quiet false;
     fs := {| names := <[ ["out"] := NFile 0 ]> ∅;
              inodes := <[ 0%nat := {| perm := 420; content := [] |} ]> ∅;
              next_ino := 1 |};
     store := [object "b" "k" 10 link_archive]; log := [] |}.

Lemma Restore_target_blocked_witness :
  fst (Restore (Some restore_k) w_out_is_file) =
    Some (wrapError "failed to make target directory: %w"
            [AErr (PathError "mkdir" ENOTDIR)] (PathError "mkdir" ENOTDIR)) /\
  log (snd (Restore (Some restore_k) w_out_is_file)) =
    log w_out_is_file ++ map (EvObjects "b") ["k"] ++ [EvMkdirAll (to_path "out") 493].
Proof.
  apply (Restore_target_blocked restore_k w_out_is_file
           (attrs (object "b" "k" 10 link_archive)) ["out"] [] 0).
  - split; [discriminate|]. split; discriminate.
  - intros k _. reflexivity.
  - vm_compute. reflexivity.
  - reflexivity.
  - vm_compute. reflexivity.
  - vm_compute. reflexivity.
  - vm_compute. reflexivity.
Defined.

(** The object cannot be opened. *)
Definition w_reader_fails : World :=
  failing (fun ev => match ev with
                     | EvNewReader _ _ => Some (googleapiError 403)
                     | _ => None
                     end) w_link.

Lemma Restore_reader_failure_leaves_directory_witness :
  fst (Restore (Some restore_k) w_reader_fails) =
    Some (wrapError "failed to create object reader: %w"
            [AErr (googleapiError 403)] (googleapiError 403)) /\
  fs (snd (Restore (Some restore_k) w_reader_fails)) =
    fst (fs_MkdirAll (fs w_reader_fails) (to_path "out") 493) /\
  is_dir (fs (snd (Restore (Some restore_k) w_reader_fails))) (to_path "out") = true.
Proof.
  apply (Restore_reader_failure_leaves_directory restore_k w_reader_fails
           (attrs (object "b" "k" 10 link_archive)) (googleapiError 403)).
  - split; [discriminate|]. split; discriminate.
  - intros k _. reflexivity.
  - vm_compute. reflexivity.
  - reflexivity.
  - vm_compute. reflexivity.
  - reflexivity.
Defined.

(** The reader cannot be closed. *)
Definition w_close_fails : World :=
  failing (fun ev => match ev with
                     | EvCloseReader _ _ => Some (ioError "connection reset")
                     | _ => None
                     end) w_link.

Lemma Restore_reports_close_error_witness :
  fst (Restore (Some restore_k) w_close_fails) =
    Some (wrapError "failed to close gcs reader: %w"
            [AErr (ioError "connection reset")] (ioError "connection reset")).
Proof.
  apply (Restore_reports_close_error restore_k w_close_fails
           (attrs (object "b" "k" 10 link_archive)) (ioError "connection reset")).
  - split; [discriminate|]. split; discriminate.
  - intros k _. reflexivity.
  - vm_compute. reflexivity.
  - reflexivity.
  - vm_compute. reflexivity.
  - reflexivity.
  - reflexivity.
Defined.

Lemma Restore_key_order_irrelevant_witness :
  option_map Updated (fst (fst (find_match "b" ["k-1"; "k-2"] None w_two))) =
  option_map Updated (fst (fst (find_match "b" ["k-2"; "k-1"] None w_two))).
Proof.
  apply (Restore_key_order_irrelevant "b" ["k-1"; "k-2"] ["k-2"; "k-1"] w_two).
  - apply perm_swap.
  - intros k _. reflexivity.
Defined.

Lemma handler_directory_mode_witness :
  exists m,
    names (fs (snd (handler "out" (entry "d" TypeDir EmptyString 448 []) (w_empty false))))
      !! filepath_Join (elements "out") (elements "d") = Some (NDir m) /\
    match names (fs (w_empty false)) !! filepath_Join (elements "out") (elements "d") with
    | None => m = 493%N
    | Some n => n = NDir m
    end.
Proof.
  apply (handler_directory_mode "out" (entry "d" TypeDir EmptyString 448 [])
           (w_empty false)).
  - reflexivity.
  - vm_compute. discriminate.
  - vm_compute. reflexivity.
Defined.

(** [out/a] is a file that has a second name, [alias], outside [out]. *)
Definition w_alias : World :=
  {| env := quiet false;
     fs := {| names := <[ ["alias"] := NFile 0 ]>
                         (<[ ["out"; "a"] := NFile 0 ]> (<[ ["out"] := NDir 493 ]> ∅));
              inodes := <[ 0%nat := {| perm := 256; content := [x09%byte] |} ]> ∅;
              next_ino := 1 |};
     store := []; log := [] |}.

Lemma handler_rewrites_existing_file_witness :
  fst (handler "out" (entry "a" TypeReg EmptyString 420 [x01%byte]) w_alias) = None /\
  forall q, names (fs w_alias) !! q = Some (NFile 0) ->
    stat (fs (snd (handler "out" (entry "a" TypeReg EmptyString 420 [x01%byte]) w_alias))) q
      = Some (VFile 420 [x01%byte]).
Proof.
  apply (handler_rewrites_existing_file "out"
           (entry "a" TypeReg EmptyString 420 [x01%byte]) w_alias 0).
  - reflexivity.
  - intros ev. reflexivity.
  - vm_compute. reflexivity.
  - vm_compute. reflexivity.
Defined.

(** [out/l] is a symbolic link to [old]. *)
Definition w_old_link : World :=
  {| env := quiet false;
     fs := {| names := <[ ["out"; "l"] := NSymlink "old" ]> (<[ ["out"] := NDir 493 ]> ∅);
              inodes := ∅; next_ino := 0 |};
     store := []; log := [] |}.

Lemma handler_symlink_on_existing_name_witness :
  handler "out" (entry "l" TypeSymlink "new" 511 []) w_old_link =
    (Some (errorString "%s: making symbolic link for: %v"
             [show ["out"; "l"]; AErr (PathError "symlink" EEXIST)]),
     upd w_old_link (fst (fs_MkdirAll (fs w_old_link) ["out"] 493))
       [EvMkdirAll ["out"] 493; EvSymlink "new" ["out"; "l"]]) /\
  names (fst (fs_MkdirAll (fs w_old_link) ["out"] 493)) !! ["out"; "l"] =
    Some (NSymlink "old").
Proof.
  apply (handler_symlink_on_existing_name "out" (entry "l" TypeSymlink "new" 511 [])
           w_old_link (fst (fs_MkdirAll (fs w_old_link) ["out"] 493)) (NSymlink "old")).
  - reflexivity.
  - reflexivity.
  - reflexivity.
  - vm_compute. reflexivity.
  - vm_compute. reflexivity.
Defined.

Lemma handler_entry_can_leave_target_witness :
  to_path "out" = ["out"] /\
  filepath_Join (elements "out") (elements "../etc") = ["etc"] /\
  fst (handler "out" (entry "../etc" TypeReg EmptyString 420 [x01%byte]) (w_empty false))
    = None /\
  stat (fs (snd (handler "out" (entry "../etc" TypeReg EmptyString 420 [x01%byte])
                   (w_empty false)))) ["etc"] = Some (VFile 420 [x01%byte]).
Proof.
  apply (handler_entry_can_leave_target "out" "etc"
           (entry "../etc" TypeReg EmptyString 420 [x01%byte]) (w_empty false)).
  - reflexivity.
  - reflexivity.
  - reflexivity.
  - reflexivity.
  - intros ev. reflexivity.
  - vm_compute. reflexivity.
Defined.

Lemma handler_hardlink_never_links_witness :
  fst (handler "out" (entry "b" TypeLink "a" 420 []) w_alias) <> None /\
  forall q,
    names (fs (snd (handler "out" (entry "b" TypeLink "a" 420 []) w_alias))) !! q =
      names (fs w_alias) !! q \/
    (names (fs w_alias) !! q = None /\
     names (fs (snd (handler "out" (entry "b" TypeLink "a" 420 []) w_alias))) !! q =
       Some (NDir 493)).
Proof.
  apply (handler_hardlink_never_links "out" (entry "b" TypeLink "a" 420 []) w_alias).
  - reflexivity.
  - reflexivity.
  - vm_compute. reflexivity.
Defined.

Lemma HashFiles_fails_at_first_unreadable_witness :
  exists cause,
    snd (hashOne small_disk "gone" []) = Some cause /\
    HashFiles small_disk (["f1"] ++ "gone" :: ["f2"]) =
      (EmptyString,
       Some (wrapError "failed to hash %s: %w" [AStr "gone"; AErr cause] cause)).
Proof.
  apply (HashFiles_fails_at_first_unreadable small_disk ["f1"] ["f2"] "gone").
  - repeat constructor.
    eexists. split; [reflexivity|]. split; [|reflexivity].
    exists false. split; [reflexivity|]. reflexivity.
  - intros (f & Hf & _). vm_compute in Hf. discriminate Hf.
Defined.

(** A disk whose one file [g] holds the bytes of [f1] and [f2]. *)
Definition joined_disk : Disk := fun name =>
  if String.eqb name "g" then
    inr {| Stat := inr false; Read := ([x01; x02; x03]%byte, None); Close := None |}
  else inl (PathError "open" ENOENT).

Lemma HashFiles_sees_bytes_only_witness :
  HashFiles small_disk ["f1"; "f2"] = HashFiles joined_disk ["g"].
Proof.
  apply (HashFiles_sees_bytes_only small_disk joined_disk ["f1"; "f2"] ["g"]).
  - repeat constructor.
    + eexists. split; [reflexivity|]. split; [|reflexivity].
      exists false. split; [reflexivity|]. reflexivity.
    + eexists. split; [reflexivity|]. split; [|reflexivity].
      exists false. split; [reflexivity|]. reflexivity.
  - repeat constructor.
    eexists. split; [reflexivity|]. split; [|reflexivity].
    exists false. split; [reflexivity|]. reflexivity.
  - reflexivity.
Defined.
